(** * Wanderlust Traces: the dual-persistence gateway of [services/api.ts]

    A shallow embedding of [ApiService] (connectivity probe and the
    list / create / delete / import operations over journal entries) as
    state-passing programs over a world made of the browser's
    [localStorage], the remote store behind [fetch], the clock read by
    [Date.now()] and the log of requests that went out.

    Platform functions the service calls but does not define are interfaces
    here: [JSON.stringify] / [JSON.parse] ([Json]), the remote end of
    [fetch] ([Remote]) and the quota policy of Web Storage ([WebStorage]).
    Reference instances of all three follow the gateway and are used for the
    concrete runs. *)

From Stdlib Require Import ZArith NArith String Ascii List Bool Lia.
From Stdlib Require Import Decimal DecimalString DecimalPos DecimalZ.
From stdpp Require Import base option list gmap strings pretty.

Set Warnings "-register-all".

Open Scope Z_scope.
Open Scope string_scope.
Open Scope list_scope.

(** ** Data model ([types.ts]) *)

Inductive Category := Food | Shopping | Culture | Nature | Other.

(** [number] is the type of the coordinates; the gateway never computes with
    them, so it stays a parameter. *)
Record JournalEntry (number : Type) := mkEntry {
  id : string;
  latitude : number;
  longitude : number;
  timestamp : string;
  dateDisplay : string;
  note : string;
  category : Category;
  photoUrl : option string
}.

(** [Omit<JournalEntry, 'id'>]: what the caller hands to [createEntry]. *)
Record NewEntry (number : Type) := mkNew {
  new_latitude : number;
  new_longitude : number;
  new_timestamp : string;
  new_dateDisplay : string;
  new_note : string;
  new_category : Category;
  new_photoUrl : option string
}.

Arguments mkEntry {number}.
Arguments id {number}.
Arguments latitude {number}.
Arguments longitude {number}.
Arguments timestamp {number}.
Arguments dateDisplay {number}.
Arguments note {number}.
Arguments category {number}.
Arguments photoUrl {number}.
Arguments mkNew {number}.
Arguments new_latitude {number}.
Arguments new_longitude {number}.
Arguments new_timestamp {number}.
Arguments new_dateDisplay {number}.
Arguments new_note {number}.
Arguments new_category {number}.
Arguments new_photoUrl {number}.

(** [{ ...entry, id: i }] *)
Definition with_id {number} (entry : NewEntry number) (i : string) : JournalEntry number :=
  {| id := i;
     latitude := new_latitude entry;
     longitude := new_longitude entry;
     timestamp := new_timestamp entry;
     dateDisplay := new_dateDisplay entry;
     note := new_note entry;
     category := new_category entry;
     photoUrl := new_photoUrl entry |}.

(** ** Platform interfaces *)

(** [JSON.stringify] and [JSON.parse] at a type. [parse] answers [None]
    where [JSON.parse] throws; values are typed as the signatures of the
    service declare them, so text that is JSON of another shape than [A] has
    no value in this model either. *)
Class Json (A : Type) := {
  stringify : A -> string;
  parse : string -> option A
}.

(** A value survives the mirror when its text is read back as the same value
    and is not the empty text, which [getLocalEntries] takes for an absent
    mirror. *)
Definition json_safe {A} `{Json A} (a : A) : Prop :=
  parse (stringify a) = Some a /\ stringify a <> EmptyString.

Inductive Method := GET | POST | DELETE.

Record Request := mkRequest {
  method : Method;
  url : string;
  body : option string
}.

Record Response := mkResponse {
  ok : bool;
  text : string
}.

(** How a [fetch] promise settles, and after how many milliseconds. *)
Inductive Settle :=
| Never
| Rejects (after : N)
| Resolves (after : N) (r : Response).

(** The remote end: any state machine answering requests. *)
Class Remote (R : Type) := {
  serve : Request -> R -> Settle * R
}.

(** Web Storage takes a write or refuses it with [QuotaExceededError]. *)
Class WebStorage := {
  admits : gmap string string -> string -> string -> bool
}.

Inductive exn :=
| NetworkError
| AbortError
| JsError (msg : string)
| SyntaxError
| QuotaExceededError.

Inductive Event :=
| Sent (req : Request)
| Aborted (req : Request).

(** ** Constants of [api.ts] *)

Definition BASE_URL : string := "http://localhost:3001".
Definition API_URL : string := BASE_URL +:+ "/entries".
Definition STORAGE_KEY : string := "luminary_journal_entries".
Definition PROBE_TIMEOUT_MS : N := 1200%N.
Definition LOCAL_PREFIX : string := "local-".

(** [`local-${Date.now()}`] *)
Definition local_id (now : Z) : string := LOCAL_PREFIX +:+ pretty now.

(** ** Vocabulary of the statements *)

(** The collection the mirror stands for: nothing stored and the empty text
    both stand for the empty collection, any other text for what
    [JSON.parse] makes of it. Text that does not parse stands for nothing. *)
Inductive mirror_holds {number} `{Json (list (JournalEntry number))}
    (store : gmap string string) : list (JournalEntry number) -> Prop :=
| mirror_absent :
    store !! STORAGE_KEY = None -> mirror_holds store []
| mirror_blank :
    store !! STORAGE_KEY = Some EmptyString -> mirror_holds store []
| mirror_text s xs :
    store !! STORAGE_KEY = Some s -> s <> EmptyString -> parse s = Some xs ->
    mirror_holds store xs.

Definition mirror_unreadable {number} `{Json (list (JournalEntry number))}
    (store : gmap string string) : Prop :=
  exists s, store !! STORAGE_KEY = Some s /\ s <> EmptyString /\
            parse (A := list (JournalEntry number)) s = None.

(** The ways a request whose answer is read at type [A] fails: the transport
    gives up (unreachable host, transport timeout), the status is not a
    success, or the body is not JSON of that type. *)
Inductive request_fails (A : Type) `{Json A} : Settle -> Prop :=
| fails_transport t : request_fails A (Rejects t)
| fails_status t r : ok r = false -> request_fails A (Resolves t r)
| fails_body t r : ok r = true -> parse (A := A) (text r) = None ->
    request_fails A (Resolves t r).

Definition latency (s : Settle) : N :=
  match s with
  | Never => 0
  | Rejects t => t
  | Resolves t _ => t
  end.

(** The entry [createLocalEntry] mints when the clock reads [now]. *)
Definition minted {number} (entry : NewEntry number) (now : Z) : JournalEntry number :=
  with_id entry (local_id now).

(** [e => e.id !== i], the entries a deletion of [i] keeps. *)
Abbreviation others i := (fun e : JournalEntry _ => id e <> i) (only parsing).

(** Whether the promise settles before a timer of [d] milliseconds fires. *)
Definition settles_before (d : N) (s : Settle) : bool :=
  match s with
  | Never => false
  | Rejects t => (t <? d)%N
  | Resolves t _ => (t <? d)%N
  end.

Definition GET_entries : Request := mkRequest GET API_URL None.
Definition GET_ping : Request := mkRequest GET (BASE_URL +:+ "/ping") None.
Definition DELETE_entry (i : string) : Request :=
  mkRequest DELETE (API_URL +:+ "/" +:+ i) None.

(** What an [async] function does: resolve, reject, or never settle. *)
Inductive outcome (A : Type) :=
| Return (a : A)
| Throw (e : exn)
| Pending.
Arguments Return {A}.
Arguments Throw {A}.
Arguments Pending {A}.

(** ** Worlds and the gateway monad *)

Section Gateway.
Context {number : Type} {R : Type}.
Context `{Rm : !Remote R} `{WS : !WebStorage}.
Context `{JEs : !Json (list (JournalEntry number))}.
Context `{JE : !Json (JournalEntry number)}.
Context `{JN : !Json (NewEntry number)}.

Record World := mkWorld {
  localStorage : gmap string string;
  remote : R;
  clock : Z;
  trace : list Event
}.

Definition M (A : Type) : Type := World -> outcome A * World.

Definition ret {A} (a : A) : M A := fun w => (Return a, w).
Definition throw {A} (e : exn) : M A := fun w => (Throw e, w).
Definition bind {A B} (m : M A) (k : A -> M B) : M B := fun w =>
  match m w with
  | (Return a, w') => k a w'
  | (Throw e, w') => (Throw e, w')
  | (Pending, w') => (Pending, w')
  end.
(** [try { m } catch (e) { h e }] *)
Definition try_catch {A} (m : M A) (h : exn -> M A) : M A := fun w =>
  match m w with
  | (Throw e, w') => h e w'
  | r => r
  end.

Notation "'let!' x ':=' m 'in' k" := (bind m (fun x => k))
  (at level 10, x name, m at level 100, k at level 200).
Notation "m ';;;' k" := (bind m (fun _ => k))
  (at level 100, k at level 200, right associativity).

(** *** Platform calls *)

Definition getItem (k : string) : M (option string) := fun w =>
  (Return (localStorage w !! k), w).

Definition setItem (k v : string) : M unit := fun w =>
  if admits (localStorage w) k v
  then (Return tt,
        {| localStorage := <[k := v]> (localStorage w); remote := remote w;
           clock := clock w; trace := trace w |})
  else (Throw QuotaExceededError, w).

Definition Date_now : M Z := fun w => (Return (clock w), w).

Definition elapse (ms : N) (r' : R) (evs : list Event) (w : World) : World :=
  {| localStorage := localStorage w; remote := r';
     clock := clock w + Z.of_N ms; trace := trace w ++ evs |}.

(** [await fetch(url, { method, body, signal })]. With [signal = Some d]
    a timer aborts the request [d] milliseconds after it was sent unless
    the promise has settled before. *)
Definition fetch (req : Request) (signal : option N) : M Response := fun w =>
  let '(s, r') := serve req (remote w) in
  match s, signal with
  | Never, None => (Pending, elapse 0 r' [Sent req] w)
  | Never, Some d => (Throw AbortError, elapse d r' [Sent req; Aborted req] w)
  | Rejects t, None => (Throw NetworkError, elapse t r' [Sent req] w)
  | Rejects t, Some d =>
      if (t <? d)%N then (Throw NetworkError, elapse t r' [Sent req] w)
      else (Throw AbortError, elapse d r' [Sent req; Aborted req] w)
  | Resolves t resp, None => (Return resp, elapse t r' [Sent req] w)
  | Resolves t resp, Some d =>
      if (t <? d)%N then (Return resp, elapse t r' [Sent req] w)
      else (Throw AbortError, elapse d r' [Sent req; Aborted req] w)
  end.

(** [await response.json()] *)
Definition response_json {A} `{Json A} (resp : Response) : M A :=
  match parse (text resp) with
  | Some a => ret a
  | None => throw SyntaxError
  end.

(** *** [ApiService] *)

Definition checkConnection : M bool :=
  try_catch
    (let! response := fetch (mkRequest GET (BASE_URL +:+ "/ping") None)
                            (Some PROBE_TIMEOUT_MS) in
     ret (ok response))
    (fun _ => ret false).

Definition getLocalEntries : M (list (JournalEntry number)) :=
  let! stored := getItem STORAGE_KEY in
  match stored with
  | Some s =>
      if String.eqb s EmptyString then ret []
      else match parse s with
           | Some entries => ret entries
           | None => throw SyntaxError
           end
  | None => ret []
  end.

Definition getEntries : M (list (JournalEntry number)) :=
  try_catch
    (let! response := fetch (mkRequest GET API_URL None) None in
     if negb (ok response) then throw (JsError "Server returned error") else
     let! data := response_json response in
     setItem STORAGE_KEY (stringify data) ;;;
     ret data)
    (fun _ => getLocalEntries).

Definition createLocalEntry (entry : NewEntry number) : M (JournalEntry number) :=
  let! now := Date_now in
  let newEntry := with_id entry (local_id now) in
  let! entries := getLocalEntries in
  setItem STORAGE_KEY (stringify (entries ++ [newEntry])) ;;;
  ret newEntry.

Definition createEntry (entry : NewEntry number) : M (JournalEntry number) :=
  try_catch
    (let! response := fetch (mkRequest POST API_URL (Some (stringify entry))) None in
     if negb (ok response) then throw (JsError "Creation failed") else
     let! saved := response_json response in
     let! local := getLocalEntries in
     setItem STORAGE_KEY (stringify (local ++ [saved])) ;;;
     ret saved)
    (fun _ => createLocalEntry entry).

Definition deleteLocalEntry (i : string) : M unit :=
  let! entries := getLocalEntries in
  let updated := filter (fun e : JournalEntry number => id e <> i) entries in
  setItem STORAGE_KEY (stringify updated).

Definition deleteEntry (i : string) : M unit :=
  try_catch
    (let! response := fetch (mkRequest DELETE (API_URL +:+ "/" +:+ i) None) None in
     if negb (ok response) then throw (JsError "Deletion failed") else
     let! local := getLocalEntries in
     setItem STORAGE_KEY
             (stringify (filter (fun e : JournalEntry number => id e <> i) local)))
    (fun _ => deleteLocalEntry i).

Definition importEntries (data : list (JournalEntry number)) : M unit :=
  setItem STORAGE_KEY (stringify data).

Definition POST_entry (entry : NewEntry number) : Request :=
  mkRequest POST API_URL (Some (stringify entry)).

(** The world once [req] has settled after [t] milliseconds. *)
Definition sent (req : Request) (t : N) (r' : R) (w : World) : World :=
  elapse t r' [Sent req] w.

(** The world once the mirror has been overwritten with [v]. *)
Definition stored (v : string) (w : World) : World :=
  {| localStorage := <[STORAGE_KEY := v]> (localStorage w);
     remote := remote w; clock := clock w; trace := trace w |}.

End Gateway.

Arguments World : clear implicits.
Arguments M : clear implicits.
Arguments mkWorld {R}.

(** ** The page ([App.tsx])

    The handlers of the page that call the gateway, as programs over the
    state of the page and the world. A handler runs from its call to its end
    with no other event in between; the state it closes over is the state
    at its call. *)

Record Coordinates (number : Type) := mkCoordinates {
  lat : number;
  lng : number
}.
Arguments mkCoordinates {number}.
Arguments lat {number}.
Arguments lng {number}.

(** What [EntryForm] hands to [handleFormSubmit]. *)
Record FormData := mkFormData {
  form_note : string;
  form_category : Category;
  form_photoUrl : option string;
  form_date : string
}.

(** What [JSON.parse] makes of the text of an imported file: it throws, or
    gives a value that is no array, or gives an array, typed as the signature
    of [importEntries] declares it. *)
Inductive FileContent (number : Type) :=
| NotJson
| NotArray
| EntryArray (xs : list (JournalEntry number)).
Arguments NotJson {number}.
Arguments NotArray {number}.
Arguments EntryArray {number}.

(** [Date] as the page uses it: [toLocaleString s] is
    [new Date(s).toLocaleString([], { dateStyle: 'medium', timeStyle: 'short' })]
    and [getTime s] is [new Date(s).getTime()], with [None] for [NaN]. *)
Class DateFormat := {
  toLocaleString : string -> string;
  getTime : string -> option Z
}.

Section App.
Context {number : Type} {R : Type}.
Context `{Rm : !Remote R} `{WS : !WebStorage} `{DF : !DateFormat}.
Context `{JEs : !Json (list (JournalEntry number))}.
Context `{JE : !Json (JournalEntry number)}.
Context `{JN : !Json (NewEntry number)}.

(** The [useState] cells the handlers touch, and the messages shown with
    [alert]. *)
Record App := mkApp {
  entries : list (JournalEntry number);
  tempMarker : option (Coordinates number);
  isFormOpen : bool;
  selectedEntryId : option string;
  isLoading : bool;
  isSyncing : bool;
  isBackendOnline : option bool;
  alerts : list string
}.

Definition initial : App :=
  {| entries := []; tempMarker := None; isFormOpen := false;
     selectedEntryId := None; isLoading := true; isSyncing := false;
     isBackendOnline := None; alerts := [] |}.

Definition setEntries (f : list (JournalEntry number) -> list (JournalEntry number))
    (a : App) : App :=
  {| entries := f (entries a); tempMarker := tempMarker a;
     isFormOpen := isFormOpen a; selectedEntryId := selectedEntryId a;
     isLoading := isLoading a; isSyncing := isSyncing a;
     isBackendOnline := isBackendOnline a; alerts := alerts a |}.

Definition setTempMarker (m : option (Coordinates number)) (a : App) : App :=
  {| entries := entries a; tempMarker := m;
     isFormOpen := isFormOpen a; selectedEntryId := selectedEntryId a;
     isLoading := isLoading a; isSyncing := isSyncing a;
     isBackendOnline := isBackendOnline a; alerts := alerts a |}.

Definition setIsFormOpen (b : bool) (a : App) : App :=
  {| entries := entries a; tempMarker := tempMarker a;
     isFormOpen := b; selectedEntryId := selectedEntryId a;
     isLoading := isLoading a; isSyncing := isSyncing a;
     isBackendOnline := isBackendOnline a; alerts := alerts a |}.

Definition setSelectedEntryId (i : option string) (a : App) : App :=
  {| entries := entries a; tempMarker := tempMarker a;
     isFormOpen := isFormOpen a; selectedEntryId := i;
     isLoading := isLoading a; isSyncing := isSyncing a;
     isBackendOnline := isBackendOnline a; alerts := alerts a |}.

Definition setIsLoading (b : bool) (a : App) : App :=
  {| entries := entries a; tempMarker := tempMarker a;
     isFormOpen := isFormOpen a; selectedEntryId := selectedEntryId a;
     isLoading := b; isSyncing := isSyncing a;
     isBackendOnline := isBackendOnline a; alerts := alerts a |}.

Definition setIsSyncing (b : bool) (a : App) : App :=
  {| entries := entries a; tempMarker := tempMarker a;
     isFormOpen := isFormOpen a; selectedEntryId := selectedEntryId a;
     isLoading := isLoading a; isSyncing := b;
     isBackendOnline := isBackendOnline a; alerts := alerts a |}.

Definition setIsBackendOnline (b : bool) (a : App) : App :=
  {| entries := entries a; tempMarker := tempMarker a;
     isFormOpen := isFormOpen a; selectedEntryId := selectedEntryId a;
     isLoading := isLoading a; isSyncing := isSyncing a;
     isBackendOnline := Some b; alerts := alerts a |}.

Definition shown (msg : string) (a : App) : App :=
  {| entries := entries a; tempMarker := tempMarker a;
     isFormOpen := isFormOpen a; selectedEntryId := selectedEntryId a;
     isLoading := isLoading a; isSyncing := isSyncing a;
     isBackendOnline := isBackendOnline a; alerts := alerts a ++ [msg] |}.

(** Handlers thread the state of the page beside the world, also through a
    throw. *)
Definition UI (A : Type) : Type := App -> World R -> outcome A * App * World R.

Definition ui_ret {A} (x : A) : UI A := fun a w => (Return x, a, w).
Definition ui_bind {A B} (m : UI A) (k : A -> UI B) : UI B := fun a w =>
  match m a w with
  | (Return x, a', w') => k x a' w'
  | (Throw e, a', w') => (Throw e, a', w')
  | (Pending, a', w') => (Pending, a', w')
  end.
(** [await m] for a call of the gateway. *)
Definition call {A} (m : M R A) : UI A := fun a w =>
  let '(r, w') := m w in (r, a, w').
Definition update (f : App -> App) : UI unit := fun a w => (Return tt, f a, w).
Definition alert (msg : string) : UI unit := update (shown msg).
(** [try { m } catch (e) { h e }] *)
Definition ui_try {A} (m : UI A) (h : exn -> UI A) : UI A := fun a w =>
  match m a w with
  | (Throw e, a', w') => h e a' w'
  | r => r
  end.
(** [try { m } finally { f }], for an [f] that only sets state. *)
Definition ui_finally {A} (m : UI A) (f : App -> App) : UI A := fun a w =>
  match m a w with
  | (Pending, a', w') => (Pending, a', w')
  | (r, a', w') => (r, f a', w')
  end.

Notation "'do!' x ':=' m 'in' k" := (ui_bind m (fun x => k))
  (at level 10, x name, m at level 100, k at level 200).
Notation "m ';;!' k" := (ui_bind m (fun _ => k))
  (at level 100, k at level 200, right associativity).

(** The body of the mount effect. *)
Definition initApp : UI unit :=
  do! online := call checkConnection in
  update (setIsBackendOnline online) ;;!
  ui_finally
    (ui_try
       (do! data := call getEntries in
        update (setEntries (fun _ => data)))
       (fun _ => ui_ret tt))
    (setIsLoading false).

(** The callback of the 30 second interval. *)
Definition pollConnection : UI unit :=
  do! online := call checkConnection in
  update (setIsBackendOnline online).

Definition handleMapClick (coords : Coordinates number) : UI unit :=
  update (setTempMarker (Some coords)) ;;!
  update (setIsFormOpen true) ;;!
  update (setSelectedEntryId None).

Definition handleEntrySelect (i : string) : UI unit :=
  update (setSelectedEntryId (Some i)) ;;!
  update (setTempMarker None) ;;!
  update (setIsFormOpen false).

Definition handleFormSubmit (data : FormData) : UI unit := fun a =>
  match tempMarker a with
  | None => ui_ret tt a
  | Some marker =>
      (update (setIsSyncing true) ;;!
       ui_finally
         (ui_try
            (let newEntryPayload :=
               {| new_latitude := lat marker;
                  new_longitude := lng marker;
                  new_timestamp := form_date data;
                  new_dateDisplay := toLocaleString (form_date data);
                  new_note := form_note data;
                  new_category := form_category data;
                  new_photoUrl := form_photoUrl data |} in
             do! savedEntry := call (createEntry newEntryPayload) in
             update (setEntries (fun prev => prev ++ [savedEntry])) ;;!
             update (setIsFormOpen false) ;;!
             update (setTempMarker None))
            (fun _ => alert "Failed to save to cloud, saved locally instead."))
         (setIsSyncing false)) a
  end.

(** [confirmed] is the answer to [window.confirm]. *)
Definition handleDeleteEntry (confirmed : bool) (i : string) : UI unit := fun a =>
  if confirmed then
    (update (setIsSyncing true) ;;!
     ui_finally
       (ui_try
          (call (deleteEntry i) ;;!
           update (setEntries (filter (fun entry : JournalEntry number => id entry <> i))) ;;!
           if decide (selectedEntryId a = Some i)
           then update (setSelectedEntryId None)
           else ui_ret tt)
          (fun _ => alert "Action failed."))
       (setIsSyncing false)) a
  else ui_ret tt a.

(** The [onload] callback of the reader, for the file the user chose if any. *)
Definition handleImport (file : option (FileContent number)) : UI unit :=
  match file with
  | None => ui_ret tt
  | Some content =>
      ui_try
        (match content with
         | NotJson => fun a w => (Throw SyntaxError, a, w)
         | NotArray => ui_ret tt
         | EntryArray importedData =>
             call (importEntries importedData) ;;!
             update (setEntries (fun _ => importedData)) ;;!
             alert "Journal imported successfully!"
         end)
        (fun _ => alert "Failed to import. Invalid file format.")
  end.

(** The close button of the side panel. *)
Definition closePanel : UI unit :=
  update (setIsFormOpen false) ;;!
  update (setSelectedEntryId None) ;;!
  update (setTempMarker None).

(** The [onCancel] of the form. *)
Definition cancelForm : UI unit :=
  update (setIsFormOpen false) ;;!
  update (setTempMarker None).

(** [entries.find(e => e.id === selectedEntryId)] *)
Definition selectedEntry (a : App) : option (JournalEntry number) :=
  match selectedEntryId a with
  | Some i => List.find (fun e => String.eqb (id e) i) (entries a)
  | None => None
  end.

(** The page shows what the mirror holds. *)
Definition in_sync (a : App) (w : World R) : Prop :=
  mirror_holds (localStorage w) (entries a).

(** The form is open exactly while a marker is on the map, and then no
    entry is selected. *)
Definition form_has_marker (a : App) : Prop :=
  (isFormOpen a = true <-> is_Some (tempMarker a)) /\
  (isFormOpen a = true -> selectedEntryId a = None).

End App.

Arguments App : clear implicits.
Arguments UI : clear implicits.
Arguments mkApp {number}.
Arguments initial {number}.

(** ** Steps of a call *)

Section Steps.
Context {R : Type} `{Rm : !Remote R}.

(** A step that leaves the remote, the clock and the log alone, and either
    leaves the store alone or overwrites the mirror's key. *)
Definition local_step (w w' : World R) : Prop :=
  remote w' = remote w /\ clock w' = clock w /\ trace w' = trace w /\
  (localStorage w' = localStorage w \/
   exists v, localStorage w' = <[STORAGE_KEY := v]> (localStorage w)).

(** The world a call leaves: its one request has settled, then local steps. *)
Definition after_request (req : Request) (w w' : World R) : Prop :=
  local_step
    (sent req (latency (serve req (remote w)).1) (serve req (remote w)).2 w) w'.

End Steps.

(** ** The AI helpers ([services/geminiService.ts]) *)

Record InlineData := mkInlineData {
  mimeType : string;
  data : string
}.

Record Part := mkPart {
  part_text : option string;
  inlineData : option InlineData
}.

Record Content := mkContent {
  parts : option (list Part)
}.

Record Candidate := mkCandidate {
  content : option Content
}.

(** What [generateContent] resolves with: the [text] property and the
    candidates, either of which may be [undefined]. *)
Record GenerateContentResponse := mkGenResponse {
  response_text : option string;
  candidates : option (list Candidate)
}.

Inductive Contents :=
| Prompt (p : string)
| TextParts (texts : list string).

Record GenerateContentRequest := mkGenRequest {
  model : string;
  contents : Contents;
  aspectRatio : option string
}.

(** The model behind [ai.models.generateContent], taken to settle: [None]
    where the call rejects. *)
Class GenAI := {
  generateContent : GenerateContentRequest -> option GenerateContentResponse
}.

(** [String.prototype.trim] *)
Class Text := {
  trim : string -> string
}.

(** [`${n}`] for a number. *)
Class NumberText (number : Type) := {
  number_text : number -> string
}.

Definition NL : string := String "010"%char EmptyString.
Definition DQ : string := String "034"%char EmptyString.

(** The value of a member of the [Category] enum. *)
Definition category_value (c : Category) : string :=
  match c with
  | Food => "Food"
  | Shopping => "Shopping"
  | Culture => "Culture"
  | Nature => "Nature"
  | Other => "Other"
  end.

(** [s || fallback] for a string that may be [undefined]. *)
Definition or_else (s : option string) (fallback : string) : string :=
  match s with
  | Some t => if String.eqb t EmptyString then fallback else t
  | None => fallback
  end.

Definition TEXT_MODEL : string := "gemini-3-flash-preview".
Definition IMAGE_MODEL : string := "gemini-2.5-flash-image".

Section Gemini.
Context {number : Type}.
Context `{AI : !GenAI} `{TX : !Text} `{NT : !NumberText number}.

(** Each helper answers with its result and the requests it has sent. *)

Definition summary_line (e : JournalEntry number) : string :=
  "- On " +:+ dateDisplay e +:+ ", at a location (" +:+ category_value (category e)
  +:+ "), I wrote: " +:+ DQ +:+ note e +:+ DQ.

Definition summary_prompt (entries : list (JournalEntry number)) : string :=
  "Write a poetic and reflective travel summary (max 80 words) for these entries: "
  +:+ NL +:+ String.concat NL (map summary_line entries) +:+ NL
  +:+ "Tone: Warm, nostalgic, luminary.".

Definition generateTravelSummary (entries : list (JournalEntry number))
    : string * list GenerateContentRequest :=
  match entries with
  | [] => ("No entries selected.", [])
  | _ :: _ =>
      let request := mkGenRequest TEXT_MODEL (Prompt (summary_prompt entries)) None in
      match generateContent request with
      | Some response =>
          (or_else (response_text response) "Could not generate summary.", [request])
      | None => ("An error occurred.", [request])
      end
  end.

Definition enhance_prompt (rawNote category : string) : string :=
  "Rewrite this raw note into an evocative travel journal entry (max 40 words): "
  +:+ DQ +:+ rawNote +:+ DQ +:+ ". Category: " +:+ category +:+ ".".

Definition enhanceEntryNote (rawNote category : string)
    : string * list GenerateContentRequest :=
  if String.eqb (trim rawNote) EmptyString then (rawNote, [])
  else
    let request := mkGenRequest TEXT_MODEL (Prompt (enhance_prompt rawNote category)) None in
    match generateContent request with
    | Some response =>
        (or_else (option_map trim (response_text response)) rawNote, [request])
    | None => (rawNote, [request])
    end.

Definition place_prompt (la lo : number) : string :=
  "I am at Lat: " +:+ number_text la +:+ ", Lng: " +:+ number_text lo
  +:+ ". Tell me one interesting historical fact about this spot (max 40 words).".

Definition getPlaceContext (la lo : number) : string * list GenerateContentRequest :=
  let request := mkGenRequest TEXT_MODEL (Prompt (place_prompt la lo)) None in
  match generateContent request with
  | Some response =>
      (or_else (option_map trim (response_text response))
               "A beautiful mysterious spot.", [request])
  | None => ("Agent is offline.", [request])
  end.

Definition paint_prompt (note : string) : string :=
  "A beautiful, atmospheric watercolor painting of a travel memory: "
  +:+ DQ +:+ note +:+ DQ +:+ ". Dreamy, artistic, soft lighting, 1:1 aspect ratio.".

(** [response.candidates?.[0]?.content?.parts] *)
Definition first_parts (response : GenerateContentResponse) : option (list Part) :=
  match candidates response with
  | Some (c :: _) =>
      match content c with
      | Some ct => parts ct
      | None => None
      end
  | _ => None
  end.

(** The loop over the parts: the first one with inline data decides. *)
Fixpoint first_image (ps : list Part) : option string :=
  match ps with
  | [] => None
  | p :: rest =>
      match inlineData p with
      | Some d => Some ("data:" +:+ mimeType d +:+ ";base64," +:+ data d)
      | None => first_image rest
      end
  end.

Definition paintMemory (note : string) : option string * list GenerateContentRequest :=
  if String.eqb (trim note) EmptyString then (None, [])
  else
    let request :=
      mkGenRequest IMAGE_MODEL (TextParts [paint_prompt note]) (Some "1:1") in
    match generateContent request with
    | Some response =>
        match first_parts response with
        | Some ps => (first_image ps, [request])
        | None => (None, [request])
        end
    | None => (None, [request])
    end.

End Gemini.

(** ** The journey summary of the page ([App.tsx]) *)

Record DateRange := mkDateRange {
  range_start : string;
  range_end : string
}.

Section Journey.
Context {number : Type}.
Context `{AI : !GenAI} `{DF : !DateFormat}.

(** The cells [handleGenerateSummary] sets. *)
Record Journey := mkJourney {
  isGenerating : bool;
  travelStory : option string
}.

(** [t >= start && t <= end] on times that may be [NaN]. *)
Definition within (start finish t : option Z) : bool :=
  match start, finish, t with
  | Some s, Some f, Some x => ((s <=? x) && (x <=? f))%Z
  | _, _, _ => false
  end.

Definition range_filter (range : DateRange) (entries : list (JournalEntry number))
    : list (JournalEntry number) :=
  let start := getTime (range_start range) in
  let finish := option_map (fun t => t + 86400000) (getTime (range_end range)) in
  List.filter (fun e => within start finish (getTime (timestamp e))) entries.

Definition handleGenerateSummary (range : DateRange)
    (entries : list (JournalEntry number)) (j : Journey)
    : Journey * list GenerateContentRequest :=
  let filtered := range_filter range entries in
  let '(story, sent_requests) := generateTravelSummary filtered in
  ({| isGenerating := false; travelStory := Some story |}, sent_requests).

End Journey.

(** ** The entry form ([components/EntryForm.tsx]) *)

(** The browser's handling of a chosen file: [URL.createObjectURL], and a
    [FileReader] doing [readAsDataURL], with [None] where the read fails and
    [onload] never fires. *)
Class Files (File : Type) := {
  createObjectURL : File -> string;
  readAsDataURL : File -> option string
}.

Module EntryForm.
Section EntryForm.
Context {number File : Type}.
Context `{AI : !GenAI} `{TX : !Text} `{NT : !NumberText number} `{FS : !Files File}.

(** The [useState] cells of the form, and the messages it shows with
    [alert]. *)
Record Form := mkForm {
  note : string;
  category : Category;
  date : string;
  photo : option File;
  previewUrl : option string;
  isEnhancing : bool;
  isPainting : bool;
  isProcessing : bool;
  agentInsight : option string;
  isGettingInsight : bool;
  alerts : list string
}.

Definition setNote (v : string) (f : Form) : Form :=
  {| note := v; category := category f; date := date f; photo := photo f;
     previewUrl := previewUrl f; isEnhancing := isEnhancing f;
     isPainting := isPainting f; isProcessing := isProcessing f;
     agentInsight := agentInsight f; isGettingInsight := isGettingInsight f;
     alerts := alerts f |}.

Definition setPhoto (v : option File) (f : Form) : Form :=
  {| note := note f; category := category f; date := date f; photo := v;
     previewUrl := previewUrl f; isEnhancing := isEnhancing f;
     isPainting := isPainting f; isProcessing := isProcessing f;
     agentInsight := agentInsight f; isGettingInsight := isGettingInsight f;
     alerts := alerts f |}.

Definition setPreviewUrl (v : option string) (f : Form) : Form :=
  {| note := note f; category := category f; date := date f; photo := photo f;
     previewUrl := v; isEnhancing := isEnhancing f;
     isPainting := isPainting f; isProcessing := isProcessing f;
     agentInsight := agentInsight f; isGettingInsight := isGettingInsight f;
     alerts := alerts f |}.

Definition setIsEnhancing (v : bool) (f : Form) : Form :=
  {| note := note f; category := category f; date := date f; photo := photo f;
     previewUrl := previewUrl f; isEnhancing := v;
     isPainting := isPainting f; isProcessing := isProcessing f;
     agentInsight := agentInsight f; isGettingInsight := isGettingInsight f;
     alerts := alerts f |}.

Definition setIsPainting (v : bool) (f : Form) : Form :=
  {| note := note f; category := category f; date := date f; photo := photo f;
     previewUrl := previewUrl f; isEnhancing := isEnhancing f;
     isPainting := v; isProcessing := isProcessing f;
     agentInsight := agentInsight f; isGettingInsight := isGettingInsight f;
     alerts := alerts f |}.

Definition setIsProcessing (v : bool) (f : Form) : Form :=
  {| note := note f; category := category f; date := date f; photo := photo f;
     previewUrl := previewUrl f; isEnhancing := isEnhancing f;
     isPainting := isPainting f; isProcessing := v;
     agentInsight := agentInsight f; isGettingInsight := isGettingInsight f;
     alerts := alerts f |}.

Definition setAgentInsight (v : option string) (f : Form) : Form :=
  {| note := note f; category := category f; date := date f; photo := photo f;
     previewUrl := previewUrl f; isEnhancing := isEnhancing f;
     isPainting := isPainting f; isProcessing := isProcessing f;
     agentInsight := v; isGettingInsight := isGettingInsight f;
     alerts := alerts f |}.

Definition setIsGettingInsight (v : bool) (f : Form) : Form :=
  {| note := note f; category := category f; date := date f; photo := photo f;
     previewUrl := previewUrl f; isEnhancing := isEnhancing f;
     isPainting := isPainting f; isProcessing := isProcessing f;
     agentInsight := agentInsight f; isGettingInsight := v;
     alerts := alerts f |}.

Definition alert (msg : string) (f : Form) : Form :=
  {| note := note f; category := category f; date := date f; photo := photo f;
     previewUrl := previewUrl f; isEnhancing := isEnhancing f;
     isPainting := isPainting f; isProcessing := isProcessing f;
     agentInsight := agentInsight f; isGettingInsight := isGettingInsight f;
     alerts := alerts f ++ [msg] |}.

(** Each handler that asks the model answers with the form it leaves and
    the requests it has sent. *)

(** [file] is [e.target.files[0]], if there is one. *)
Definition handleFileChange (file : option File) (f : Form) : Form :=
  match file with
  | Some chosen => setPreviewUrl (Some (createObjectURL chosen)) (setPhoto (Some chosen) f)
  | None => f
  end.

Definition handleEnhance (f : Form) : Form * list GenerateContentRequest :=
  if String.eqb (trim (note f)) EmptyString then (f, [])
  else
    let '(polished, requests) :=
      enhanceEntryNote (note f) (category_value (category f)) in
    (setIsEnhancing false (setNote polished (setIsEnhancing true f)), requests).

Definition handlePaint (f : Form) : Form * list GenerateContentRequest :=
  if String.eqb (trim (note f)) EmptyString
  then (alert "Please write a note first to inspire the AI." f, [])
  else
    let '(aiImage, requests) := paintMemory (note f) in
    let painting := setIsPainting true f in
    let painted :=
      match aiImage with
      | Some url =>
          if String.eqb url EmptyString
          then alert "AI failed to paint this memory. Try a different description." painting
          else setPhoto None (setPreviewUrl (Some url) painting)
      | None =>
          alert "AI failed to paint this memory. Try a different description." painting
      end in
    (setIsPainting false painted, requests).

(** [coords] is the prop of that name. *)
Definition handleGetInsight (coords : option (Coordinates number)) (f : Form)
    : Form * list GenerateContentRequest :=
  match coords with
  | None => (f, [])
  | Some c =>
      let '(insight, requests) := getPlaceContext (lat c) (lng c) in
      (setIsGettingInsight false
         (setAgentInsight (Some insight) (setIsGettingInsight true f)), requests)
  end.

(** The photo the form hands over: the chosen file read as a data URL, or
    else the preview. [None] where the file cannot be read. *)
Definition finalPhotoUrl (f : Form) : option (option string) :=
  match photo f with
  | Some file => option_map Some (readAsDataURL file)
  | None => Some (previewUrl f)
  end.

(** [onSubmit] is the prop of that name, a program over the state [S] of
    whoever passed it. *)
Definition handleSubmit {S : Type}
    (onSubmit : FormData -> S -> outcome unit * S) (f : Form) (s : S)
    : outcome unit * Form * S :=
  let processing := setIsProcessing true f in
  match finalPhotoUrl f with
  | None => (Pending, processing, s)
  | Some url =>
      match onSubmit (mkFormData (note f) (category f) url (date f)) s with
      | (Return _, s') => (Return tt, setIsProcessing false processing, s')
      | (Throw e, s') => (Throw e, processing, s')
      | (Pending, s') => (Pending, processing, s')
      end
  end.

End EntryForm.

Arguments Form : clear implicits.
Arguments mkForm {File}.

End EntryForm.

(** The form as the page mounts it: [onSubmit] is [handleFormSubmit]. *)
Section FormOnPage.
Context {number R File : Type}.
Context `{Rm : !Remote R} `{WS : !WebStorage} `{DF : !DateFormat} `{FS : !Files File}.
Context `{JEs : !Json (list (JournalEntry number))}.
Context `{JE : !Json (JournalEntry number)}.
Context `{JN : !Json (NewEntry number)}.

Definition onSubmit (data : FormData) (s : App number * World R)
    : outcome unit * (App number * World R) :=
  let '(r, a', w') := handleFormSubmit data s.1 s.2 in (r, (a', w')).

Definition saveLog (f : EntryForm.Form File) (a : App number) (w : World R)
    : outcome unit * EntryForm.Form File * (App number * World R) :=
  EntryForm.handleSubmit onSubmit f (a, w).

End FormOnPage.

(** ** Reference platform

    A small JSON codec over integer coordinates, a remote that plays back a
    script of settlements, and Web Storage with and without a quota. *)

Module Ref.

Inductive json :=
| JNull
| JBool (b : bool)
| JNum (z : Z)
| JStr (s : string)
| JArr (items : list json)
| JObj (members : list (string * json)).

Definition dquote : ascii := "034"%char.
Definition backslash : ascii := "092"%char.

Definition hex_digit (n : N) : ascii :=
  ascii_of_N (if (n <? 10)%N then 48 + n else 87 + n).

Definition hex_value (c : ascii) : option N :=
  let n := N_of_ascii c in
  if ((48 <=? n) && (n <=? 57))%N then Some (n - 48)%N
  else if ((97 <=? n) && (n <=? 102))%N then Some (n - 87)%N
  else if ((65 <=? n) && (n <=? 70))%N then Some (n - 55)%N
  else None.

(** One character inside a JSON string literal. *)
Definition escape_char (c : ascii) : string :=
  let n := N_of_ascii c in
  if Ascii.eqb c dquote then String backslash (String dquote EmptyString)
  else if Ascii.eqb c backslash then String backslash (String backslash EmptyString)
  else if (n =? 8)%N then String backslash "b"
  else if (n =? 9)%N then String backslash "t"
  else if (n =? 10)%N then String backslash "n"
  else if (n =? 12)%N then String backslash "f"
  else if (n =? 13)%N then String backslash "r"
  else if (n <? 32)%N then
    String backslash
      (String "u" (String "0" (String "0"
         (String (hex_digit (n / 16)) (String (hex_digit (n mod 16)) EmptyString)))))
  else String c EmptyString.

(** Printing threads the text that follows: [emit v k] is the text of [v]
    followed by [k]. *)
Fixpoint escape (s : string) (k : string) : string :=
  match s with
  | EmptyString => k
  | String c r => escape_char c +:+ escape r k
  end.

Definition quote (s : string) (k : string) : string :=
  String dquote (escape s (String dquote k)).

Definition emit_number (z : Z) (k : string) : string :=
  NilZero.string_of_int (Z.to_int z) +:+ k.

Fixpoint emit_items (f : json -> string -> string) (l : list json) (k : string) : string :=
  match l with
  | [] => k
  | x :: rest =>
      match rest with
      | [] => f x k
      | _ :: _ => f x (String "," (emit_items f rest k))
      end
  end.

Fixpoint emit_members (f : json -> string -> string) (l : list (string * json))
    (k : string) : string :=
  match l with
  | [] => k
  | (name, x) :: rest =>
      match rest with
      | [] => quote name (String ":" (f x k))
      | _ :: _ => quote name (String ":" (f x (String "," (emit_members f rest k))))
      end
  end.

Fixpoint emit (v : json) (k : string) : string :=
  match v with
  | JNull => "null" +:+ k
  | JBool true => "true" +:+ k
  | JBool false => "false" +:+ k
  | JNum z => emit_number z k
  | JStr s => quote s k
  | JArr l => String "[" (emit_items emit l (String "]" k))
  | JObj l => String "{" (emit_members emit l (String "}" k))
  end.

(** [JSON.stringify] of a tree. *)
Definition print (v : json) : string := emit v EmptyString.

Definition is_ws (c : ascii) : bool :=
  let n := N_of_ascii c in
  ((n =? 32) || (n =? 9) || (n =? 10) || (n =? 13))%N.

Definition digit_of (c : ascii) : option (Decimal.uint -> Decimal.uint) :=
  if Ascii.eqb c "0" then Some Decimal.D0
  else if Ascii.eqb c "1" then Some Decimal.D1
  else if Ascii.eqb c "2" then Some Decimal.D2
  else if Ascii.eqb c "3" then Some Decimal.D3
  else if Ascii.eqb c "4" then Some Decimal.D4
  else if Ascii.eqb c "5" then Some Decimal.D5
  else if Ascii.eqb c "6" then Some Decimal.D6
  else if Ascii.eqb c "7" then Some Decimal.D7
  else if Ascii.eqb c "8" then Some Decimal.D8
  else if Ascii.eqb c "9" then Some Decimal.D9
  else None.

Fixpoint skip_ws (s : string) : string :=
  match s with
  | String c r => if is_ws c then skip_ws r else s
  | EmptyString => s
  end.

(** The longest run of digits at the head of [s], and what follows it. *)
Fixpoint read_digits (s : string) : Decimal.uint * string :=
  match s with
  | String c r =>
      match digit_of c with
      | Some d => let '(u, rest) := read_digits r in (d u, rest)
      | None => (Decimal.Nil, s)
      end
  | EmptyString => (Decimal.Nil, s)
  end.

(** Integers only: a fraction or an exponent is left unread. *)
Definition read_number (s : string) : option (Z * string) :=
  match s with
  | String c r =>
      if Ascii.eqb c "-" then
        match read_digits r with
        | (Decimal.Nil, _) => None
        | (u, rest) => Some (Z.of_int (Decimal.Neg u), rest)
        end
      else
        match read_digits s with
        | (Decimal.Nil, _) => None
        | (u, rest) => Some (Z.of_int (Decimal.Pos u), rest)
        end
  | EmptyString => None
  end.

(** The characters of a string literal, after its opening quote. *)
Fixpoint read_chars (s : string) : option (string * string) :=
  match s with
  | EmptyString => None
  | String c r =>
      if Ascii.eqb c dquote then Some (EmptyString, r)
      else if Ascii.eqb c backslash then
        match r with
        | EmptyString => None
        | String e r' =>
            let plain (x : ascii) :=
              match read_chars r' with
              | Some (cs, rest) => Some (String x cs, rest)
              | None => None
              end in
            if Ascii.eqb e dquote then plain dquote
            else if Ascii.eqb e backslash then plain backslash
            else if Ascii.eqb e "/" then plain "/"%char
            else if Ascii.eqb e "b" then plain "008"%char
            else if Ascii.eqb e "t" then plain "009"%char
            else if Ascii.eqb e "n" then plain "010"%char
            else if Ascii.eqb e "f" then plain "012"%char
            else if Ascii.eqb e "r" then plain "013"%char
            else if Ascii.eqb e "u" then
              match r' with
              | String h1 (String h2 (String h3 (String h4 r''))) =>
                  match hex_value h1, hex_value h2, hex_value h3, hex_value h4 with
                  | Some 0%N, Some 0%N, Some a, Some b =>
                      match read_chars r'' with
                      | Some (cs, rest) =>
                          Some (String (ascii_of_N (16 * a + b)) cs, rest)
                      | None => None
                      end
                  | _, _, _, _ => None
                  end
              | _ => None
              end
            else None
        end
      else if (N_of_ascii c <? 32)%N then None
      else
        match read_chars r with
        | Some (cs, rest) => Some (String c cs, rest)
        | None => None
        end
  end.

(** [s] without the prefix [lit], when it has it. *)
Fixpoint strip (lit s : string) : option string :=
  match lit with
  | EmptyString => Some s
  | String a lit' =>
      match s with
      | String b s' => if Ascii.eqb a b then strip lit' s' else None
      | EmptyString => None
      end
  end.

Definition read_literal (lit : string) (v : json) (s : string) : option (json * string) :=
  match strip lit s with
  | Some rest => Some (v, rest)
  | None => None
  end.

Fixpoint read_value (fuel : nat) (s : string) : option (json * string) :=
  match fuel with
  | O => None
  | S fuel' =>
      match skip_ws s with
      | EmptyString => None
      | String c r as s' =>
          if Ascii.eqb c "n" then read_literal "null" JNull s'
          else if Ascii.eqb c "t" then read_literal "true" (JBool true) s'
          else if Ascii.eqb c "f" then read_literal "false" (JBool false) s'
          else if Ascii.eqb c dquote then
            match read_chars r with
            | Some (str, rest) => Some (JStr str, rest)
            | None => None
            end
          else if Ascii.eqb c "[" then
            match skip_ws r with
            | String c' r' as r0 =>
                if Ascii.eqb c' "]" then Some (JArr [], r')
                else match read_items fuel' r0 with
                     | Some (l, rest) => Some (JArr l, rest)
                     | None => None
                     end
            | EmptyString => None
            end
          else if Ascii.eqb c "{" then
            match skip_ws r with
            | String c' r' as r0 =>
                if Ascii.eqb c' "}" then Some (JObj [], r')
                else match read_members fuel' r0 with
                     | Some (l, rest) => Some (JObj l, rest)
                     | None => None
                     end
            | EmptyString => None
            end
          else
            match read_number s' with
            | Some (z, rest) => Some (JNum z, rest)
            | None => None
            end
      end
  end
with read_items (fuel : nat) (s : string) : option (list json * string) :=
  match fuel with
  | O => None
  | S fuel' =>
      match read_value fuel' s with
      | Some (v, rest) =>
          match skip_ws rest with
          | String c r =>
              if Ascii.eqb c "," then
                match read_items fuel' r with
                | Some (l, rest') => Some (v :: l, rest')
                | None => None
                end
              else if Ascii.eqb c "]" then Some ([v], r)
              else None
          | EmptyString => None
          end
      | None => None
      end
  end
with read_members (fuel : nat) (s : string) : option (list (string * json) * string) :=
  match fuel with
  | O => None
  | S fuel' =>
      match skip_ws s with
      | String q r =>
          if Ascii.eqb q dquote then
            match read_chars r with
            | Some (name, rest) =>
                match skip_ws rest with
                | String colon rest1 =>
                    if Ascii.eqb colon ":" then
                      match read_value fuel' rest1 with
                      | Some (v, rest2) =>
                          match skip_ws rest2 with
                          | String c r2 =>
                              if Ascii.eqb c "," then
                                match read_members fuel' r2 with
                                | Some (l, rest') => Some ((name, v) :: l, rest')
                                | None => None
                                end
                              else if Ascii.eqb c "}" then Some ([(name, v)], r2)
                              else None
                          | EmptyString => None
                          end
                      | None => None
                      end
                    else None
                | EmptyString => None
                end
            | None => None
            end
          else None
      | EmptyString => None
      end
  end.

(** [JSON.parse] to a tree: one value, then nothing but blanks. *)
Definition read (s : string) : option json :=
  match read_value (S (String.length s)) s with
  | Some (v, rest) =>
      match skip_ws rest with
      | EmptyString => Some v
      | String _ _ => None
      end
  | None => None
  end.

(** Fuel that reading a tree back takes. *)
Fixpoint weight_items (f : json -> nat) (l : list json) : nat :=
  match l with
  | [] => O
  | x :: rest => S (f x + weight_items f rest)
  end.

Fixpoint weight_members (f : json -> nat) (l : list (string * json)) : nat :=
  match l with
  | [] => O
  | (_, x) :: rest => S (f x + weight_members f rest)
  end.

Fixpoint weight (v : json) : nat :=
  match v with
  | JArr l => S (weight_items weight l)
  | JObj l => S (weight_members weight l)
  | _ => 1%nat
  end.

(** Text before which a number ends: it does not go on with a digit. *)
Definition closes (k : string) : Prop :=
  match k with
  | String c _ => digit_of c = None
  | EmptyString => True
  end.

(** Text that opens a value: no blank to skip, no closing bracket. *)
Definition opens (s : string) : Prop :=
  match s with
  | String c _ =>
      is_ws c = false /\ Ascii.eqb c "]" = false /\ Ascii.eqb c "}" = false
  | EmptyString => False
  end.

(** A tree is read back from its text, given fuel for its weight. *)
Definition reads_back (v : json) : Prop :=
  forall fuel k, (weight v <= fuel)%nat -> closes k ->
                 read_value fuel (emit v k) = Some (v, k).

(** The text of a tree is at least as long as its weight. *)
Definition fits (v : json) : Prop :=
  forall k, (weight v + String.length k <= String.length (emit v k))%nat.

(** *** Entries as JSON objects *)

Definition category_name (c : Category) : string :=
  match c with
  | Food => "Food"
  | Shopping => "Shopping"
  | Culture => "Culture"
  | Nature => "Nature"
  | Other => "Other"
  end.

Definition category_of_name (s : string) : option Category :=
  if String.eqb s "Food" then Some Food
  else if String.eqb s "Shopping" then Some Shopping
  else if String.eqb s "Culture" then Some Culture
  else if String.eqb s "Nature" then Some Nature
  else if String.eqb s "Other" then Some Other
  else None.

Definition photo_to_json (p : option string) : json :=
  match p with
  | Some u => JStr u
  | None => JNull
  end.

Definition new_members (e : NewEntry Z) : list (string * json) :=
  [("latitude", JNum (new_latitude e));
   ("longitude", JNum (new_longitude e));
   ("timestamp", JStr (new_timestamp e));
   ("dateDisplay", JStr (new_dateDisplay e));
   ("note", JStr (new_note e));
   ("category", JStr (category_name (new_category e)));
   ("photoUrl", photo_to_json (new_photoUrl e))].

Definition new_to_json (e : NewEntry Z) : json := JObj (new_members e).

Definition entry_to_json (e : JournalEntry Z) : json :=
  JObj [("id", JStr (id e));
        ("latitude", JNum (latitude e));
        ("longitude", JNum (longitude e));
        ("timestamp", JStr (timestamp e));
        ("dateDisplay", JStr (dateDisplay e));
        ("note", JStr (note e));
        ("category", JStr (category_name (category e)));
        ("photoUrl", photo_to_json (photoUrl e))].

(** [obj[k]]: the last member named [k] wins, as in [JSON.parse]. *)
Fixpoint member (k : string) (l : list (string * json)) : option json :=
  match l with
  | [] => None
  | (k', v) :: rest =>
      match member k rest with
      | Some v' => Some v'
      | None => if String.eqb k k' then Some v else None
      end
  end.

Definition as_str (o : option json) : option string :=
  match o with Some (JStr s) => Some s | _ => None end.
Definition as_num (o : option json) : option Z :=
  match o with Some (JNum z) => Some z | _ => None end.
Definition as_photo (o : option json) : option (option string) :=
  match o with
  | Some (JStr s) => Some (Some s)
  | Some JNull => Some None
  | _ => None
  end.
Definition as_category (o : option json) : option Category :=
  match o with Some (JStr s) => category_of_name s | _ => None end.

Definition new_of_json (v : json) : option (NewEntry Z) :=
  match v with
  | JObj l =>
      match as_num (member "latitude" l), as_num (member "longitude" l),
            as_str (member "timestamp" l), as_str (member "dateDisplay" l),
            as_str (member "note" l), as_category (member "category" l),
            as_photo (member "photoUrl" l) with
      | Some la, Some lo, Some ts, Some dd, Some no, Some ca, Some ph =>
          Some (mkNew la lo ts dd no ca ph)
      | _, _, _, _, _, _, _ => None
      end
  | _ => None
  end.

Definition entry_of_json (v : json) : option (JournalEntry Z) :=
  match v with
  | JObj l =>
      match as_str (member "id" l), new_of_json v with
      | Some i, Some e => Some (with_id e i)
      | _, _ => None
      end
  | _ => None
  end.

Fixpoint all_entries (l : list json) : option (list (JournalEntry Z)) :=
  match l with
  | [] => Some []
  | v :: rest =>
      match entry_of_json v, all_entries rest with
      | Some e, Some es => Some (e :: es)
      | _, _ => None
      end
  end.

Definition entries_of_json (v : json) : option (list (JournalEntry Z)) :=
  match v with
  | JArr l => all_entries l
  | _ => None
  end.

Definition through {A} (f : json -> option A) (s : string) : option A :=
  match read s with
  | Some v => f v
  | None => None
  end.

#[export] Instance json_entries : Json (list (JournalEntry Z)) :=
  {| stringify := fun l => print (JArr (map entry_to_json l));
     parse := through entries_of_json |}.

#[export] Instance json_entry : Json (JournalEntry Z) :=
  {| stringify := fun e => print (entry_to_json e);
     parse := through entry_of_json |}.

#[export] Instance json_new : Json (NewEntry Z) :=
  {| stringify := fun e => print (new_to_json e);
     parse := through new_of_json |}.

(** *** A scripted remote *)

(** The remote settles the requests it gets as the script says, one line
    per request, whatever they ask; once the script is over nothing answers
    and every request is rejected at once. *)
Definition Script := list Settle.

#[export] Instance scripted : Remote Script :=
  {| serve := fun _ script =>
       match script with
       | [] => (Rejects 0, [])
       | s :: rest => (s, rest)
       end |}.

Definition offline : Script := [].

(** *** Web Storage *)

Definition unlimited : WebStorage := {| admits := fun _ _ _ => true |}.

Definition footprint (m : gmap string string) : nat :=
  map_fold (fun k v acc => (String.length k + String.length v + acc)%nat) 0%nat m.

(** A store that refuses a write leaving more than [limit] characters of
    keys and values in it. *)
Definition quota (limit : nat) : WebStorage :=
  {| admits := fun m k v => (footprint (<[k := v]> m) <=? limit)%nat |}.

End Ref.

(** ** Sample data for the concrete runs *)

Module Demo.
Import Ref.

Definition park : JournalEntry Z :=
  mkEntry "1" 51 0 "2024-05-01T10:00:00.000Z" "May 1, 2024, 10:00 AM"
          "Park walk" Nature None.

Definition cafe : JournalEntry Z :=
  mkEntry "2" 48 2 "2024-05-02T08:30:00.000Z" "May 2, 2024, 8:30 AM"
          "Coffee by the river" Food (Some "https://picsum.photos/200").

(** A second entry under the id of [park]. *)
Definition twin : JournalEntry Z :=
  mkEntry "1" 40 (-74) "2024-05-03T12:00:00.000Z" "May 3, 2024, 12:00 PM"
          "Imported twice" Other None.

Definition spot : NewEntry Z :=
  mkNew 35 139 "2024-05-04T09:00:00.000Z" "May 4, 2024, 9:00 AM"
        "New spot" Culture None.

(** What a remote answering with id 42 sends back for [spot]. *)
Definition spot42 : JournalEntry Z := with_id spot "42".

(** An entry the form sends without a date, and what the remote makes of
    it: an id from its clock and a timestamp of its own. *)
Definition undated : NewEntry Z :=
  mkNew 35 139 EmptyString "Invalid Date" "New spot" Culture None.

Definition undated_saved : JournalEntry Z :=
  mkEntry "1700000000040" 35 139 "2023-11-14T22:13:20.040Z" "Invalid Date"
          "New spot" Culture None.

Definition success (ms : N) (body : string) : Settle :=
  Resolves ms (mkResponse true body).

Definition failure (ms : N) : Settle :=
  Resolves ms (mkResponse false "Internal Server Error").

Definition start : Z := 1700000000000.

Definition world (store : gmap string string) (script : Script) : World Script :=
  mkWorld store script start [].

Definition holding (xs : list (JournalEntry Z)) : gmap string string :=
  {[ STORAGE_KEY := stringify xs ]}.

(** A mirror whose text is not JSON. *)
Definition broken : gmap string string := {[ STORAGE_KEY := "{" ]}.

End Demo.

(** ** A sample page *)

Module Visit.
Import Ref Demo.

(** A calendar that knows the dates of the sample entries, as a browser set
    to UTC and US English shows them; any other text is no date. *)
Definition dates : list (string * (Z * string)) :=
  [ ("2024-05-01", (1714521600000, "May 1, 2024, 12:00 AM"));
    ("2024-05-02", (1714608000000, "May 2, 2024, 12:00 AM"));
    ("2024-05-01T10:00:00.000Z", (1714557600000, "May 1, 2024, 10:00 AM"));
    ("2024-05-02T08:30:00.000Z", (1714638600000, "May 2, 2024, 8:30 AM"));
    ("2024-05-03T12:00:00.000Z", (1714737600000, "May 3, 2024, 12:00 PM"));
    ("2024-05-04T09:00:00.000Z", (1714813200000, "May 4, 2024, 9:00 AM")) ].

Fixpoint known (s : string) (l : list (string * (Z * string))) : option (Z * string) :=
  match l with
  | [] => None
  | (d, v) :: rest => if String.eqb d s then Some v else known s rest
  end.

#[export] Instance calendar : DateFormat :=
  {| toLocaleString := fun s =>
       match known s dates with
       | Some (_, shown_as) => shown_as
       | None => "Invalid Date"
       end;
     getTime := fun s => option_map fst (known s dates) |}.

(** The page showing [xs], nothing selected and no form open. *)
Definition page (xs : list (JournalEntry Z)) : App Z :=
  mkApp xs None false None false false (Some false) [].

(** The page after a click on the map at (35, 139). *)
Definition pinned (xs : list (JournalEntry Z)) : App Z :=
  mkApp xs (Some (mkCoordinates 35 139)) true None false false (Some false) [].

(** The page with the detail panel on the entry of id [i]. *)
Definition viewing (i : string) (xs : list (JournalEntry Z)) : App Z :=
  mkApp xs None false (Some i) false false (Some false) [].

(** What the form hands over for [spot]. *)
Definition form : FormData :=
  mkFormData "New spot" Culture None "2024-05-04T09:00:00.000Z".

(** Files by their names: every file but [torn.png] reads as a data URL. *)
#[export] Instance folder : Files string :=
  {| createObjectURL := fun name => "blob:" +:+ name;
     readAsDataURL := fun name =>
       if String.eqb name "torn.png" then None
       else Some ("data:image/png;base64," +:+ name) |}.

(** The form filled in for [spot], with a photo chosen. *)
Definition draft : EntryForm.Form string :=
  EntryForm.mkForm "New spot" Culture "2024-05-04T09:00:00.000Z"
    (Some "shrine.png") (Some "blob:shrine.png") false false false None false [].

End Visit.

(** ** Properties of the gateway *)

Section GatewayFacts.
Context {number : Type} {R : Type}.
Context `{Rm : !Remote R} `{WS : !WebStorage}.
Context `{JEs : !Json (list (JournalEntry number))}.
Context `{JE : !Json (JournalEntry number)}.
Context `{JN : !Json (NewEntry number)}.

Implicit Types (w : World R) (xs : list (JournalEntry number)).
Implicit Types (entry : NewEntry number) (i : string) (s : Settle).

(** *** The mirror *)

Lemma getLocalEntries_holds w xs :
  mirror_holds (localStorage w) xs -> getLocalEntries w = (Return xs, w).
Proof.
  intros Hm. unfold getLocalEntries, bind, getItem, ret.
  destruct Hm as [Hnone | Hblank | s xs Hs Hne Hp].
  - by rewrite Hnone.
  - by rewrite Hblank.
  - rewrite Hs. destruct (String.eqb_spec s EmptyString) as [-> | _]; [done |].
    by rewrite Hp.
Qed.

Lemma getLocalEntries_unreadable w :
  mirror_unreadable (number := number) (localStorage w) ->
  getLocalEntries w = (Throw SyntaxError, w).
Proof.
  intros (s & Hs & Hne & Hp). unfold getLocalEntries, bind, getItem, throw.
  rewrite Hs. destruct (String.eqb_spec s EmptyString) as [-> | _]; [done |].
  by rewrite Hp.
Qed.

Lemma getLocalEntries_total w :
  (exists xs, mirror_holds (localStorage w) xs) \/
  mirror_unreadable (number := number) (localStorage w).
Proof.
  destruct (localStorage w !! STORAGE_KEY) as [s |] eqn:Hs.
  - destruct (String.eqb_spec s EmptyString) as [-> | Hne].
    + left. exists []. by apply mirror_blank.
    + destruct (parse (A := list (JournalEntry number)) s) as [xs |] eqn:Hp.
      * left. exists xs. by eapply mirror_text.
      * right. by exists s.
  - left. exists []. by apply mirror_absent.
Qed.

Lemma mirror_holds_inj (store : gmap string string) xs ys :
  mirror_holds store xs -> mirror_holds store ys -> xs = ys.
Proof.
  intros Hx Hy.
  destruct Hx as [Hx | Hx | s xs Hx Hne Hp];
    destruct Hy as [Hy | Hy | s' ys Hy Hne' Hp']; congruence.
Qed.

Lemma mirror_holds_stored (store : gmap string string) xs :
  json_safe xs -> mirror_holds (<[STORAGE_KEY := stringify xs]> store) xs.
Proof.
  intros [Hrt Hne]. eapply mirror_text; [apply lookup_insert_eq | done | done].
Qed.

Lemma setItem_admitted w v :
  admits (localStorage w) STORAGE_KEY v = true ->
  setItem STORAGE_KEY v w = (Return tt, stored v w).
Proof. intros Ha. unfold setItem. by rewrite Ha. Qed.

Lemma setItem_refused w v :
  admits (localStorage w) STORAGE_KEY v = false ->
  setItem STORAGE_KEY v w = (Throw QuotaExceededError, w).
Proof. intros Ha. unfold setItem. by rewrite Ha. Qed.

(** *** [fetch] without a signal *)

Lemma fetch_resolves req w t resp r' :
  serve req (remote w) = (Resolves t resp, r') ->
  fetch req None w = (Return resp, sent req t r' w).
Proof. intros Hs. unfold fetch. by rewrite Hs. Qed.

Lemma fetch_rejects req w t r' :
  serve req (remote w) = (Rejects t, r') ->
  fetch req None w = (Throw NetworkError, sent req t r' w).
Proof. intros Hs. unfold fetch. by rewrite Hs. Qed.

Lemma fetch_never req w r' :
  serve req (remote w) = (Never, r') ->
  fetch req None w = (Pending, sent req 0 r' w).
Proof. intros Hs. unfold fetch. by rewrite Hs. Qed.

Lemma fetch_fails (A : Type) `{!Json A} req w s r' :
  serve req (remote w) = (s, r') ->
  request_fails A s ->
  (exists e, fetch req None w = (Throw e, sent req (latency s) r' w)) \/
  (exists resp, fetch req None w = (Return resp, sent req (latency s) r' w) /\
                (ok resp = false \/
                 ok resp = true /\ parse (A := A) (text resp) = None)).
Proof.
  intros Hs Hf. destruct Hf as [t | t r Hok | t r Hok Hp]; simpl.
  - left. exists NetworkError. by apply fetch_rejects.
  - right. exists r. split; [by apply fetch_resolves | by left].
  - right. exists r. split; [by apply fetch_resolves | by right].
Qed.

(** *** [getEntries] *)

(** The run of [getEntries] once the remote has listed [E]. *)
Lemma getEntries_listed w t resp r' (E : list (JournalEntry number)) :
  serve GET_entries (remote w) = (Resolves t resp, r') ->
  ok resp = true ->
  parse (text resp) = Some E ->
  getEntries w =
    if admits (localStorage w) STORAGE_KEY (stringify E)
    then (Return E, stored (stringify E) (sent GET_entries t r' w))
    else getLocalEntries (sent GET_entries t r' w).
Proof.
  intros Hs Hok Hp. unfold getEntries, try_catch, bind.
  change (mkRequest GET API_URL None) with GET_entries.
  rewrite (fetch_resolves _ _ _ _ _ Hs), Hok. simpl.
  unfold response_json. rewrite Hp. unfold ret at 1.
  unfold setItem.
  change (localStorage (sent GET_entries t r' w)) with (localStorage w).
  by destruct (admits (localStorage w) STORAGE_KEY (stringify E)).
Qed.

(** C1, as amended. When the remote answers the list request with a
    success whose body is the collection [E]: if Web Storage takes the
    write, [getEntries] returns [E] and leaves the text of [E] under the
    mirror's key whatever was there before, so that the mirror stands for
    exactly [E] wherever [E] is read back from its text; if Web Storage
    refuses the write, [getEntries] is in its failure branch, returns what
    the mirror held (or throws where its text cannot be read) and leaves
    the store as it was. *)
Theorem getEntries_remote_success w t resp r' (E : list (JournalEntry number)) :
  serve GET_entries (remote w) = (Resolves t resp, r') ->
  ok resp = true ->
  parse (text resp) = Some E ->
  let w1 := sent GET_entries t r' w in
  (admits (localStorage w) STORAGE_KEY (stringify E) = true ->
   let w' := stored (stringify E) w1 in
   getEntries w = (Return E, w') /\
   localStorage w' = <[STORAGE_KEY := stringify E]> (localStorage w) /\
   (json_safe E ->
    mirror_holds (localStorage w') E /\
    (forall ys, mirror_holds (localStorage w') ys -> ys = E))) /\
  (admits (localStorage w) STORAGE_KEY (stringify E) = false ->
   localStorage w1 = localStorage w /\
   (forall xs, mirror_holds (localStorage w) xs -> getEntries w = (Return xs, w1)) /\
   (mirror_unreadable (number := number) (localStorage w) ->
    getEntries w = (Throw SyntaxError, w1))).
Proof.
  intros Hs Hok Hp w1.
  pose proof (getEntries_listed w t resp r' E Hs Hok Hp) as Hrun. split.
  - intros Ha w'. rewrite Ha in Hrun. split; [done | split; [done |]].
    intros Hsafe.
    assert (Hm : mirror_holds (localStorage w') E)
      by (apply mirror_holds_stored, Hsafe).
    split; [done |]. intros ys Hys. by eapply mirror_holds_inj.
  - intros Ha. rewrite Ha in Hrun. split; [done | split].
    + intros xs Hm. rewrite Hrun. by apply getLocalEntries_holds.
    + intros Hbad. rewrite Hrun. by apply getLocalEntries_unreadable.
Qed.

Lemma getEntries_falls_back w s r' :
  serve GET_entries (remote w) = (s, r') ->
  request_fails (list (JournalEntry number)) s ->
  getEntries w = getLocalEntries (sent GET_entries (latency s) r' w).
Proof.
  intros Hs Hf. unfold getEntries, try_catch, bind.
  change (mkRequest GET API_URL None) with GET_entries.
  destruct (fetch_fails _ _ _ _ _ Hs Hf) as [[e ->] | (resp & -> & Hr)]; [done |].
  destruct Hr as [-> | [-> Hp]]; simpl; [done |].
  unfold response_json. by rewrite Hp.
Qed.

(** C4, as amended. When the list request fails (transport error or
    timeout, non-success status, unusable body) and the mirror is readable,
    [getEntries] returns the collection the mirror stands for, without
    throwing and without touching the mirror; a mirror that is absent or
    empty gives the empty collection. *)
Theorem getEntries_fallback w s r' xs :
  serve GET_entries (remote w) = (s, r') ->
  request_fails (list (JournalEntry number)) s ->
  mirror_holds (localStorage w) xs ->
  let w' := sent GET_entries (latency s) r' w in
  getEntries w = (Return xs, w') /\
  localStorage w' = localStorage w /\
  (localStorage w !! STORAGE_KEY = None \/
   localStorage w !! STORAGE_KEY = Some EmptyString -> xs = []).
Proof.
  intros Hs Hf Hm w'. split; [| split; [done |]].
  - rewrite (getEntries_falls_back _ _ _ Hs Hf). by apply getLocalEntries_holds.
  - intros Hk. destruct Hm as [_ | _ | t ys Ht Hne _]; [done | done |].
    destruct Hk as [Hk | Hk]; congruence.
Qed.

(** With a mirror that cannot be read the fallback of [getEntries] throws. *)
Lemma getEntries_unreadable w s r' :
  serve GET_entries (remote w) = (s, r') ->
  request_fails (list (JournalEntry number)) s ->
  mirror_unreadable (number := number) (localStorage w) ->
  getEntries w = (Throw SyntaxError, sent GET_entries (latency s) r' w).
Proof.
  intros Hs Hf Hm. rewrite (getEntries_falls_back _ _ _ Hs Hf).
  by apply getLocalEntries_unreadable.
Qed.

(** When Web Storage refuses the fetched collection, [getEntries] is in its
    failure branch too, and returns what the mirror held. *)
Lemma getEntries_write_refused w t resp r' (E : list (JournalEntry number)) xs :
  serve GET_entries (remote w) = (Resolves t resp, r') ->
  ok resp = true ->
  parse (text resp) = Some E ->
  admits (localStorage w) STORAGE_KEY (stringify E) = false ->
  mirror_holds (localStorage w) xs ->
  getEntries w = (Return xs, sent GET_entries t r' w).
Proof.
  intros Hs Hok Hp Ha Hm. unfold getEntries, try_catch, bind.
  change (mkRequest GET API_URL None) with GET_entries.
  rewrite (fetch_resolves _ _ _ _ _ Hs), Hok. simpl.
  unfold response_json. rewrite Hp. unfold ret at 1.
  rewrite setItem_refused by done. by apply getLocalEntries_holds.
Qed.

(** No timer guards the list request: while the remote does not answer,
    [getEntries] stays pending. *)
Lemma getEntries_pending w r' :
  serve GET_entries (remote w) = (Never, r') ->
  getEntries w = (Pending, sent GET_entries 0 r' w).
Proof.
  intros Hs. unfold getEntries, try_catch, bind.
  change (mkRequest GET API_URL None) with GET_entries.
  by rewrite (fetch_never _ _ _ Hs).
Qed.

(** *** [checkConnection] *)

(** C3. [checkConnection] always returns a boolean: it neither throws nor
    stays pending, also when the remote never answers. The boolean is
    [true] exactly when the health request resolves with a success status
    before the 1200 ms timer fires. When the timer fires first the request
    is aborted and the answer comes 1200 ms after the call. The mirror is
    not touched. *)
Theorem checkConnection_spec w :
  exists b w',
    checkConnection w = (Return b, w') /\
    (b = true <->
     exists t resp r',
       serve GET_ping (remote w) = (Resolves t resp, r') /\
       (t < PROBE_TIMEOUT_MS)%N /\ ok resp = true) /\
    PROBE_TIMEOUT_MS = 1200%N /\
    localStorage w' = localStorage w /\
    clock w <= clock w' <= clock w + 1200 /\
    (settles_before PROBE_TIMEOUT_MS (serve GET_ping (remote w)).1 = false ->
     b = false /\
     clock w' = clock w + 1200 /\
     trace w' = trace w ++ [Sent GET_ping; Aborted GET_ping]).
Proof.
  unfold checkConnection, try_catch, bind, fetch.
  change (mkRequest GET (BASE_URL +:+ "/ping") None) with GET_ping.
  destruct (serve GET_ping (remote w)) as [s r'] eqn:Hs. simpl.
  destruct s as [| t | t resp]; simpl.
  - eexists false, _. split; [reflexivity |]. simpl.
    repeat split; try done; try lia.
    intros (t & resp & r'' & Heq & _); discriminate.
  - destruct (N.ltb_spec t PROBE_TIMEOUT_MS) as [Hlt | Hge]; simpl.
    + eexists false, _. split; [reflexivity |]. simpl.
      unfold PROBE_TIMEOUT_MS in *.
      repeat split; try done; try lia.
      intros (t' & resp & r'' & Heq & _); discriminate.
    + eexists false, _. split; [reflexivity |]. simpl.
      repeat split; try done; try lia.
      intros (t' & resp & r'' & Heq & _); discriminate.
  - destruct (N.ltb_spec t PROBE_TIMEOUT_MS) as [Hlt | Hge]; simpl.
    + eexists (ok resp), _. split; [reflexivity |]. simpl.
      unfold PROBE_TIMEOUT_MS in *.
      repeat split; try done; try lia.
      * intros Hok. by exists t, resp, r'.
      * intros (t' & resp' & r'' & Heq & _ & Hok). congruence.
    + eexists false, _. split; [reflexivity |]. simpl.
      repeat split; try done; try lia.
      intros (t' & resp' & r'' & Heq & Hlt & _).
      injection Heq as -> -> ->. lia.
Qed.

(** *** Local ids *)

Lemma local_id_prefix now : String.prefix LOCAL_PREFIX (local_id now) = true.
Proof. unfold local_id, LOCAL_PREFIX. simpl. by destruct (pretty now). Qed.

Lemma local_id_inj now now' : local_id now = local_id now' -> now = now'.
Proof.
  unfold local_id, LOCAL_PREFIX. simpl. intros Heq.
  injection Heq as Heq. by apply (inj pretty).
Qed.

(** *** [createEntry] *)

Lemma createLocalEntry_holds w entry xs :
  mirror_holds (localStorage w) xs ->
  admits (localStorage w) STORAGE_KEY
         (stringify (xs ++ [minted entry (clock w)])) = true ->
  createLocalEntry entry w =
    (Return (minted entry (clock w)),
     stored (stringify (xs ++ [minted entry (clock w)])) w).
Proof.
  intros Hm Ha. unfold createLocalEntry, bind, Date_now.
  rewrite (getLocalEntries_holds _ _ Hm).
  fold (minted entry (clock w)). by rewrite setItem_admitted.
Qed.

Lemma createLocalEntry_refused w entry xs :
  mirror_holds (localStorage w) xs ->
  admits (localStorage w) STORAGE_KEY
         (stringify (xs ++ [minted entry (clock w)])) = false ->
  createLocalEntry entry w = (Throw QuotaExceededError, w).
Proof.
  intros Hm Ha. unfold createLocalEntry, bind, Date_now.
  rewrite (getLocalEntries_holds _ _ Hm).
  fold (minted entry (clock w)). by rewrite setItem_refused.
Qed.

Lemma createLocalEntry_unreadable w entry :
  mirror_unreadable (number := number) (localStorage w) ->
  createLocalEntry entry w = (Throw SyntaxError, w).
Proof.
  intros Hm. unfold createLocalEntry, bind, Date_now.
  by rewrite (getLocalEntries_unreadable _ Hm).
Qed.

Lemma createEntry_falls_back w entry s r' :
  serve (POST_entry entry) (remote w) = (s, r') ->
  request_fails (JournalEntry number) s ->
  createEntry entry w =
    createLocalEntry entry (sent (POST_entry entry) (latency s) r' w).
Proof.
  intros Hs Hf. unfold createEntry, try_catch, bind.
  change (mkRequest POST API_URL (Some (stringify entry))) with (POST_entry entry).
  destruct (fetch_fails _ _ _ _ _ Hs Hf) as [[e ->] | (resp & -> & Hr)]; [done |].
  destruct Hr as [-> | [-> Hp]]; simpl; [done |].
  unfold response_json. by rewrite Hp.
Qed.

(** C2, as amended. When the create request fails (the remote is
    unreachable, or answers with a failure), the entry is minted under the
    id [local-<clock>], the clock being read when the request has failed;
    the id starts with the local-origin marker, and another minted entry
    has the same id exactly when it is minted at the same clock reading.
    If the mirror is readable and Web Storage takes the write,
    [createEntry] returns the minted entry and leaves the mirror holding
    its former entries followed by this one. If the mirror cannot be read,
    or Web Storage refuses the write, [createEntry] throws and the store
    is as it was. *)
Theorem createEntry_unreachable w entry s r' :
  serve (POST_entry entry) (remote w) = (s, r') ->
  request_fails (JournalEntry number) s ->
  let now := clock w + Z.of_N (latency s) in
  let w1 := sent (POST_entry entry) (latency s) r' w in
  let e := minted entry now in
  e = with_id entry (LOCAL_PREFIX +:+ pretty now) /\
  String.prefix LOCAL_PREFIX (id e) = true /\
  (forall (entry' : NewEntry number) now',
     id (minted entry' now') = id e <-> now' = now) /\
  localStorage w1 = localStorage w /\
  (forall xs, mirror_holds (localStorage w) xs ->
     (admits (localStorage w) STORAGE_KEY (stringify (xs ++ [e])) = true ->
      let w' := stored (stringify (xs ++ [e])) w1 in
      createEntry entry w = (Return e, w') /\
      localStorage w' = <[STORAGE_KEY := stringify (xs ++ [e])]> (localStorage w) /\
      (json_safe (xs ++ [e]) -> mirror_holds (localStorage w') (xs ++ [e]))) /\
     (admits (localStorage w) STORAGE_KEY (stringify (xs ++ [e])) = false ->
      createEntry entry w = (Throw QuotaExceededError, w1))) /\
  (mirror_unreadable (number := number) (localStorage w) ->
   createEntry entry w = (Throw SyntaxError, w1)).
Proof.
  intros Hs Hf now w1 e.
  pose proof (createEntry_falls_back _ _ _ _ Hs Hf) as Hrun. fold w1 in Hrun.
  split; [done | split; [apply local_id_prefix | split; [| split; [done | split]]]].
  - intros entry' now'. split; [apply local_id_inj | by intros ->].
  - intros xs Hm. split.
    + intros Ha w'. split; [| split; [done | by apply mirror_holds_stored]].
      rewrite Hrun. by apply createLocalEntry_holds.
    + intros Ha. rewrite Hrun. by apply (createLocalEntry_refused _ _ xs).
  - intros Hbad. rewrite Hrun. by apply createLocalEntry_unreadable.
Qed.

(** The run of [createEntry] once the remote has answered with [saved]. *)
Lemma createEntry_accepted w entry t resp r' saved :
  serve (POST_entry entry) (remote w) = (Resolves t resp, r') ->
  ok resp = true ->
  parse (text resp) = Some saved ->
  let w1 := sent (POST_entry entry) t r' w in
  (forall xs, mirror_holds (localStorage w) xs ->
     createEntry entry w =
       if admits (localStorage w) STORAGE_KEY (stringify (xs ++ [saved]))
       then (Return saved, stored (stringify (xs ++ [saved])) w1)
       else createLocalEntry entry w1) /\
  (mirror_unreadable (number := number) (localStorage w) ->
   createEntry entry w = createLocalEntry entry w1).
Proof.
  intros Hs Hok Hp w1. split.
  - intros xs Hm. unfold createEntry, try_catch, bind.
    change (mkRequest POST API_URL (Some (stringify entry))) with (POST_entry entry).
    rewrite (fetch_resolves _ _ _ _ _ Hs), Hok. simpl.
    unfold response_json. rewrite Hp. unfold ret at 1.
    rewrite (getLocalEntries_holds _ xs) by done.
    unfold setItem.
    change (localStorage (sent (POST_entry entry) t r' w)) with (localStorage w).
    by destruct (admits (localStorage w) STORAGE_KEY (stringify (xs ++ [saved]))).
  - intros Hbad. unfold createEntry, try_catch, bind.
    change (mkRequest POST API_URL (Some (stringify entry))) with (POST_entry entry).
    rewrite (fetch_resolves _ _ _ _ _ Hs), Hok. simpl.
    unfold response_json. rewrite Hp. unfold ret at 1.
    by rewrite getLocalEntries_unreadable.
Qed.

(** C6, as amended. When the remote accepts the create request and
    answers with the entry [saved]: if the mirror is readable and Web
    Storage takes the write, [createEntry] returns [saved] as the remote
    issued it and overwrites the mirror with its former entries followed by
    [saved], so that a list request failing right after still yields that
    collection; if Web Storage refuses the write, [createEntry] answers
    what its local fallback answers, not [saved]; if the mirror cannot be
    read, [createEntry] throws. *)
Theorem createEntry_remote_success w entry t resp r' saved :
  serve (POST_entry entry) (remote w) = (Resolves t resp, r') ->
  ok resp = true ->
  parse (text resp) = Some saved ->
  let w1 := sent (POST_entry entry) t r' w in
  (forall xs, mirror_holds (localStorage w) xs ->
     (admits (localStorage w) STORAGE_KEY (stringify (xs ++ [saved])) = true ->
      let w' := stored (stringify (xs ++ [saved])) w1 in
      createEntry entry w = (Return saved, w') /\
      localStorage w' = <[STORAGE_KEY := stringify (xs ++ [saved])]> (localStorage w) /\
      (json_safe (xs ++ [saved]) ->
       mirror_holds (localStorage w') (xs ++ [saved]) /\
       (forall s r'', serve GET_entries (remote w') = (s, r'') ->
                      request_fails (list (JournalEntry number)) s ->
                      (getEntries w').1 = Return (xs ++ [saved])))) /\
     (admits (localStorage w) STORAGE_KEY (stringify (xs ++ [saved])) = false ->
      createEntry entry w = createLocalEntry entry w1)) /\
  (mirror_unreadable (number := number) (localStorage w) ->
   createEntry entry w = (Throw SyntaxError, w1)).
Proof.
  intros Hs Hok Hp w1.
  destruct (createEntry_accepted w entry t resp r' saved Hs Hok Hp) as [Hrun Hbad].
  split.
  - intros xs Hm. specialize (Hrun xs Hm). split.
    + intros Ha w'. rewrite Ha in Hrun. split; [done | split; [done |]].
      intros Hsafe.
      assert (Hm' : mirror_holds (localStorage w') (xs ++ [saved]))
        by by apply mirror_holds_stored.
      split; [done |]. intros s r'' Hs' Hf.
      rewrite (getEntries_falls_back _ _ _ Hs' Hf).
      by rewrite (getLocalEntries_holds _ (xs ++ [saved])).
    + intros Ha. by rewrite Ha in Hrun.
  - intros Hm. rewrite (Hbad Hm). by apply createLocalEntry_unreadable.
Qed.

(** C9, as amended. When the remote has accepted the create request but
    the mirror cannot be read, or refuses the write of the remote-issued
    entry, [createEntry] runs its failure branch on the world the request
    left. That branch reads the mirror again: if it cannot be read
    [createEntry] throws; if it can, the branch mints an entry with a
    local-origin id and, when Web Storage takes that write, persists and
    returns it instead of the remote-issued one; when that write is
    refused as well, [createEntry] throws and the mirror stays as it was. *)
Theorem createEntry_mirror_fault w entry t resp r' saved :
  serve (POST_entry entry) (remote w) = (Resolves t resp, r') ->
  ok resp = true ->
  parse (text resp) = Some saved ->
  mirror_unreadable (number := number) (localStorage w) \/
  (exists xs, mirror_holds (localStorage w) xs /\
              admits (localStorage w) STORAGE_KEY (stringify (xs ++ [saved])) = false) ->
  let w1 := sent (POST_entry entry) t r' w in
  let e := minted entry (clock w1) in
  createEntry entry w = createLocalEntry entry w1 /\
  (mirror_unreadable (number := number) (localStorage w) ->
   createEntry entry w = (Throw SyntaxError, w1)) /\
  (forall xs, mirror_holds (localStorage w) xs ->
     (admits (localStorage w) STORAGE_KEY (stringify (xs ++ [e])) = true ->
      createEntry entry w = (Return e, stored (stringify (xs ++ [e])) w1) /\
      String.prefix LOCAL_PREFIX (id e) = true /\
      (String.prefix LOCAL_PREFIX (id saved) = false -> id e <> id saved)) /\
     (admits (localStorage w) STORAGE_KEY (stringify (xs ++ [e])) = false ->
      createEntry entry w = (Throw QuotaExceededError, w1))).
Proof.
  intros Hs Hok Hp Hfault w1 e.
  assert (Hfb : createEntry entry w = createLocalEntry entry w1).
  { unfold createEntry, try_catch, bind.
    change (mkRequest POST API_URL (Some (stringify entry))) with (POST_entry entry).
    rewrite (fetch_resolves _ _ _ _ _ Hs), Hok. simpl.
    unfold response_json. rewrite Hp. unfold ret at 1.
    destruct Hfault as [Hbad | (xs & Hm & Ha)].
    - by rewrite getLocalEntries_unreadable.
    - rewrite (getLocalEntries_holds _ xs) by done.
      by rewrite setItem_refused. }
  split; [done | split].
  - intros Hbad. rewrite Hfb. by apply createLocalEntry_unreadable.
  - intros xs Hm. split.
    + intros Ha. split; [| split].
      * rewrite Hfb. by apply createLocalEntry_holds.
      * apply local_id_prefix.
      * intros Hno Heq. rewrite <- Heq in Hno.
        change (id e) with (local_id (clock w1)) in Hno.
        pose proof (local_id_prefix (clock w1)). congruence.
    + intros Ha. rewrite Hfb. by apply (createLocalEntry_refused _ _ xs).
Qed.

(** *** [deleteEntry] *)

Lemma filter_others_absent i xs :
  i ∉ id <$> xs -> filter (others i) xs = xs.
Proof.
  induction xs as [| e xs IH]; [done |].
  rewrite fmap_cons, not_elem_of_cons. intros [Hne Hnot].
  rewrite filter_cons_True by congruence.
  by rewrite IH.
Qed.

Lemma filter_others_count i xs :
  (length (filter (others i) xs) +
   length (filter (fun e : JournalEntry number => id e = i) xs))%nat = length xs.
Proof.
  induction xs as [| e xs IH]; [done |].
  rewrite !filter_cons.
  destruct (decide (id e <> i)) as [Hne | Heq];
    destruct (decide (id e = i)) as [Hi | Hni]; simpl; try lia; try done.
Qed.

Lemma deleteLocalEntry_holds w i xs :
  mirror_holds (localStorage w) xs ->
  admits (localStorage w) STORAGE_KEY (stringify (filter (others i) xs)) = true ->
  deleteLocalEntry i w = (Return tt, stored (stringify (filter (others i) xs)) w).
Proof.
  intros Hm Ha. unfold deleteLocalEntry, bind.
  rewrite (getLocalEntries_holds _ _ Hm).
  by rewrite setItem_admitted.
Qed.

Lemma deleteLocalEntry_unreadable w i :
  mirror_unreadable (number := number) (localStorage w) ->
  deleteLocalEntry i w = (Throw SyntaxError, w).
Proof.
  intros Hm. unfold deleteLocalEntry, bind.
  by rewrite (getLocalEntries_unreadable _ Hm).
Qed.

(** Both branches of [deleteEntry] write the same mirror. *)
Lemma deleteEntry_run w i s r' xs :
  serve (DELETE_entry i) (remote w) = (s, r') ->
  s <> Never ->
  mirror_holds (localStorage w) xs ->
  admits (localStorage w) STORAGE_KEY (stringify (filter (others i) xs)) = true ->
  deleteEntry i w =
    (Return tt,
     stored (stringify (filter (others i) xs))
            (sent (DELETE_entry i) (latency s) r' w)).
Proof.
  intros Hs Hsettles Hm Ha. unfold deleteEntry, try_catch, bind.
  change (mkRequest DELETE (API_URL +:+ "/" +:+ i) None) with (DELETE_entry i).
  destruct s as [| t | t resp]; [done | |].
  - rewrite (fetch_rejects _ _ _ _ Hs). by apply deleteLocalEntry_holds.
  - rewrite (fetch_resolves _ _ _ _ _ Hs). destruct (ok resp); simpl.
    + rewrite (getLocalEntries_holds _ xs) by done.
      by rewrite setItem_admitted.
    + by apply deleteLocalEntry_holds.
Qed.

Lemma deleteEntry_unreadable w i s r' :
  serve (DELETE_entry i) (remote w) = (s, r') ->
  s <> Never ->
  mirror_unreadable (number := number) (localStorage w) ->
  deleteEntry i w = (Throw SyntaxError, sent (DELETE_entry i) (latency s) r' w).
Proof.
  intros Hs Hsettles Hm. unfold deleteEntry, try_catch, bind.
  change (mkRequest DELETE (API_URL +:+ "/" +:+ i) None) with (DELETE_entry i).
  destruct s as [| t | t resp]; [done | |].
  - rewrite (fetch_rejects _ _ _ _ Hs). by apply deleteLocalEntry_unreadable.
  - rewrite (fetch_resolves _ _ _ _ _ Hs). destruct (ok resp); simpl.
    + rewrite getLocalEntries_unreadable by done.
      by apply deleteLocalEntry_unreadable.
    + by apply deleteLocalEntry_unreadable.
Qed.

Lemma deleteLocalEntry_refused w i xs :
  mirror_holds (localStorage w) xs ->
  admits (localStorage w) STORAGE_KEY (stringify (filter (others i) xs)) = false ->
  deleteLocalEntry i w = (Throw QuotaExceededError, w).
Proof.
  intros Hm Ha. unfold deleteLocalEntry, bind.
  rewrite (getLocalEntries_holds _ _ Hm).
  by rewrite setItem_refused.
Qed.

(** When Web Storage refuses the shorter collection, both branches of
    [deleteEntry] throw. *)
Lemma deleteEntry_refused w i s r' xs :
  serve (DELETE_entry i) (remote w) = (s, r') ->
  s <> Never ->
  mirror_holds (localStorage w) xs ->
  admits (localStorage w) STORAGE_KEY (stringify (filter (others i) xs)) = false ->
  deleteEntry i w =
    (Throw QuotaExceededError, sent (DELETE_entry i) (latency s) r' w).
Proof.
  intros Hs Hsettles Hm Ha. unfold deleteEntry, try_catch, bind.
  change (mkRequest DELETE (API_URL +:+ "/" +:+ i) None) with (DELETE_entry i).
  destruct s as [| t | t resp]; [done | |].
  - rewrite (fetch_rejects _ _ _ _ Hs). by apply (deleteLocalEntry_refused _ _ xs).
  - rewrite (fetch_resolves _ _ _ _ _ Hs). destruct (ok resp); simpl.
    + rewrite (getLocalEntries_holds _ xs) by done.
      rewrite setItem_refused by done.
      by apply (deleteLocalEntry_refused _ _ xs).
    + by apply (deleteLocalEntry_refused _ _ xs).
Qed.

(** C5, as amended. Whatever way the delete request settles (success,
    failure status, transport error): when the mirror is readable and Web
    Storage takes the write, [deleteEntry i] returns without throwing and
    leaves the mirror holding its former entries without those whose id is
    [i]: every other entry stays, in the order it had; when [i] names one
    entry that entry alone goes; when [i] names none, the collection is
    what it was. When the mirror cannot be read, or Web Storage refuses the
    write, [deleteEntry i] throws and the store is as it was. *)
Theorem deleteEntry_frame w i s r' :
  serve (DELETE_entry i) (remote w) = (s, r') ->
  s <> Never ->
  let w1 := sent (DELETE_entry i) (latency s) r' w in
  localStorage w1 = localStorage w /\
  (forall xs, mirror_holds (localStorage w) xs ->
     let kept := filter (others i) xs in
     (forall e, e ∈ kept <-> e ∈ xs /\ id e <> i) /\
     sublist kept xs /\
     (forall l1 e l2, xs = l1 ++ e :: l2 -> id e = i ->
                      i ∉ id <$> l1 -> i ∉ id <$> l2 -> kept = l1 ++ l2) /\
     (i ∉ id <$> xs -> kept = xs) /\
     (admits (localStorage w) STORAGE_KEY (stringify kept) = true ->
      deleteEntry i w = (Return tt, stored (stringify kept) w1) /\
      (json_safe kept ->
       mirror_holds (localStorage (stored (stringify kept) w1)) kept)) /\
     (admits (localStorage w) STORAGE_KEY (stringify kept) = false ->
      deleteEntry i w = (Throw QuotaExceededError, w1))) /\
  (mirror_unreadable (number := number) (localStorage w) ->
   deleteEntry i w = (Throw SyntaxError, w1)).
Proof.
  intros Hs Hsettles w1. split; [done | split].
  - intros xs Hm kept.
    split; [| split; [apply sublist_filter | split; [| split; [| split]]]].
    + intros e. unfold kept. rewrite list_elem_of_filter. tauto.
    + intros l1 e l2 -> Hid H1 H2. unfold kept.
      rewrite filter_app, filter_cons_False by tauto.
      by rewrite !filter_others_absent.
    + apply filter_others_absent.
    + intros Ha. split; [by apply deleteEntry_run | by apply mirror_holds_stored].
    + intros Ha. by apply (deleteEntry_refused _ _ _ _ xs).
  - intros Hbad. by apply deleteEntry_unreadable.
Qed.

(** C10. [deleteEntry i] removes every entry of the mirror whose id is
    [i], however many there are, on the path taken when the remote confirms
    the deletion and on the fallback path alike: no entry with that id is
    left, and the mirror shrinks by the number of entries that had it. *)
Theorem deleteEntry_removes_all w i s r' xs :
  serve (DELETE_entry i) (remote w) = (s, r') ->
  s <> Never ->
  mirror_holds (localStorage w) xs ->
  admits (localStorage w) STORAGE_KEY (stringify (filter (others i) xs)) = true ->
  json_safe (filter (others i) xs) ->
  exists w' ys,
    deleteEntry i w = (Return tt, w') /\
    mirror_holds (localStorage w') ys /\
    ys = filter (fun e => id e <> i) xs /\
    Forall (fun e => id e <> i) ys /\
    (length ys + length (filter (fun e : JournalEntry number => id e = i) xs))%nat
      = length xs.
Proof.
  intros Hs Hsettles Hm Ha Hsafe.
  eexists _, (filter (others i) xs).
  split; [by apply deleteEntry_run |].
  split; [by apply mirror_holds_stored |].
  split; [done | split; [| apply filter_others_count]].
  apply Forall_forall. intros e. rewrite list_elem_of_filter. by intros [? _].
Qed.

(** *** [importEntries] *)

(** C8, as amended. [importEntries xs] sends nothing to the remote and
    leaves its state, the clock, the log of requests and every key but the
    mirror's as they were. When Web Storage takes the write, the text of
    [xs] replaces whatever was under the mirror's key, and the mirror
    stands for exactly [xs] wherever [xs] is read back from its text; when
    Web Storage refuses the write, [importEntries xs] throws and the mirror
    is as it was. *)
Theorem importEntries_overwrites w xs :
  let w' := (importEntries xs w).2 in
  remote w' = remote w /\ trace w' = trace w /\ clock w' = clock w /\
  (forall k, k <> STORAGE_KEY -> localStorage w' !! k = localStorage w !! k) /\
  (admits (localStorage w) STORAGE_KEY (stringify xs) = true ->
   importEntries xs w = (Return tt, stored (stringify xs) w) /\
   localStorage w' = <[STORAGE_KEY := stringify xs]> (localStorage w) /\
   (json_safe xs ->
    mirror_holds (localStorage w') xs /\
    (forall ys, mirror_holds (localStorage w') ys -> ys = xs))) /\
  (admits (localStorage w) STORAGE_KEY (stringify xs) = false ->
   importEntries xs w = (Throw QuotaExceededError, w) /\
   localStorage w' = localStorage w).
Proof.
  unfold importEntries, setItem.
  destruct (admits (localStorage w) STORAGE_KEY (stringify xs)); simpl.
  - repeat split; try done.
    + intros k Hk. by rewrite lookup_insert_ne.
    + by apply mirror_holds_stored.
    + intros ys Hys. eapply mirror_holds_inj; [done |].
      by apply mirror_holds_stored.
  - repeat split; done.
Qed.

Lemma importEntries_remote_untouched w xs :
  remote (importEntries xs w).2 = remote w /\
  trace (importEntries xs w).2 = trace w.
Proof. unfold importEntries, setItem. by destruct (admits _ _ _). Qed.

(** C7, as amended. With the list request failing: when Web Storage
    takes the write, [importEntries xs] followed by [getEntries] returns
    what [JSON.parse] reads from the text of [xs], which is [xs] itself,
    the same entries in the same order, wherever [xs] is read back from its
    text; when Web Storage refuses the write, [importEntries xs] throws,
    and [getEntries] returns what the mirror held before. *)
Theorem import_then_list w xs s r' :
  serve GET_entries (remote w) = (s, r') ->
  request_fails (list (JournalEntry number)) s ->
  (admits (localStorage w) STORAGE_KEY (stringify xs) = true ->
   let w' := sent GET_entries (latency s) r' (stored (stringify xs) w) in
   (stringify xs <> EmptyString ->
    bind (importEntries xs) (fun _ => getEntries) w =
      match parse (stringify xs) with
      | Some ys => (Return ys, w')
      | None => (Throw SyntaxError, w')
      end) /\
   (json_safe xs ->
    bind (importEntries xs) (fun _ => getEntries) w = (Return xs, w'))) /\
  (admits (localStorage w) STORAGE_KEY (stringify xs) = false ->
   bind (importEntries xs) (fun _ => getEntries) w = (Throw QuotaExceededError, w) /\
   (forall ys, mirror_holds (localStorage w) ys ->
      getEntries w = (Return ys, sent GET_entries (latency s) r' w))).
Proof.
  intros Hs Hf. split.
  - intros Ha w'.
    assert (Hrun : bind (importEntries xs) (fun _ => getEntries) w =
                   getLocalEntries w').
    { unfold bind at 1, importEntries. rewrite setItem_admitted by done.
      by rewrite (getEntries_falls_back _ s r'). }
    split.
    + intros Hne. rewrite Hrun.
      destruct (parse (stringify xs)) as [ys |] eqn:Hp.
      * apply getLocalEntries_holds.
        eapply mirror_text; [apply lookup_insert_eq | done | done].
      * apply getLocalEntries_unreadable.
        exists (stringify xs). split; [apply lookup_insert_eq | done].
    + intros Hsafe. rewrite Hrun.
      by apply getLocalEntries_holds, mirror_holds_stored.
  - intros Ha. split.
    + unfold bind, importEntries. by rewrite setItem_refused.
    + intros ys Hm. rewrite (getEntries_falls_back _ _ _ Hs Hf).
      by apply getLocalEntries_holds.
Qed.

End GatewayFacts.

(** ** The reference codec reads back what it prints *)

Module RefFacts.
Import Ref.

Lemma json_induction (P : json -> Prop) :
  P JNull -> (forall b, P (JBool b)) -> (forall z, P (JNum z)) ->
  (forall s, P (JStr s)) ->
  (forall l, Forall P l -> P (JArr l)) ->
  (forall l, Forall (fun m => P m.2) l -> P (JObj l)) ->
  forall v, P v.
Proof.
  intros Hnull Hbool Hnum Hstr Harr Hobj.
  fix IH 1. intros [| b | z | s | l | l].
  - exact Hnull.
  - apply Hbool.
  - apply Hnum.
  - apply Hstr.
  - apply Harr. revert l. fix IHl 1. intros [| x l].
    + constructor.
    + constructor; [apply IH | apply IHl].
  - apply Hobj. revert l. fix IHl 1. intros [| [name x] l].
    + constructor.
    + constructor; [apply IH | apply IHl].
Qed.

Lemma read_chars_escape_char c t :
  read_chars (escape_char c +:+ t) =
  match read_chars t with
  | Some (cs, rest) => Some (String c cs, rest)
  | None => None
  end.
Proof.
  destruct c as [[|] [|] [|] [|] [|] [|] [|] [|]]; reflexivity.
Qed.

Lemma read_chars_escape s k :
  read_chars (escape s (String dquote k)) = Some (s, k).
Proof.
  induction s as [| c s IH]; [reflexivity |].
  cbn [escape]. by rewrite read_chars_escape_char, IH.
Qed.

Lemma read_digits_closes k : closes k -> read_digits k = (Nil, k).
Proof. destruct k as [| c k]; [done |]. simpl. by intros ->. Qed.

Lemma read_digits_uint u k :
  closes k -> read_digits (NilEmpty.string_of_uint u +:+ k) = (u, k).
Proof.
  intros Hk. induction u; simpl; rewrite ?IHu; try done.
  by apply read_digits_closes.
Qed.

Lemma string_of_uint_nonnil u :
  u <> Nil -> NilZero.string_of_uint u = NilEmpty.string_of_uint u.
Proof. by destruct u. Qed.

Lemma digits_head u :
  u <> Nil ->
  exists c r, NilEmpty.string_of_uint u = String c r /\ Ascii.eqb c "-" = false.
Proof. destruct u; [done | ..]; intros _; by eexists _, _. Qed.

Lemma read_number_emit z k :
  closes k -> read_number (emit_number z k) = Some (z, k).
Proof.
  intros Hk. unfold emit_number.
  rewrite <- (DecimalZ.of_to z) at 2.
  destruct z as [| p | p].
  - change (read_number (String "0" k) = Some (Z.of_int (Pos (D0 Nil)), k)).
    unfold read_number. cbn [Ascii.eqb Bool.eqb read_digits digit_of].
    by rewrite (read_digits_closes k).
  - pose proof (Unsigned.to_uint_nonnil p) as Hn.
    unfold Z.to_int, NilZero.string_of_int.
    rewrite string_of_uint_nonnil by done.
    destruct (digits_head _ Hn) as (c & r & Heq & Hc).
    assert (Htext : NilEmpty.string_of_uint (Pos.to_uint p) +:+ k
                    = String c (r +:+ k)) by by rewrite Heq.
    rewrite Htext. unfold read_number. rewrite Hc, <- Htext.
    rewrite read_digits_uint by done.
    by destruct (Pos.to_uint p).
  - pose proof (Unsigned.to_uint_nonnil p) as Hn.
    unfold Z.to_int, NilZero.string_of_int.
    rewrite string_of_uint_nonnil by done.
    change (String "-" (NilEmpty.string_of_uint (Pos.to_uint p)) +:+ k)
      with (String "-" (NilEmpty.string_of_uint (Pos.to_uint p) +:+ k)).
    unfold read_number. cbn [Ascii.eqb Bool.eqb].
    rewrite read_digits_uint by done.
    by destruct (Pos.to_uint p).
Qed.

Lemma closes_comma k : closes (String "," k).
Proof. reflexivity. Qed.
Lemma closes_bracket k : closes (String "]" k).
Proof. reflexivity. Qed.
Lemma closes_brace k : closes (String "}" k).
Proof. reflexivity. Qed.

Lemma number_text z :
  exists c r, NilZero.string_of_int (Z.to_int z) = String c r /\
              (digit_of c <> None \/ c = "-"%char).
Proof.
  destruct z as [| p | p].
  - exists "0"%char, EmptyString. split; [reflexivity | by left].
  - pose proof (Unsigned.to_uint_nonnil p) as Hn.
    unfold Z.to_int, NilZero.string_of_int.
    rewrite string_of_uint_nonnil by done.
    destruct (Pos.to_uint p) as [| u | u | u | u | u | u | u | u | u | u];
      [done | ..]; eexists _, _; (split; [reflexivity | by left]).
  - eexists _, _. split; [reflexivity | by right].
Qed.

Lemma number_opens z k :
  exists c r, emit_number z k = String c r /\
              (digit_of c <> None \/ c = "-"%char).
Proof.
  destruct (number_text z) as (c & r & Heq & Hc).
  exists c, (r +:+ k). unfold emit_number. by rewrite Heq.
Qed.

(** One step of [read_value] on a text whose head is a number character. *)
Lemma read_value_number fuel c r :
  digit_of c <> None \/ c = "-"%char ->
  read_value (S fuel) (String c r) =
  match read_number (String c r) with
  | Some (z, rest) => Some (JNum z, rest)
  | None => None
  end.
Proof.
  intros Hc. destruct c as [[|] [|] [|] [|] [|] [|] [|] [|]];
    try reflexivity; destruct Hc as [Hc | Hc]; by try discriminate.
Qed.

Lemma emit_opens v k : opens (emit v k).
Proof.
  destruct v as [| [|] | z | s | l | l]; try done.
  destruct (number_opens z k) as (c & r & Heq & Hc).
  cbn [emit]. rewrite Heq.
  destruct c as [[|] [|] [|] [|] [|] [|] [|] [|]];
    try done; destruct Hc as [Hc | Hc]; by try discriminate.
Qed.

Lemma skip_ws_opens s : opens s -> skip_ws s = s.
Proof. destruct s as [| c r]; [done |]. intros (Hws & _). cbn [skip_ws]. by rewrite Hws. Qed.

Lemma read_value_items fuel r :
  opens r ->
  read_value (S fuel) (String "[" r) =
  match read_items fuel r with
  | Some (l, rest) => Some (JArr l, rest)
  | None => None
  end.
Proof.
  intros Hr. cbn [read_value]. rewrite (skip_ws_opens (String "[" r)) by done.
  cbn [Ascii.eqb Bool.eqb andb dquote]. rewrite (skip_ws_opens r) by done.
  destruct r as [| c r]; [done |]. by destruct Hr as (_ & -> & _).
Qed.

Lemma read_value_members fuel name r :
  read_value (S fuel) (String "{" (quote name r)) =
  match read_members fuel (quote name r) with
  | Some (l, rest) => Some (JObj l, rest)
  | None => None
  end.
Proof. reflexivity. Qed.

Lemma emit_items_more x y l k :
  emit_items emit (x :: y :: l) k = emit x (String "," (emit_items emit (y :: l) k)).
Proof. reflexivity. Qed.

Lemma emit_members_more name x m l k :
  emit_members emit ((name, x) :: m :: l) k =
  quote name (String ":" (emit x (String "," (emit_members emit (m :: l) k)))).
Proof. reflexivity. Qed.

Lemma read_items_step fuel s :
  read_items (S fuel) s =
  match read_value fuel s with
  | Some (v, rest) =>
      match skip_ws rest with
      | String c r =>
          if Ascii.eqb c "," then
            match read_items fuel r with
            | Some (l, rest') => Some (v :: l, rest')
            | None => None
            end
          else if Ascii.eqb c "]" then Some ([v], r)
          else None
      | EmptyString => None
      end
  | None => None
  end.
Proof. reflexivity. Qed.

Lemma read_members_quoted fuel t :
  read_members (S fuel) (String dquote t) =
  match read_chars t with
  | Some (name, rest) =>
      match skip_ws rest with
      | String colon rest1 =>
          if Ascii.eqb colon ":" then
            match read_value fuel rest1 with
            | Some (v, rest2) =>
                match skip_ws rest2 with
                | String c r2 =>
                    if Ascii.eqb c "," then
                      match read_members fuel r2 with
                      | Some (l, rest') => Some ((name, v) :: l, rest')
                      | None => None
                      end
                    else if Ascii.eqb c "}" then Some ([(name, v)], r2)
                    else None
                | EmptyString => None
                end
            | None => None
            end
          else None
      | EmptyString => None
      end
  | None => None
  end.
Proof. reflexivity. Qed.

Lemma read_members_step fuel name r :
  read_members (S fuel) (quote name (String ":" r)) =
  match read_value fuel r with
  | Some (v, rest2) =>
      match skip_ws rest2 with
      | String c r2 =>
          if Ascii.eqb c "," then
            match read_members fuel r2 with
            | Some (l, rest') => Some ((name, v) :: l, rest')
            | None => None
            end
          else if Ascii.eqb c "}" then Some ([(name, v)], r2)
          else None
      | EmptyString => None
      end
  | None => None
  end.
Proof.
  unfold quote. by rewrite read_members_quoted, read_chars_escape.
Qed.

Lemma read_value_quoted fuel t :
  read_value (S fuel) (String dquote t) =
  match read_chars t with
  | Some (str, rest) => Some (JStr str, rest)
  | None => None
  end.
Proof. reflexivity. Qed.

Lemma read_items_back l :
  Forall reads_back l -> l <> [] ->
  forall fuel k, (weight_items weight l <= fuel)%nat ->
                 read_items fuel (emit_items emit l (String "]" k)) = Some (l, k).
Proof.
  induction 1 as [| x l Hx _ IH]; [done |]. intros _ fuel k Hfuel.
  cbn [weight_items] in Hfuel.
  destruct fuel as [| fuel]; [lia |]. rewrite read_items_step.
  destruct l as [| y l].
  - cbn [emit_items]. rewrite Hx by (lia || apply closes_bracket). reflexivity.
  - rewrite emit_items_more. rewrite Hx by (lia || apply closes_comma).
    change (skip_ws (String "," ?r)) with (String "," r).
    cbn [Ascii.eqb Bool.eqb andb].
    rewrite IH by (done || lia). reflexivity.
Qed.

Lemma read_members_back l :
  Forall (fun m => reads_back m.2) l -> l <> [] ->
  forall fuel k, (weight_members weight l <= fuel)%nat ->
                 read_members fuel (emit_members emit l (String "}" k)) = Some (l, k).
Proof.
  induction 1 as [| [name x] l Hx _ IH]; [done |]. intros _ fuel k Hfuel.
  cbn [weight_members] in Hfuel. simpl in Hx.
  destruct fuel as [| fuel]; [lia |].
  destruct l as [| m l].
  - cbn [emit_members]. rewrite read_members_step.
    rewrite Hx by (lia || apply closes_brace). reflexivity.
  - rewrite emit_members_more, read_members_step.
    rewrite Hx by (lia || apply closes_comma).
    change (skip_ws (String "," ?r)) with (String "," r).
    cbn [Ascii.eqb Bool.eqb andb].
    rewrite IH by (done || lia). reflexivity.
Qed.

Lemma emit_items_opens l k : l <> [] -> opens (emit_items emit l k).
Proof.
  destruct l as [| x [| y l]]; [done | |]; intros _; apply emit_opens.
Qed.

Theorem read_value_emit v : reads_back v.
Proof.
  induction v as [| b | z | s | l IH | l IH] using json_induction;
    intros fuel k Hfuel Hk; (destruct fuel as [| fuel]; [simpl in Hfuel; lia |]).
  - reflexivity.
  - by destruct b.
  - destruct (number_opens z k) as (c & r & Heq & Hc).
    pose proof (read_number_emit z k Hk) as Hnum.
    cbn [emit]. rewrite Heq in *. by rewrite read_value_number, Hnum.
  - cbn [emit]. unfold quote.
    by rewrite read_value_quoted, read_chars_escape.
  - cbn [emit weight] in *. destruct l as [| x l]; [reflexivity |].
    rewrite read_value_items by by apply emit_items_opens.
    rewrite read_items_back by (done || lia). reflexivity.
  - cbn [emit weight] in *. destruct l as [| [name x] l]; [reflexivity |].
    assert (Hq : exists r, emit_members emit ((name, x) :: l) (String "}" k)
                           = quote name r)
      by (destruct l; by eexists).
    destruct Hq as [r Hr]. rewrite Hr, read_value_members, <- Hr.
    rewrite read_members_back by (done || lia). reflexivity.
Qed.

Lemma length_append (a b : string) :
  String.length (a +:+ b) = (String.length a + String.length b)%nat.
Proof.
  induction a as [| c a IH]; [done |].
  change (String c a +:+ b) with (String c (a +:+ b)).
  cbn [String.length]. by rewrite IH.
Qed.

Lemma escape_length s k : (String.length k <= String.length (escape s k))%nat.
Proof.
  induction s as [| c s IH]; [done |].
  cbn [escape]. rewrite length_append. lia.
Qed.

Lemma quote_length s k : (2 + String.length k <= String.length (quote s k))%nat.
Proof.
  unfold quote. pose proof (escape_length s (String dquote k)). cbn in *. lia.
Qed.

Lemma emit_items_length l :
  Forall fits l ->
  forall k, (weight_items weight l + String.length k
             <= S (String.length (emit_items emit l k)))%nat.
Proof.
  induction 1 as [| x l Hx _ IH]; intros k; [cbn; lia |].
  cbn [weight_items]. destruct l as [| y l].
  - cbn [emit_items weight_items]. specialize (Hx k). lia.
  - rewrite emit_items_more.
    specialize (Hx (String "," (emit_items emit (y :: l) k))).
    specialize (IH k). cbn [String.length] in Hx. lia.
Qed.

Lemma emit_members_length l :
  Forall (fun m => fits m.2) l ->
  forall k, (weight_members weight l + String.length k
             <= S (String.length (emit_members emit l k)))%nat.
Proof.
  induction 1 as [| [name x] l Hx _ IH]; intros k; [cbn; lia |].
  cbn [weight_members]. simpl in Hx. destruct l as [| m l].
  - cbn [emit_members weight_members].
    pose proof (quote_length name (String ":" (emit x k))).
    specialize (Hx k). cbn [String.length] in *. lia.
  - rewrite emit_members_more.
    pose proof (quote_length name
      (String ":" (emit x (String "," (emit_members emit (m :: l) k))))).
    specialize (Hx (String "," (emit_members emit (m :: l) k))).
    specialize (IH k). cbn [String.length] in *. lia.
Qed.

Lemma emit_length v : fits v.
Proof.
  induction v as [| b | z | s | l IH | l IH] using json_induction; intros k.
  - cbn [emit weight]. rewrite length_append. cbn. lia.
  - destruct b; cbn [emit weight]; rewrite length_append; cbn; lia.
  - destruct (number_text z) as (c & r & Heq & _).
    cbn [emit weight]. unfold emit_number.
    rewrite length_append, Heq. cbn [String.length]. lia.
  - cbn [emit weight]. pose proof (quote_length s k). lia.
  - cbn [emit weight String.length].
    pose proof (emit_items_length l IH (String "]" k)).
    cbn [String.length] in *. lia.
  - cbn [emit weight String.length].
    pose proof (emit_members_length l IH (String "}" k)).
    cbn [String.length] in *. lia.
Qed.

(** Reading what was printed gives the tree back. *)
Theorem read_print v : read (print v) = Some v.
Proof.
  unfold read, print. rewrite read_value_emit; [done | | done].
  pose proof (emit_length v EmptyString). cbn [String.length] in *. lia.
Qed.

Lemma print_nonempty v : print v <> EmptyString.
Proof.
  unfold print. pose proof (emit_opens v EmptyString).
  by destruct (emit v EmptyString).
Qed.

(** Entries, typed. *)

Lemma category_of_name_name c : category_of_name (category_name c) = Some c.
Proof. by destruct c. Qed.

Lemma new_of_json_new (e : NewEntry Z) : new_of_json (new_to_json e) = Some e.
Proof.
  destruct e as [la lo ts dd no ca ph]. unfold new_of_json, new_to_json, new_members.
  cbn. rewrite category_of_name_name. by destruct ph.
Qed.

Lemma entry_of_json_entry (e : JournalEntry Z) : entry_of_json (entry_to_json e) = Some e.
Proof.
  destruct e as [i la lo ts dd no ca ph]. unfold entry_of_json, entry_to_json.
  cbn. rewrite category_of_name_name. by destruct ph.
Qed.

Lemma all_entries_map (xs : list (JournalEntry Z)) :
  all_entries (map entry_to_json xs) = Some xs.
Proof.
  induction xs as [| e xs IH]; [done |].
  cbn [map all_entries]. by rewrite entry_of_json_entry, IH.
Qed.

(** Every collection survives the reference codec. *)
Theorem entries_json_safe (xs : list (JournalEntry Z)) : json_safe xs.
Proof.
  split.
  - cbn [parse stringify json_entries]. unfold through.
    rewrite read_print. apply all_entries_map.
  - apply print_nonempty.
Qed.

Theorem entry_json_safe (e : JournalEntry Z) : json_safe e.
Proof.
  split.
  - cbn [parse stringify json_entry]. unfold through.
    rewrite read_print. apply entry_of_json_entry.
  - apply print_nonempty.
Qed.

Theorem new_json_safe (e : NewEntry Z) : json_safe e.
Proof.
  split.
  - cbn [parse stringify json_new]. unfold through.
    rewrite read_print. apply new_of_json_new.
  - apply print_nonempty.
Qed.

End RefFacts.

(** ** Concrete runs *)

Section Runs.
Import Ref Demo.

Ltac run := vm_compute; reflexivity.
Ltac safe := split; [run | vm_compute; discriminate].
Ltac holds xs :=
  apply (mirror_text _ (stringify xs) xs); [run | vm_compute; discriminate | run].

(** The remote lists [park; cafe] while the mirror holds [twin]. *)
Lemma getEntries_remote_success_witness :
  let w := world (holding [twin]) [success 40 (stringify [park; cafe])] in
  let w' := stored (stringify [park; cafe]) (sent GET_entries 40 [] w) in
  getEntries (WS := unlimited) w = (Return [park; cafe], w') /\
  localStorage w' = <[STORAGE_KEY := stringify [park; cafe]]> (localStorage w) /\
  mirror_holds (localStorage w') [park; cafe] /\
  (forall ys, mirror_holds (localStorage w') ys -> ys = [park; cafe]).
Proof.
  intros w.
  destruct (getEntries_remote_success (WS := unlimited) w 40
              (mkResponse true (stringify [park; cafe])) [] [park; cafe])
    as [Htaken _]; [run | run | run |].
  destruct Htaken as (Hrun & Hst & Hsafe); [run |].
  destruct Hsafe as [Hm Huniq]; [safe |].
  split; [exact Hrun | split; [exact Hst | split; [exact Hm | exact Huniq]]].
Defined.

(** C1, counterexample. The remote lists [park; cafe; twin], which a store
    of 300 characters holding [cafe] cannot take: [getEntries] returns
    [cafe] and the mirror still holds [cafe] alone. *)
Lemma getEntries_refused_write_stale :
  let w := world (holding [cafe]) [success 40 (stringify [park; cafe; twin])] in
  (exists resp, serve GET_entries (remote w) = (Resolves 40 resp, []) /\
                ok resp = true /\ parse (text resp) = Some [park; cafe; twin]) /\
  getEntries (WS := quota 300) w = (Return [cafe], sent GET_entries 40 [] w) /\
  localStorage (sent GET_entries 40 [] w) = holding [cafe] /\
  ~ (forall (w0 : World Script) t resp r' (E : list (JournalEntry Z)),
       serve GET_entries (remote w0) = (Resolves t resp, r') ->
       ok resp = true -> parse (text resp) = Some E ->
       exists w', getEntries (WS := quota 300) w0 = (Return E, w') /\
                  mirror_holds (localStorage w') E).
Proof.
  intros w. split; [| split; [run | split; [run |]]].
  - eexists. split; [run | split; run].
  - intros Hall.
    destruct (Hall w 40%N (mkResponse true (stringify [park; cafe; twin])) []
                   [park; cafe; twin]) as (w' & Hrun & _); [run | run | run |].
    vm_compute in Hrun. discriminate.
Qed.

(** The remote is unreachable and the mirror holds [park]. *)
Lemma createEntry_unreachable_witness :
  let w := world (holding [park]) offline in
  let e := minted spot start in
  createEntry (WS := unlimited) spot w =
    (Return e, stored (stringify [park; e]) (sent (POST_entry spot) 0 [] w)) /\
  id e = "local-1700000000000" /\
  String.prefix LOCAL_PREFIX (id e) = true /\
  mirror_holds
    (localStorage (stored (stringify [park; e]) (sent (POST_entry spot) 0 [] w)))
    [park; e].
Proof.
  intros w e.
  destruct (createEntry_unreachable (WS := unlimited) w spot (Rejects 0) [])
    as (_ & Hpre & _ & _ & Hread & _); [run | constructor |].
  destruct (Hread [park]) as [Htaken _]; [holds [park] |].
  destruct Htaken as (Hrun & _ & Hm); [run |].
  split; [exact Hrun | split; [run | split; [exact Hpre |]]].
  apply Hm. safe.
Defined.

(** C2, counterexample. With the remote unreachable: two different entries
    created within one millisecond are returned and persisted under the
    same id; over a mirror whose text is not JSON, and over a store that
    has no room, [createEntry] throws and persists nothing. *)
Lemma createEntry_unreachable_fails :
  let w := world (holding [park]) [Rejects 3; Rejects 0] in
  let e1 := minted spot (start + 3) in
  let e2 := minted undated (start + 3) in
  let w1 := (createEntry (WS := unlimited) spot w).2 in
  ((createEntry (WS := unlimited) spot w).1 = Return e1 /\
   (createEntry (WS := unlimited) undated w1).1 = Return e2 /\
   e1 <> e2 /\ id e1 = id e2 /\
   localStorage (createEntry (WS := unlimited) undated w1).2 = holding [park; e1; e2]) /\
  createEntry (WS := unlimited) spot (world broken offline) =
    (Throw SyntaxError, sent (POST_entry spot) 0 [] (world broken offline)) /\
  createEntry (WS := quota 100) spot (world ∅ offline) =
    (Throw QuotaExceededError, sent (POST_entry spot) 0 [] (world ∅ offline)) /\
  ~ (forall (w0 : World Script) entry s r',
       serve (POST_entry entry) (remote w0) = (s, r') ->
       request_fails (JournalEntry Z) s ->
       exists e w', createEntry (WS := unlimited) entry w0 = (Return e, w')).
Proof.
  intros w e1 e2 w1. split; [| split; [run | split; [run |]]].
  - split; [run | split; [run | split; [vm_compute; discriminate | split; run]]].
  - intros Hall.
    destruct (Hall (world broken offline) spot (Rejects 0) [])
      as (e & w' & Hrun); [run | constructor |].
    vm_compute in Hrun. discriminate.
Qed.

(** The list request is answered with a failure status; the mirror holds
    [cafe]. *)
Lemma getEntries_fallback_witness :
  let w := world (holding [cafe]) [failure 15] in
  getEntries (WS := unlimited) w = (Return [cafe], sent GET_entries 15 [] w) /\
  localStorage (sent GET_entries 15 [] w) = localStorage w.
Proof.
  intros w.
  destruct (getEntries_fallback (WS := unlimited) w (failure 15) [] [cafe])
    as (Hrun & Hsame & _);
    [run | by apply fails_status | holds [cafe] |].
  split; [exact Hrun | exact Hsame].
Defined.

(** C4, counterexample. The remote is unreachable and the text under the
    mirror's key is not JSON: [getEntries] throws to its caller. *)
Lemma getEntries_broken_mirror_throws :
  let w := world broken offline in
  request_fails (list (JournalEntry Z)) (serve GET_entries (remote w)).1 /\
  getEntries (WS := unlimited) w = (Throw SyntaxError, sent GET_entries 0 [] w) /\
  ~ (forall w0 : World Script,
       request_fails (list (JournalEntry Z)) (serve GET_entries (remote w0)).1 ->
       exists xs w', getEntries (WS := unlimited) w0 = (Return xs, w')).
Proof.
  intros w. split; [constructor | split; [run |]].
  intros Hall. destruct (Hall w) as (xs & w' & Hrun); [constructor |].
  vm_compute in Hrun. discriminate.
Qed.

(** The remote confirms the deletion of id 1; the mirror holds
    [park; cafe]. *)
Lemma deleteEntry_frame_witness :
  let w := world (holding [park; cafe]) [success 30 "{}"] in
  let w' := stored (stringify [cafe]) (sent (DELETE_entry "1") 30 [] w) in
  deleteEntry (WS := unlimited) "1" w = (Return tt, w') /\
  mirror_holds (localStorage w') [cafe].
Proof.
  intros w.
  destruct (deleteEntry_frame (WS := unlimited) w "1" (success 30 "{}") [])
    as (_ & Hread & _); [run | done |].
  destruct (Hread [park; cafe]) as (_ & _ & _ & _ & Htaken & _);
    [holds [park; cafe] |].
  destruct Htaken as [Hrun Hm]; [run |].
  split; [exact Hrun | apply Hm; safe].
Defined.

(** C5, counterexample. The text under the mirror's key is not JSON and no
    entry has id 1: [deleteEntry] throws, whether the remote confirms the
    deletion or cannot be reached. It throws as well when the mirror is
    absent and the store, which keeps a theme, has no room for the text of
    the empty collection. *)
Lemma deleteEntry_broken_mirror_throws :
  (deleteEntry (WS := unlimited) "1" (world broken offline)).1
    = Throw SyntaxError /\
  (deleteEntry (WS := unlimited) "1" (world broken [success 30 "{}"])).1
    = Throw SyntaxError /\
  (deleteEntry (WS := quota 30) "1"
     (world {[ "theme" := "dark" ]} [success 30 "{}"])).1
    = Throw QuotaExceededError /\
  ~ (forall (w0 : World Script) i, (serve (DELETE_entry i) (remote w0)).1 <> Never ->
       exists w', deleteEntry (WS := unlimited) i w0 = (Return tt, w')).
Proof.
  split; [run | split; [run | split; [run |]]].
  intros Hall. destruct (Hall (world broken offline) "1") as (w' & Hrun).
  - vm_compute. discriminate.
  - vm_compute in Hrun. discriminate.
Qed.

(** The remote stores [spot] under id 42; the mirror holds [park]. *)
Lemma createEntry_remote_success_witness :
  let w := world (holding [park]) [success 40 (stringify spot42)] in
  let w' := stored (stringify [park; spot42]) (sent (POST_entry spot) 40 [] w) in
  createEntry (WS := unlimited) spot w = (Return spot42, w') /\
  id spot42 = "42" /\
  mirror_holds (localStorage w') [park; spot42] /\
  (getEntries (WS := unlimited) w').1 = Return [park; spot42].
Proof.
  intros w.
  destruct (createEntry_remote_success (WS := unlimited) w spot 40
              (mkResponse true (stringify spot42)) [] spot42)
    as [Hread _]; [run | run | run |].
  destruct (Hread [park]) as [Htaken _]; [holds [park] |].
  destruct Htaken as (Hrun & _ & Hsafe); [run |].
  destruct Hsafe as [Hm Hlist]; [safe |].
  split; [exact Hrun | split; [run | split; [exact Hm |]]].
  apply (Hlist (Rejects 0) []); [run | constructor].
Defined.

(** C6, counterexample. The remote accepts [undated] and answers with the
    entry it stored. In an empty store of 200 characters that answer does
    not fit, and [createEntry] returns a locally minted entry under another
    id, which is what the mirror then holds; over a mirror whose text is
    not JSON [createEntry] throws. *)
Lemma createEntry_remote_success_fails :
  let w := world ∅ [success 40 (stringify undated_saved)] in
  let e := minted undated (start + 40) in
  (exists resp, serve (POST_entry undated) (remote w) = (Resolves 40 resp, []) /\
                ok resp = true /\ parse (text resp) = Some undated_saved) /\
  createEntry (WS := quota 200) undated w =
    (Return e, stored (stringify [e]) (sent (POST_entry undated) 40 [] w)) /\
  e <> undated_saved /\ id e <> id undated_saved /\
  (createEntry (WS := unlimited) spot
     (world broken [success 40 (stringify spot42)])).1 = Throw SyntaxError /\
  ~ (forall (w0 : World Script) entry t resp r' saved,
       serve (POST_entry entry) (remote w0) = (Resolves t resp, r') ->
       ok resp = true -> parse (text resp) = Some saved ->
       exists w', createEntry (WS := quota 200) entry w0 = (Return saved, w')).
Proof.
  intros w e. split; [| split; [run | split; [| split; [| split; [run |]]]]].
  - eexists. split; [run | split; run].
  - vm_compute. discriminate.
  - vm_compute. discriminate.
  - intros Hall.
    destruct (Hall w undated 40%N (mkResponse true (stringify undated_saved)) []
                   undated_saved) as (w' & Hrun); [run | run | run |].
    vm_compute in Hrun. discriminate.
Qed.

(** Import of [cafe; park] over a mirror holding [twin], then a list
    request that finds no remote. *)
Lemma import_then_list_witness :
  let w := world (holding [twin]) offline in
  bind (importEntries (WS := unlimited) [cafe; park])
       (fun _ => getEntries (WS := unlimited)) w =
    (Return [cafe; park],
     sent GET_entries 0 [] (stored (stringify [cafe; park]) w)).
Proof.
  intros w.
  destruct (import_then_list (WS := unlimited) w [cafe; park] (Rejects 0) [])
    as [Htaken _]; [run | constructor |].
  destruct Htaken as [_ Hback]; [run |].
  apply Hback. safe.
Defined.

(** C7, counterexample. The remote is unreachable and a store of 300
    characters holds [twin]: the import of [park; cafe] is refused and
    throws, and the list that follows returns [twin]. *)
Lemma import_then_list_refused :
  let w := world (holding [twin]) offline in
  importEntries (WS := quota 300) [park; cafe] w = (Throw QuotaExceededError, w) /\
  bind (importEntries (WS := quota 300) [park; cafe])
       (fun _ => getEntries (WS := quota 300)) w = (Throw QuotaExceededError, w) /\
  (getEntries (WS := quota 300) w).1 = Return [twin] /\
  ~ (forall (w0 : World Script) (xs : list (JournalEntry Z)) s r',
       serve GET_entries (remote w0) = (s, r') ->
       request_fails (list (JournalEntry Z)) s ->
       exists w', bind (importEntries (WS := quota 300) xs)
                       (fun _ => getEntries (WS := quota 300)) w0 = (Return xs, w')).
Proof.
  intros w. split; [run | split; [run | split; [run |]]].
  intros Hall.
  destruct (Hall w [park; cafe] (Rejects 0) []) as (w' & Hrun); [run | constructor |].
  vm_compute in Hrun. discriminate.
Qed.

(** Import of [cafe] over a mirror holding [park; twin], with a remote that
    would answer. *)
Lemma importEntries_overwrites_witness :
  let w := world (holding [park; twin]) [success 40 (stringify [park])] in
  let w' := (importEntries (WS := unlimited) [cafe] w).2 in
  importEntries (WS := unlimited) [cafe] w = (Return tt, stored (stringify [cafe]) w) /\
  mirror_holds (localStorage w') [cafe] /\
  remote w' = remote w /\ trace w' = [].
Proof.
  intros w.
  destruct (importEntries_overwrites (WS := unlimited) w [cafe])
    as (Hrem & Htr & _ & _ & Htaken & _).
  destruct Htaken as (Hrun & _ & Hsafe); [run |].
  destruct Hsafe as [Hm _]; [safe |].
  split; [exact Hrun | split; [exact Hm | split; [exact Hrem | exact Htr]]].
Defined.

(** C8, counterexample. A store of 300 characters holds [twin]: the import
    of [park; cafe] is refused, throws, and leaves [twin] in the mirror. *)
Lemma importEntries_refused_keeps_mirror :
  let w := world (holding [twin]) offline in
  importEntries (WS := quota 300) [park; cafe] w = (Throw QuotaExceededError, w) /\
  mirror_holds (localStorage (importEntries (WS := quota 300) [park; cafe] w).2) [twin] /\
  ~ mirror_holds (localStorage (importEntries (WS := quota 300) [park; cafe] w).2)
                 [park; cafe] /\
  ~ (forall (w0 : World Script) (xs : list (JournalEntry Z)),
       mirror_holds (localStorage (importEntries (WS := quota 300) xs w0).2) xs).
Proof.
  intros w.
  assert (Hm : mirror_holds (localStorage (importEntries (WS := quota 300) [park; cafe] w).2)
                            [twin]) by holds [twin].
  assert (Hnot : ~ mirror_holds
                     (localStorage (importEntries (WS := quota 300) [park; cafe] w).2)
                     [park; cafe]).
  { intros Hbad. pose proof (mirror_holds_inj _ _ _ Hm Hbad) as Heq.
    vm_compute in Heq. discriminate. }
  split; [run | split; [exact Hm | split; [exact Hnot |]]].
  intros Hall. exact (Hnot (Hall w [park; cafe])).
Qed.


(** A store of 200 characters and an empty mirror. The form sent the entry
    without a date; the remote stores it under an id and a timestamp of its
    own, and its answer does not fit where the locally minted entry does. *)
Lemma createEntry_mirror_fault_witness :
  let w := world ∅ [success 40 (stringify undated_saved)] in
  let w1 := sent (POST_entry undated) 40 [] w in
  let e := minted undated (start + 40) in
  admits (WebStorage := quota 200) (localStorage w) STORAGE_KEY
         (stringify [undated_saved]) = false /\
  createEntry (WS := quota 200) undated w = (Return e, stored (stringify [e]) w1) /\
  id e = "local-1700000000040" /\
  id e <> id undated_saved.
Proof.
  intros w w1 e.
  destruct (createEntry_mirror_fault (WS := quota 200) w undated 40
              (mkResponse true (stringify undated_saved)) [] undated_saved)
    as (_ & _ & Hread); [run | run | run | |].
  - right. exists []. split; [by apply mirror_absent | run].
  - destruct (Hread []) as [Hok _]; [by apply mirror_absent |].
    destruct Hok as (Hrun & _ & Hne); [run |].
    split; [run | split; [exact Hrun | split; [run |]]].
    apply Hne. run.
Defined.

(** C9, counterexample. The remote stores the entry under id 42, but the
    text under the mirror's key is not JSON: [createEntry] throws, and
    neither returns nor persists a locally minted entry. *)
Lemma createEntry_broken_mirror_throws :
  let w := world broken [success 40 (stringify spot42)] in
  (exists resp, serve (POST_entry spot) (remote w) = (Resolves 40 resp, []) /\
                ok resp = true /\ parse (text resp) = Some spot42) /\
  mirror_unreadable (number := Z) (localStorage w) /\
  createEntry (WS := unlimited) spot w =
    (Throw SyntaxError, sent (POST_entry spot) 40 [] w) /\
  localStorage (sent (POST_entry spot) 40 [] w) = broken.
Proof.
  intros w. split; [| split; [| split; run]].
  - eexists. split; [run | split; run].
  - exists "{". split; [run | split; [discriminate | run]].
Qed.

(** An import puts [park], [cafe] and [twin] in the mirror, two of them
    under id 1; the deletion of id 1 leaves [cafe] alone, with the remote
    confirming and with the remote away. *)
Lemma deleteEntry_removes_all_witness :
  let w := (importEntries (WS := unlimited) [park; cafe; twin] (world ∅ [success 30 "{}"])).2 in
  (exists w' ys,
     deleteEntry (WS := unlimited) "1" w = (Return tt, w') /\
     mirror_holds (localStorage w') ys /\ ys = [cafe]) /\
  (deleteEntry (WS := unlimited) "1" w).2.(localStorage) =
  (deleteEntry (WS := unlimited) "1"
     (importEntries (WS := unlimited) [park; cafe; twin] (world ∅ offline)).2).2.(localStorage).
Proof.
  intros w. split; [| run].
  destruct (deleteEntry_removes_all (WS := unlimited) w "1" (success 30 "{}") []
                                    [park; cafe; twin])
    as (w' & ys & Hrun & Hm & Hys & _);
    [run | done | holds [park; cafe; twin] | run | safe |].
  exists w', ys. split; [exact Hrun | split; [exact Hm |]].
  rewrite Hys. run.
Defined.

(** The scenario of a lost connection. The mirror holds [park]; with the
    remote away, deleting id 1 empties the mirror and creating [spot] leaves
    it holding one locally minted entry; once the remote answers again with
    [park], listing makes [park] the whole mirror and the local entry is gone. *)
Example offline_then_reconnect :
  let w0 := world (holding [park])
                  [Rejects 3; Rejects 3; success 40 (stringify [park])] in
  let local := minted spot (start + 6) in
  let '(r1, w1) := deleteEntry (WS := unlimited) "1" w0 in
  let '(r2, w2) := createEntry (WS := unlimited) spot w1 in
  let '(r3, w3) := getEntries (WS := unlimited) w2 in
  (r1 = Return tt /\ localStorage w1 = holding []) /\
  (r2 = Return local /\ localStorage w2 = holding [local]) /\
  (r3 = Return [park] /\ localStorage w3 = holding [park]).
Proof. vm_compute. repeat split. Qed.

End Runs.

(** ** More on the gateway *)

Section GatewayMore.
Context {number : Type} {R : Type}.
Context `{Rm : !Remote R} `{WS : !WebStorage}.
Context `{JEs : !Json (list (JournalEntry number))}.
Context `{JE : !Json (JournalEntry number)}.
Context `{JN : !Json (NewEntry number)}.

Implicit Types (w : World R) (xs : list (JournalEntry number)).
Implicit Types (entry : NewEntry number) (i : string) (s : Settle).

Lemma local_step_refl w : local_step w w.
Proof. repeat split; by left. Qed.

Lemma local_step_trans w1 w2 w3 :
  local_step w1 w2 -> local_step w2 w3 -> local_step w1 w3.
Proof.
  intros (Hr & Hc & Ht & Hs) (Hr' & Hc' & Ht' & Hs').
  repeat split; try congruence.
  destruct Hs as [Hs | [v Hs]], Hs' as [Hs' | [v' Hs']]; rewrite Hs', Hs.
  - by left.
  - right. by exists v'.
  - right. by exists v.
  - right. exists v'. by rewrite insert_insert_eq.
Qed.

Lemma setItem_local w v : local_step w (setItem STORAGE_KEY v w).2.
Proof.
  unfold setItem. destruct (admits _ _ _); simpl; [| apply local_step_refl].
  repeat split. right. by exists v.
Qed.

Lemma getLocalEntries_same w : (getLocalEntries w).2 = w.
Proof.
  unfold getLocalEntries, bind, getItem, ret, throw.
  destruct (localStorage w !! STORAGE_KEY) as [s |]; [| done].
  destruct (String.eqb s EmptyString); [done |].
  by destruct (parse s).
Qed.

Lemma createLocalEntry_local w entry : local_step w (createLocalEntry entry w).2.
Proof.
  unfold createLocalEntry, bind, Date_now.
  pose proof (getLocalEntries_same w) as Hw.
  destruct (getLocalEntries w) as [[xs | e |] w1]; simpl in Hw; subst w1;
    try apply local_step_refl.
  pose proof (setItem_local w (stringify (xs ++ [with_id entry (local_id (clock w))]))) as H.
  destruct (setItem _ _ w) as [[[] | e |] w2]; exact H.
Qed.

Lemma deleteLocalEntry_local w i : local_step w (deleteLocalEntry i w).2.
Proof.
  unfold deleteLocalEntry, bind.
  pose proof (getLocalEntries_same w) as Hw.
  destruct (getLocalEntries w) as [[xs | e |] w1]; simpl in Hw; subst w1;
    try apply local_step_refl.
  apply setItem_local.
Qed.

Lemma fetch_world req w :
  (fetch req None w).2 = sent req (latency (serve req (remote w)).1) (serve req (remote w)).2 w.
Proof. unfold fetch. by destruct (serve req (remote w)) as [[| t | t resp] r']. Qed.

Lemma getEntries_shape w : after_request GET_entries w (getEntries w).2.
Proof.
  unfold after_request. rewrite <- fetch_world.
  unfold getEntries, try_catch, bind.
  change (mkRequest GET API_URL None) with GET_entries.
  destruct (fetch GET_entries None w) as [[resp | e |] w1]; simpl.
  - destruct (ok resp); simpl.
    + unfold response_json. destruct (parse (text resp)) as [data |]; simpl.
      * pose proof (setItem_local w1 (stringify data)) as H.
        destruct (setItem _ _ w1) as [[[] | e |] w2]; simpl in *; [done | | done].
        eapply local_step_trans; [exact H |].
        rewrite getLocalEntries_same. apply local_step_refl.
      * rewrite getLocalEntries_same. apply local_step_refl.
    + rewrite getLocalEntries_same. apply local_step_refl.
  - rewrite getLocalEntries_same. apply local_step_refl.
  - apply local_step_refl.
Qed.

Lemma createEntry_shape w entry : after_request (POST_entry entry) w (createEntry entry w).2.
Proof.
  unfold after_request. rewrite <- fetch_world.
  unfold createEntry, try_catch, bind.
  change (mkRequest POST API_URL (Some (stringify entry))) with (POST_entry entry).
  destruct (fetch (POST_entry entry) None w) as [[resp | e |] w1]; simpl.
  - destruct (ok resp); simpl; [| apply createLocalEntry_local].
    unfold response_json. destruct (parse (text resp)) as [saved |]; simpl;
      [| apply createLocalEntry_local].
    pose proof (getLocalEntries_same w1) as Hw.
    destruct (getLocalEntries w1) as [[xs | e |] w2]; simpl in Hw; subst w2;
      [| apply createLocalEntry_local | apply local_step_refl].
    pose proof (setItem_local w1 (stringify (xs ++ [saved]))) as H.
    destruct (setItem _ _ w1) as [[[] | e |] w2]; simpl in *; [done | | done].
    eapply local_step_trans; [exact H | apply createLocalEntry_local].
  - apply createLocalEntry_local.
  - apply local_step_refl.
Qed.

Lemma deleteEntry_shape w i : after_request (DELETE_entry i) w (deleteEntry i w).2.
Proof.
  unfold after_request. rewrite <- fetch_world.
  unfold deleteEntry, try_catch, bind.
  change (mkRequest DELETE (API_URL +:+ "/" +:+ i) None) with (DELETE_entry i).
  destruct (fetch (DELETE_entry i) None w) as [[resp | e |] w1]; simpl.
  - destruct (ok resp); simpl; [| apply deleteLocalEntry_local].
    pose proof (getLocalEntries_same w1) as Hw.
    destruct (getLocalEntries w1) as [[xs | e |] w2]; simpl in Hw; subst w2;
      [| apply deleteLocalEntry_local | apply local_step_refl].
    pose proof (setItem_local w1 (stringify (filter (others i) xs))) as H.
    destruct (setItem _ _ w1) as [[[] | e |] w2]; simpl in *; [done | | done].
    eapply local_step_trans; [exact H | apply deleteLocalEntry_local].
  - apply deleteLocalEntry_local.
  - apply local_step_refl.
Qed.

Lemma after_request_facts req w w' :
  after_request req w w' ->
  trace w' = trace w ++ [Sent req] /\
  remote w' = (serve req (remote w)).2 /\
  clock w' = clock w + Z.of_N (latency (serve req (remote w)).1) /\
  (forall k, k <> STORAGE_KEY -> localStorage w' !! k = localStorage w !! k).
Proof.
  intros (Hr & Hc & Ht & Hs). repeat split; try done.
  intros k Hk. destruct Hs as [-> | [v ->]]; [done |].
  by rewrite lookup_insert_ne.
Qed.

(** X1. Listing, creating and deleting each send exactly one request,
    whatever becomes of it and of the mirror: the log grows by that request
    alone, the remote takes that one step, and the clock moves by the time
    the request took. No call tries again, and no fallback reaches the
    remote. *)
Theorem one_request_per_call w entry i :
  (let w' := (getEntries w).2 in
   trace w' = trace w ++ [Sent GET_entries] /\
   remote w' = (serve GET_entries (remote w)).2 /\
   clock w' = clock w + Z.of_N (latency (serve GET_entries (remote w)).1)) /\
  (let w' := (createEntry entry w).2 in
   trace w' = trace w ++ [Sent (POST_entry entry)] /\
   remote w' = (serve (POST_entry entry) (remote w)).2 /\
   clock w' = clock w + Z.of_N (latency (serve (POST_entry entry) (remote w)).1)) /\
  (let w' := (deleteEntry i w).2 in
   trace w' = trace w ++ [Sent (DELETE_entry i)] /\
   remote w' = (serve (DELETE_entry i) (remote w)).2 /\
   clock w' = clock w + Z.of_N (latency (serve (DELETE_entry i) (remote w)).1)).
Proof.
  split; [| split]; cbv zeta.
  - destruct (after_request_facts _ _ _ (getEntries_shape w)) as (? & ? & ? & _); done.
  - destruct (after_request_facts _ _ _ (createEntry_shape w entry)) as (? & ? & ? & _); done.
  - destruct (after_request_facts _ _ _ (deleteEntry_shape w i)) as (? & ? & ? & _); done.
Qed.

(** X2. No call of the service touches a key of [localStorage] other than
    the mirror's, whatever the remote answers and whatever the store holds. *)
Theorem other_keys_untouched w entry i xs k :
  k <> STORAGE_KEY ->
  localStorage (checkConnection w).2 !! k = localStorage w !! k /\
  localStorage (getEntries w).2 !! k = localStorage w !! k /\
  localStorage (createEntry entry w).2 !! k = localStorage w !! k /\
  localStorage (deleteEntry i w).2 !! k = localStorage w !! k /\
  localStorage (importEntries xs w).2 !! k = localStorage w !! k.
Proof.
  intros Hk. repeat split.
  - unfold checkConnection, try_catch, bind, fetch.
    destruct (serve _ (remote w)) as [[| t | t resp] r']; simpl; try done;
      by destruct (t <? PROBE_TIMEOUT_MS)%N.
  - by apply (after_request_facts _ _ _ (getEntries_shape w)).
  - by apply (after_request_facts _ _ _ (createEntry_shape w entry)).
  - by apply (after_request_facts _ _ _ (deleteEntry_shape w i)).
  - unfold importEntries.
    destruct (setItem_local w (stringify xs)) as (_ & _ & _ & [-> | [v ->]]);
      [done | by rewrite lookup_insert_ne].
Qed.

(** X3. No timer guards the requests of the gateway: while the remote does
    not answer, listing, creating and deleting stay pending, and the store is
    as it was. *)
Theorem gateway_waits_forever w entry i :
  (forall req, (serve req (remote w)).1 = Never) ->
  (getEntries w).1 = Pending /\
  (createEntry entry w).1 = Pending /\
  (deleteEntry i w).1 = Pending /\
  localStorage (getEntries w).2 = localStorage w /\
  localStorage (createEntry entry w).2 = localStorage w /\
  localStorage (deleteEntry i w).2 = localStorage w.
Proof.
  intros Hnever.
  assert (Hf : forall req, exists r', fetch req None w = (Pending, sent req 0 r' w)).
  { intros req. specialize (Hnever req).
    destruct (serve req (remote w)) as [s r'] eqn:Hs. simpl in Hnever. subst s.
    exists r'. by apply fetch_never. }
  unfold getEntries, createEntry, deleteEntry, try_catch, bind.
  destruct (Hf (mkRequest GET API_URL None)) as [r1 ->].
  destruct (Hf (mkRequest POST API_URL (Some (stringify entry)))) as [r2 ->].
  destruct (Hf (mkRequest DELETE (API_URL +:+ "/" +:+ i) None)) as [r3 ->].
  done.
Qed.

(** X5. Deleting the same id a second time changes nothing: the call
    returns and the store is exactly what the first deletion left. *)
Theorem deleteEntry_twice w i s r' xs :
  serve (DELETE_entry i) (remote w) = (s, r') -> s <> Never ->
  mirror_holds (localStorage w) xs ->
  admits (localStorage w) STORAGE_KEY (stringify (filter (others i) xs)) = true ->
  json_safe (filter (others i) xs) ->
  let w1 := (deleteEntry i w).2 in
  forall s2 r2,
    serve (DELETE_entry i) (remote w1) = (s2, r2) -> s2 <> Never ->
    admits (localStorage w1) STORAGE_KEY (stringify (filter (others i) xs)) = true ->
    (deleteEntry i w1).1 = Return tt /\
    localStorage (deleteEntry i w1).2 = localStorage w1.
Proof.
  intros Hs Hset Hm Ha Hsafe w1 s2 r2 Hs2 Hset2 Ha2.
  assert (Hw1 : w1 = stored (stringify (filter (others i) xs))
                            (sent (DELETE_entry i) (latency s) r' w))
    by (unfold w1; by rewrite (deleteEntry_run _ _ _ _ xs Hs Hset Hm Ha)).
  assert (Hm1 : mirror_holds (localStorage w1) (filter (others i) xs))
    by (rewrite Hw1; by apply mirror_holds_stored).
  assert (Hidem : filter (others i) (filter (others i) xs) = filter (others i) xs).
  { apply filter_others_absent. rewrite list_elem_of_fmap.
    intros (e & He & Hin). apply list_elem_of_filter in Hin. by destruct Hin. }
  rewrite (deleteEntry_run _ _ _ _ _ Hs2 Hset2 Hm1) by by rewrite Hidem.
  split; [done |]. rewrite Hidem. simpl. rewrite Hw1. simpl.
  by rewrite insert_insert_eq.
Qed.

(** The run of [createEntry] once its request has failed. *)
Lemma createEntry_offline_run w entry s r' xs :
  serve (POST_entry entry) (remote w) = (s, r') ->
  request_fails (JournalEntry number) s ->
  mirror_holds (localStorage w) xs ->
  admits (localStorage w) STORAGE_KEY
    (stringify (xs ++ [minted entry (clock w + Z.of_N (latency s))])) = true ->
  createEntry entry w =
    (Return (minted entry (clock w + Z.of_N (latency s))),
     stored (stringify (xs ++ [minted entry (clock w + Z.of_N (latency s))]))
            (sent (POST_entry entry) (latency s) r' w)).
Proof.
  intros Hs Hf Hm Ha. rewrite (createEntry_falls_back _ _ _ _ Hs Hf).
  by rewrite (createLocalEntry_holds _ _ xs).
Qed.

(** X6. An entry created while the remote fails and deleted again by the
    id it was given leaves the mirror holding what it held before, provided
    no older entry carries that id. *)
Theorem create_then_delete w entry s r' xs :
  serve (POST_entry entry) (remote w) = (s, r') ->
  request_fails (JournalEntry number) s ->
  mirror_holds (localStorage w) xs ->
  let e := minted entry (clock w + Z.of_N (latency s)) in
  admits (localStorage w) STORAGE_KEY (stringify (xs ++ [e])) = true ->
  json_safe (xs ++ [e]) ->
  json_safe xs ->
  id e ∉ id <$> xs ->
  let w1 := (createEntry entry w).2 in
  forall s2 r2,
    serve (DELETE_entry (id e)) (remote w1) = (s2, r2) -> s2 <> Never ->
    admits (localStorage w1) STORAGE_KEY (stringify xs) = true ->
    (createEntry entry w).1 = Return e /\
    (deleteEntry (id e) w1).1 = Return tt /\
    mirror_holds (localStorage (deleteEntry (id e) w1).2) xs.
Proof.
  intros Hs Hf Hm e Ha Hsafe Hsafe' Hfresh w1 s2 r2 Hs2 Hset2 Ha2.
  assert (Hrun := createEntry_offline_run _ _ _ _ _ Hs Hf Hm Ha).
  fold e in Hrun.
  assert (Hm1 : mirror_holds (localStorage w1) (xs ++ [e]))
    by (unfold w1; rewrite Hrun; by apply mirror_holds_stored).
  assert (Hkept : filter (others (id e)) (xs ++ [e]) = xs).
  { rewrite filter_app, filter_others_absent by done.
    rewrite filter_cons_False by tauto. by rewrite app_nil_r. }
  rewrite (deleteEntry_run _ _ _ _ (xs ++ [e]) Hs2 Hset2 Hm1) by by rewrite Hkept.
  rewrite Hrun, Hkept. split; [done | split; [done |]].
  by apply mirror_holds_stored.
Qed.

(** X7. Two entries created while the remote fails get the same id when
    the second request fails within the millisecond of the first: the mirror
    then holds both under one id. *)
Theorem same_millisecond_same_id w entry1 entry2 s r' xs :
  serve (POST_entry entry1) (remote w) = (s, r') ->
  request_fails (JournalEntry number) s ->
  mirror_holds (localStorage w) xs ->
  let e1 := minted entry1 (clock w + Z.of_N (latency s)) in
  admits (localStorage w) STORAGE_KEY (stringify (xs ++ [e1])) = true ->
  json_safe (xs ++ [e1]) ->
  let w1 := (createEntry entry1 w).2 in
  forall s2 r2,
    serve (POST_entry entry2) (remote w1) = (s2, r2) ->
    request_fails (JournalEntry number) s2 ->
    latency s2 = 0%N ->
    let e2 := with_id entry2 (id e1) in
    admits (localStorage w1) STORAGE_KEY (stringify (xs ++ [e1; e2])) = true ->
    json_safe (xs ++ [e1; e2]) ->
    (createEntry entry1 w).1 = Return e1 /\
    (createEntry entry2 w1).1 = Return e2 /\
    mirror_holds (localStorage (createEntry entry2 w1).2) (xs ++ [e1; e2]).
Proof.
  intros Hs Hf Hm e1 Ha Hsafe w1 s2 r2 Hs2 Hf2 Hzero e2 Ha2 Hsafe2.
  assert (Hrun := createEntry_offline_run _ _ _ _ _ Hs Hf Hm Ha).
  fold e1 in Hrun.
  assert (Hm1 : mirror_holds (localStorage w1) (xs ++ [e1]))
    by (unfold w1; rewrite Hrun; by apply mirror_holds_stored).
  assert (He2 : minted entry2 (clock w1 + Z.of_N (latency s2)) = e2).
  { unfold w1. rewrite Hrun, Hzero. unfold e2, e1, minted. simpl.
    by rewrite Z.add_0_r. }
  assert (Hrun2 := createEntry_offline_run w1 entry2 _ _ (xs ++ [e1]) Hs2 Hf2 Hm1).
  rewrite He2, <- app_assoc in Hrun2. rewrite Hrun2 by done.
  rewrite Hrun. split; [done | split; [done |]].
  by apply mirror_holds_stored.
Qed.

(** X8. When the create request has failed, [createEntry] throws if the
    mirror cannot be read ([SyntaxError]) or if the store refuses the new
    text ([QuotaExceededError]); the store is then as it was. *)
Theorem createEntry_offline_errors w entry s r' :
  serve (POST_entry entry) (remote w) = (s, r') ->
  request_fails (JournalEntry number) s ->
  let w1 := sent (POST_entry entry) (latency s) r' w in
  (mirror_unreadable (number := number) (localStorage w) ->
   createEntry entry w = (Throw SyntaxError, w1)) /\
  (forall xs, mirror_holds (localStorage w) xs ->
     admits (localStorage w) STORAGE_KEY
            (stringify (xs ++ [minted entry (clock w1)])) = false ->
     createEntry entry w = (Throw QuotaExceededError, w1)) /\
  localStorage w1 = localStorage w.
Proof.
  intros Hs Hf w1. rewrite (createEntry_falls_back _ _ _ _ Hs Hf).
  split; [| split; [| done]].
  - intros Hbad. by apply createLocalEntry_unreadable.
  - intros xs Hm Ha. by apply (createLocalEntry_refused _ _ xs).
Qed.

(** X9. However the delete request settles, [deleteEntry] throws if the
    mirror cannot be read ([SyntaxError]) or if the store refuses the new
    text ([QuotaExceededError]), also after the remote has confirmed the
    deletion; the store is then as it was. *)
Theorem deleteEntry_errors w i s r' :
  serve (DELETE_entry i) (remote w) = (s, r') -> s <> Never ->
  let w1 := sent (DELETE_entry i) (latency s) r' w in
  (mirror_unreadable (number := number) (localStorage w) ->
   deleteEntry i w = (Throw SyntaxError, w1)) /\
  (forall xs, mirror_holds (localStorage w) xs ->
     admits (localStorage w) STORAGE_KEY (stringify (filter (others i) xs)) = false ->
     deleteEntry i w = (Throw QuotaExceededError, w1)) /\
  localStorage w1 = localStorage w.
Proof.
  intros Hs Hset w1. split; [| split; [| done]].
  - intros Hbad. by apply deleteEntry_unreadable.
  - intros xs Hm Ha. unfold deleteEntry, deleteLocalEntry, try_catch, bind.
    change (mkRequest DELETE (API_URL +:+ "/" +:+ i) None) with (DELETE_entry i).
    destruct s as [| t | t resp]; [done | |].
    + rewrite (fetch_rejects _ _ _ _ Hs).
      rewrite (getLocalEntries_holds _ xs) by done. by rewrite setItem_refused.
    + rewrite (fetch_resolves _ _ _ _ _ Hs). destruct (ok resp); simpl.
      * rewrite (getLocalEntries_holds _ xs) by done.
        rewrite setItem_refused by done.
        rewrite (getLocalEntries_holds _ xs) by done. by rewrite setItem_refused.
      * rewrite (getLocalEntries_holds _ xs) by done. by rewrite setItem_refused.
Qed.

Lemma importEntries_refused w xs :
  admits (localStorage w) STORAGE_KEY (stringify xs) = false ->
  importEntries xs w = (Throw QuotaExceededError, w).
Proof. intros Ha. unfold importEntries. by apply setItem_refused. Qed.

(** X4. When the remote lists a collection but the store refuses to take
    it, [getEntries] drops what it fetched: it returns what the mirror held
    and leaves the store as it was. *)
Theorem stale_list_when_store_refuses w t resp r' (E : list (JournalEntry number)) xs :
  serve GET_entries (remote w) = (Resolves t resp, r') ->
  ok resp = true ->
  parse (text resp) = Some E ->
  admits (localStorage w) STORAGE_KEY (stringify E) = false ->
  mirror_holds (localStorage w) xs ->
  getEntries w = (Return xs, sent GET_entries t r' w) /\
  localStorage (sent GET_entries t r' w) = localStorage w.
Proof.
  intros Hs Hok Hp Ha Hm. split; [| done].
  unfold getEntries, try_catch, bind.
  change (mkRequest GET API_URL None) with GET_entries.
  rewrite (fetch_resolves _ _ _ _ _ Hs), Hok. simpl.
  unfold response_json. rewrite Hp. unfold ret at 1.
  rewrite setItem_refused by done. by apply getLocalEntries_holds.
Qed.

End GatewayMore.

(** ** What a call leaves behind, by its outcome *)

Section Outcomes.
Context {number : Type} {R : Type}.
Context `{Rm : !Remote R} `{WS : !WebStorage}.
Context `{JEs : !Json (list (JournalEntry number))}.
Context `{JE : !Json (JournalEntry number)}.
Context `{JN : !Json (NewEntry number)}.

Implicit Types (w : World R) (xs : list (JournalEntry number)).
Implicit Types (entry : NewEntry number) (i : string) (s : Settle).

Lemma getLocalEntries_inv w :
  match getLocalEntries w with
  | (Return xs, w') => w' = w /\ mirror_holds (localStorage w) xs
  | (Throw e, w') => w' = w /\ mirror_unreadable (number := number) (localStorage w)
  | (Pending, _) => False
  end.
Proof.
  unfold getLocalEntries, bind, getItem, ret, throw.
  destruct (localStorage w !! STORAGE_KEY) as [s |] eqn:Hs.
  - destruct (String.eqb_spec s EmptyString) as [-> | Hne].
    + split; [done | by apply mirror_blank].
    + destruct (parse s) as [xs |] eqn:Hp.
      * split; [done | by eapply mirror_text].
      * split; [done | by exists s].
  - split; [done | by apply mirror_absent].
Qed.

Lemma setItem_inv w v :
  match setItem STORAGE_KEY v w with
  | (Return _, w') => w' = stored v w
  | (Throw e, w') => w' = w
  | (Pending, _) => False
  end.
Proof. unfold setItem. by destruct (admits _ _ _). Qed.

Lemma fetch_storage req w :
  localStorage (fetch req None w).2 = localStorage w.
Proof. unfold fetch. by destruct (serve req (remote w)) as [[| t | t resp] r']. Qed.

Lemma createLocalEntry_settled w entry :
  match createLocalEntry entry w with
  | (Return x, w') =>
      x = minted entry (clock w) /\
      exists xs, mirror_holds (localStorage w) xs /\
                 localStorage w' = <[STORAGE_KEY := stringify (xs ++ [x])]> (localStorage w)
  | (_, w') => localStorage w' = localStorage w
  end.
Proof.
  unfold createLocalEntry, bind, Date_now.
  pose proof (getLocalEntries_inv w) as Hg.
  destruct (getLocalEntries w) as [[xs | e |] w1]; [| by destruct Hg as [-> _] | done].
  destruct Hg as [-> Hm].
  pose proof (setItem_inv w (stringify (xs ++ [with_id entry (local_id (clock w))]))) as H.
  destruct (setItem _ _ w) as [[[] | e |] w2]; simpl; subst; try done.
  split; [done |]. by exists xs.
Qed.

Lemma createEntry_settled w entry :
  match createEntry entry w with
  | (Return x, w') =>
      exists xs, mirror_holds (localStorage w) xs /\
                 localStorage w' = <[STORAGE_KEY := stringify (xs ++ [x])]> (localStorage w)
  | (_, w') => localStorage w' = localStorage w
  end.
Proof.
  unfold createEntry, try_catch, bind.
  pose proof (fetch_storage (mkRequest POST API_URL (Some (stringify entry))) w) as Hf.
  destruct (fetch _ None w) as [[resp | e |] w1]; simpl in Hf.
  - assert (Hfb : match createLocalEntry entry w1 with
                  | (Return x, w') =>
                      exists xs, mirror_holds (localStorage w) xs /\
                        localStorage w' = <[STORAGE_KEY := stringify (xs ++ [x])]> (localStorage w)
                  | (_, w') => localStorage w' = localStorage w
                  end).
    { pose proof (createLocalEntry_settled w1 entry) as H. rewrite Hf in H.
      destruct (createLocalEntry entry w1) as [[x | e |] w2]; try done. by destruct H. }
    destruct (ok resp); simpl; [| exact Hfb].
    unfold response_json. destruct (parse (text resp)) as [saved |]; simpl; [| exact Hfb].
    pose proof (getLocalEntries_inv w1) as Hg.
    destruct (getLocalEntries w1) as [[xs | e |] w2]; [| by destruct Hg as [-> _] | done].
    destruct Hg as [-> Hm]. rewrite Hf in Hm.
    pose proof (setItem_inv w1 (stringify (xs ++ [saved]))) as H.
    destruct (setItem _ _ w1) as [[[] | e |] w2]; simpl; subst; try done.
    exists xs. split; [done |]. simpl. by rewrite Hf.
  - pose proof (createLocalEntry_settled w1 entry) as H. rewrite Hf in H.
    destruct (createLocalEntry entry w1) as [[x | e' |] w2]; try done. by destruct H.
  - done.
Qed.

Lemma deleteLocalEntry_settled w i :
  match deleteLocalEntry i w with
  | (Return _, w') =>
      exists xs, mirror_holds (localStorage w) xs /\
                 localStorage w' =
                 <[STORAGE_KEY := stringify (filter (others i) xs)]> (localStorage w)
  | (_, w') => localStorage w' = localStorage w
  end.
Proof.
  unfold deleteLocalEntry, bind.
  pose proof (getLocalEntries_inv w) as Hg.
  destruct (getLocalEntries w) as [[xs | e |] w1]; [| by destruct Hg as [-> _] | done].
  destruct Hg as [-> Hm].
  pose proof (setItem_inv w (stringify (filter (others i) xs))) as H.
  destruct (setItem _ _ w) as [[[] | e |] w2]; simpl; subst; try done.
  by exists xs.
Qed.

Lemma deleteEntry_settled w i :
  match deleteEntry i w with
  | (Return _, w') =>
      exists xs, mirror_holds (localStorage w) xs /\
                 localStorage w' =
                 <[STORAGE_KEY := stringify (filter (others i) xs)]> (localStorage w)
  | (_, w') => localStorage w' = localStorage w
  end.
Proof.
  unfold deleteEntry, try_catch, bind.
  pose proof (fetch_storage (mkRequest DELETE (API_URL +:+ "/" +:+ i) None) w) as Hf.
  destruct (fetch _ None w) as [[resp | e |] w1]; simpl in Hf; [| | done].
  - assert (Hfb : match deleteLocalEntry i w1 with
                  | (Return _, w') =>
                      exists xs, mirror_holds (localStorage w) xs /\
                        localStorage w' =
                        <[STORAGE_KEY := stringify (filter (others i) xs)]> (localStorage w)
                  | (_, w') => localStorage w' = localStorage w
                  end).
    { pose proof (deleteLocalEntry_settled w1 i) as H. rewrite Hf in H. exact H. }
    destruct (ok resp); simpl; [| exact Hfb].
    pose proof (getLocalEntries_inv w1) as Hg.
    destruct (getLocalEntries w1) as [[xs | e |] w2]; [| by destruct Hg as [-> _] | done].
    destruct Hg as [-> Hm]. rewrite Hf in Hm.
    pose proof (setItem_inv w1 (stringify (filter (others i) xs))) as H.
    destruct (setItem _ _ w1) as [[[] | e |] w2]; simpl; subst; try done.
    exists xs. split; [done |]. simpl. by rewrite Hf.
  - pose proof (deleteLocalEntry_settled w1 i) as H. by rewrite Hf in H.
Qed.

Lemma getEntries_settled w :
  match getEntries w with
  | (Return ys, w') =>
      localStorage w' = <[STORAGE_KEY := stringify ys]> (localStorage w) \/
      (localStorage w' = localStorage w /\ mirror_holds (localStorage w) ys)
  | (Throw _, w') =>
      localStorage w' = localStorage w /\
      mirror_unreadable (number := number) (localStorage w)
  | (Pending, w') => localStorage w' = localStorage w
  end.
Proof.
  unfold getEntries, try_catch, bind.
  pose proof (fetch_storage (mkRequest GET API_URL None) w) as Hf.
  destruct (fetch _ None w) as [[resp | e |] w1]; simpl in Hf; [| | done].
  - assert (Hfb : match getLocalEntries w1 with
                  | (Return ys, w') =>
                      localStorage w' = <[STORAGE_KEY := stringify ys]> (localStorage w) \/
                      (localStorage w' = localStorage w /\ mirror_holds (localStorage w) ys)
                  | (Throw _, w') =>
                      localStorage w' = localStorage w /\
                      mirror_unreadable (number := number) (localStorage w)
                  | (Pending, w') => localStorage w' = localStorage w
                  end).
    { pose proof (getLocalEntries_inv w1) as Hg. rewrite Hf in Hg.
      destruct (getLocalEntries w1) as [[ys | e |] w2]; [| | done];
        destruct Hg as [-> Hm]; [by right | done]. }
    destruct (ok resp); simpl; [| exact Hfb].
    unfold response_json. destruct (parse (text resp)) as [data |]; simpl; [| exact Hfb].
    pose proof (setItem_inv w1 (stringify data)) as H.
    destruct (setItem _ _ w1) as [[[] | e |] w2]; simpl; subst; try done.
    left. simpl. by rewrite Hf.
  - pose proof (getLocalEntries_inv w1) as Hg. rewrite Hf in Hg.
    destruct (getLocalEntries w1) as [[ys | e' |] w2]; [| | done];
      destruct Hg as [-> Hm]; [by right | done].
Qed.

Lemma importEntries_settled w xs :
  match importEntries xs w with
  | (Return _, w') => localStorage w' = <[STORAGE_KEY := stringify xs]> (localStorage w)
  | (_, w') => localStorage w' = localStorage w
  end.
Proof.
  unfold importEntries. pose proof (setItem_inv w (stringify xs)) as H.
  destruct (setItem _ _ w) as [[[] | e |] w2]; by subst.
Qed.

(** X11. A call of the gateway that does not return a value (it throws, or
    stays pending) leaves [localStorage] exactly as it was: no call fails
    half way through a write. *)
Theorem failed_calls_leave_store w entry i xs :
  (forall r w', getEntries w = (r, w') ->
                (forall ys, r <> Return ys) -> localStorage w' = localStorage w) /\
  (forall r w', createEntry entry w = (r, w') ->
                (forall x, r <> Return x) -> localStorage w' = localStorage w) /\
  (forall r w', deleteEntry i w = (r, w') ->
                r <> Return tt -> localStorage w' = localStorage w) /\
  (forall r w', importEntries xs w = (r, w') ->
                r <> Return tt -> localStorage w' = localStorage w).
Proof.
  split; [| split; [| split]]; intros r w' Hrun Hno.
  - pose proof (getEntries_settled w) as H. rewrite Hrun in H.
    destruct r as [ys | e |]; [by destruct (Hno ys) | by destruct H | done].
  - pose proof (createEntry_settled w entry) as H. rewrite Hrun in H.
    destruct r as [x | e |]; [by destruct (Hno x) | done | done].
  - pose proof (deleteEntry_settled w i) as H. rewrite Hrun in H.
    destruct r as [[] | e |]; done.
  - pose proof (importEntries_settled w xs) as H. rewrite Hrun in H.
    destruct r as [[] | e |]; done.
Qed.

Section Lawful.
Hypothesis lawful : forall xs : list (JournalEntry number), json_safe xs.

Lemma getEntries_post w ys w' :
  getEntries w = (Return ys, w') -> mirror_holds (localStorage w') ys.
Proof.
  intros Hrun. pose proof (getEntries_settled w) as H. rewrite Hrun in H.
  destruct H as [-> | [-> Hm]]; [by apply mirror_holds_stored | done].
Qed.

Lemma createEntry_post w entry x w' xs :
  mirror_holds (localStorage w) xs ->
  createEntry entry w = (Return x, w') ->
  mirror_holds (localStorage w') (xs ++ [x]).
Proof.
  intros Hm Hrun. pose proof (createEntry_settled w entry) as H. rewrite Hrun in H.
  destruct H as (xs' & Hm' & ->). rewrite (mirror_holds_inj _ _ _ Hm Hm').
  by apply mirror_holds_stored.
Qed.

Lemma deleteEntry_post w i w' xs :
  mirror_holds (localStorage w) xs ->
  deleteEntry i w = (Return tt, w') ->
  mirror_holds (localStorage w') (filter (others i) xs).
Proof.
  intros Hm Hrun. pose proof (deleteEntry_settled w i) as H. rewrite Hrun in H.
  destruct H as (xs' & Hm' & ->). rewrite (mirror_holds_inj _ _ _ Hm Hm').
  by apply mirror_holds_stored.
Qed.

(** X12. With a codec that reads back what it writes, whatever path a call
    takes: the collection [getEntries] returns is the collection the mirror
    holds afterwards; when [createEntry] returns an entry the mirror was
    readable and now holds its former entries followed by that entry; when
    [deleteEntry] returns the mirror was readable and now holds its former
    entries without those of the given id. *)
Theorem returns_match_mirror w entry i :
  (forall ys w', getEntries w = (Return ys, w') ->
                 mirror_holds (localStorage w') ys) /\
  (forall x w', createEntry entry w = (Return x, w') ->
                exists xs, mirror_holds (localStorage w) xs /\
                           mirror_holds (localStorage w') (xs ++ [x])) /\
  (forall w', deleteEntry i w = (Return tt, w') ->
              exists xs, mirror_holds (localStorage w) xs /\
                         mirror_holds (localStorage w') (filter (others i) xs)).
Proof.
  split; [| split].
  - intros ys w'. apply getEntries_post.
  - intros x w' Hrun. pose proof (createEntry_settled w entry) as H.
    rewrite Hrun in H. destruct H as (xs & Hm & ->).
    exists xs. split; [done | by apply mirror_holds_stored].
  - intros w' Hrun. pose proof (deleteEntry_settled w i) as H.
    rewrite Hrun in H. destruct H as (xs & Hm & ->).
    exists xs. split; [done | by apply mirror_holds_stored].
Qed.
End Lawful.
End Outcomes.

Section Page.
Context {number : Type} {R : Type}.
Context `{Rm : !Remote R} `{WS : !WebStorage} `{DF : !DateFormat}.
Context `{JEs : !Json (list (JournalEntry number))}.
Context `{JE : !Json (JournalEntry number)}.
Context `{JN : !Json (NewEntry number)}.

Implicit Types (w : World R) (a : App number) (xs : list (JournalEntry number)).

Lemma checkConnection_total w :
  exists b w', checkConnection w = (Return b, w') /\ localStorage w' = localStorage w.
Proof.
  unfold checkConnection, try_catch, bind, fetch.
  destruct (serve _ (remote w)) as [[| t | t resp] r']; simpl;
    try destruct (t <? PROBE_TIMEOUT_MS)%N; simpl; by eexists _, _.
Qed.

Section Lawful.
Hypothesis lawful : forall xs : list (JournalEntry number), json_safe xs.

Lemma submit_in_sync data a w :
  in_sync a w ->
  let '(_, a', w') := handleFormSubmit data a w in in_sync a' w'.
Proof.
  intros Hsync. unfold handleFormSubmit.
  destruct (tempMarker a) as [marker |]; [| done].
  unfold ui_bind, ui_finally, ui_try, update, call, alert.
  set (payload := mkNew _ _ _ _ _ _ _).
  pose proof (createEntry_settled w payload) as H.
  destruct (createEntry payload w) as [[x | e |] w1] eqn:Hrun; unfold in_sync in *; simpl.
  - by apply (createEntry_post lawful w payload).
  - by rewrite H.
  - by rewrite H.
Qed.

Lemma delete_in_sync confirmed i a w :
  in_sync a w ->
  let '(_, a', w') := handleDeleteEntry confirmed i a w in in_sync a' w'.
Proof.
  intros Hsync. unfold handleDeleteEntry. destruct confirmed; [| done].
  unfold ui_bind, ui_finally, ui_try, update, call, alert.
  pose proof (deleteEntry_settled w i) as H.
  destruct (deleteEntry i w) as [[[] | e |] w1] eqn:Hrun; unfold in_sync in *; simpl.
  - destruct (decide (selectedEntryId a = Some i)); simpl;
      by apply (deleteEntry_post lawful w i).
  - by rewrite H.
  - by rewrite H.
Qed.

Lemma import_in_sync file a w :
  in_sync a w ->
  let '(_, a', w') := handleImport file a w in in_sync a' w'.
Proof.
  intros Hsync. unfold handleImport. destruct file as [[| | xs] |]; try done.
  unfold ui_bind, ui_finally, ui_try, update, call, alert.
  pose proof (importEntries_settled w xs) as H.
  destruct (importEntries xs w) as [[[] | e |] w1] eqn:Hrun; unfold in_sync in *; simpl.
  - rewrite H. by apply mirror_holds_stored.
  - by rewrite H.
  - by rewrite H.
Qed.

(** X13. With a codec that reads back what it writes, the handlers of the
    page keep its list and the mirror in step: if the page shows what the
    mirror holds, it still does after a submission, a deletion, an import, a
    connectivity poll, a click on the map or a selection, however the call
    to the gateway ends. *)
Theorem page_in_sync a w data confirmed i file coords :
  in_sync a w ->
  (let '(_, a', w') := handleFormSubmit data a w in in_sync a' w') /\
  (let '(_, a', w') := handleDeleteEntry confirmed i a w in in_sync a' w') /\
  (let '(_, a', w') := handleImport file a w in in_sync a' w') /\
  (let '(_, a', w') := pollConnection a w in in_sync a' w') /\
  (let '(_, a', w') := handleMapClick coords a w in in_sync a' w') /\
  (let '(_, a', w') := handleEntrySelect i a w in in_sync a' w').
Proof.
  intros Hsync.
  split; [by apply submit_in_sync |].
  split; [by apply delete_in_sync |].
  split; [by apply import_in_sync |].
  split; [| done].
  unfold pollConnection, ui_bind, call, update.
  destruct (checkConnection_total w) as (b & w' & -> & Hst).
  unfold in_sync in *. simpl. by rewrite Hst.
Qed.

(** X14. The first load never throws. When it ends the loading flag is
    down and the page shows what the mirror holds, unless the mirror cannot
    be read, in which case the list of the page is left as it was. While the
    list request is pending the loading flag stays as it was. *)
Theorem initApp_loads a w :
  match initApp a w with
  | (Return _, a', w') =>
      isLoading a' = false /\
      (in_sync a' w' \/
       mirror_unreadable (number := number) (localStorage w') /\ entries a' = entries a)
  | (Throw _, _, _) => False
  | (Pending, a', w') => isLoading a' = isLoading a /\ entries a' = entries a
  end.
Proof.
  unfold initApp, ui_bind, ui_finally, ui_try, update, call, ui_ret.
  destruct (checkConnection_total w) as (b & w1 & -> & Hst).
  pose proof (getEntries_settled w1) as H.
  destruct (getEntries w1) as [[ys | e |] w2] eqn:Hrun; simpl.
  - split; [done |]. left. unfold in_sync. simpl.
    by apply (getEntries_post lawful w1).
  - split; [done |]. right. destruct H as [-> Hbad]. by split.
  - done.
Qed.
End Lawful.

(** X15. The handlers that call the gateway catch everything: a submission
    or a deletion never throws, and when it ends the syncing flag is down
    (or nothing was done at all); while the request is pending the flag is
    up. An import always ends. *)
Theorem handlers_catch_everything a w data confirmed i file :
  (match handleFormSubmit data a w with
   | (Return _, a', _) => a' = a \/ isSyncing a' = false
   | (Throw _, _, _) => False
   | (Pending, a', _) => isSyncing a' = true
   end) /\
  (match handleDeleteEntry confirmed i a w with
   | (Return _, a', _) => a' = a \/ isSyncing a' = false
   | (Throw _, _, _) => False
   | (Pending, a', _) => isSyncing a' = true
   end) /\
  (match handleImport file a w with
   | (Return _, _, _) => True
   | _ => False
   end).
Proof.
  split; [| split].
  - unfold handleFormSubmit. destruct (tempMarker a) as [marker |]; [| by left].
    unfold ui_bind, ui_finally, ui_try, update, call, alert.
    set (payload := mkNew _ _ _ _ _ _ _).
    destruct (createEntry payload w) as [[x | e |] w1]; simpl;
      [by right | by right | done].
  - unfold handleDeleteEntry. destruct confirmed; [| by left].
    unfold ui_bind, ui_finally, ui_try, update, call, alert.
    destruct (deleteEntry i w) as [[[] | e |] w1]; simpl; [| by right | done].
    destruct (decide (selectedEntryId a = Some i)); simpl; by right.
  - unfold handleImport. destruct file as [[| | xs] |]; try done.
    unfold ui_bind, ui_try, update, call, alert.
    pose proof (importEntries_settled w xs) as H.
    unfold importEntries, setItem in *. by destruct (admits _ _ _).
Qed.

Lemma find_filter_others i j (l : list (JournalEntry number)) :
  j <> i ->
  List.find (fun e => String.eqb (id e) j) (filter (others i) l) =
  List.find (fun e => String.eqb (id e) j) l.
Proof.
  intros Hji. induction l as [| e l IH]; [done |].
  rewrite filter_cons. destruct (decide (id e <> i)) as [Hne | Heq]; simpl.
  - by rewrite IH.
  - destruct (String.eqb_spec (id e) j) as [Hej | _]; [| done].
    destruct Heq. congruence.
Qed.

(** X16. A confirmed deletion that ends has either removed from the page
    every entry with that id, closing the detail panel if it showed one of
    them and keeping it otherwise, or it has shown "Action failed." and left
    the list, the selection and the store as they were. *)
Theorem delete_updates_view i a w a' w' :
  handleDeleteEntry true i a w = (Return tt, a', w') ->
  (alerts a' = alerts a /\
   entries a' = filter (others i) (entries a) /\
   (selectedEntryId a = Some i -> selectedEntry a' = None) /\
   (selectedEntryId a <> Some i -> selectedEntry a' = selectedEntry a)) \/
  (alerts a' = alerts a ++ ["Action failed."] /\
   entries a' = entries a /\
   selectedEntryId a' = selectedEntryId a /\
   localStorage w' = localStorage w).
Proof.
  unfold handleDeleteEntry, ui_bind, ui_finally, ui_try, update, call, alert, ui_ret.
  pose proof (deleteEntry_settled w i) as H.
  destruct (deleteEntry i w) as [[[] | e |] w1]; simpl.
  - destruct (decide (selectedEntryId a = Some i)) as [Hsel | Hsel]; simpl;
      intros [= <- <-]; left; (split; [done | split; [done | split]]); try done.
    unfold selectedEntry. simpl. intros _.
    destruct (selectedEntryId a) as [j |]; [| done].
    apply find_filter_others. congruence.
  - intros [= <- <-]. by right.
  - done.
Qed.

(** X17. A submission with a marker on the map that ends has either added
    one entry at the end of the list, closed the form and cleared the
    marker, or it has shown its failure message and left the list, the form,
    the marker and the store as they were: when the message says the entry
    was saved locally, nothing was saved. *)
Theorem submit_outcomes data a w a' w' :
  is_Some (tempMarker a) ->
  handleFormSubmit data a w = (Return tt, a', w') ->
  (exists saved,
      entries a' = entries a ++ [saved] /\ alerts a' = alerts a /\
      isFormOpen a' = false /\ tempMarker a' = None) \/
  (alerts a' = alerts a ++ ["Failed to save to cloud, saved locally instead."] /\
   entries a' = entries a /\ localStorage w' = localStorage w /\
   isFormOpen a' = isFormOpen a /\ tempMarker a' = tempMarker a).
Proof.
  intros [marker Hmk]. unfold handleFormSubmit. rewrite Hmk.
  unfold ui_bind, ui_finally, ui_try, update, call, alert, ui_ret.
  set (payload := mkNew _ _ _ _ _ _ _).
  pose proof (createEntry_settled w payload) as H.
  destruct (createEntry payload w) as [[x | e |] w1]; simpl.
  - intros [= <- <-]. left. by exists x.
  - intros [= <- <-]. right. repeat split; done.
  - done.
Qed.

(** X18. An import of a well-formed collection that the store refuses
    shows the same message as a file that is not JSON, and changes nothing;
    a file holding JSON that is no array does nothing at all, without a
    message. *)
Theorem import_refused_reported_invalid xs a w :
  admits (localStorage w) STORAGE_KEY (stringify xs) = false ->
  handleImport (Some (EntryArray xs)) a w =
    (Return tt, shown "Failed to import. Invalid file format." a, w) /\
  handleImport (Some NotJson) a w =
    (Return tt, shown "Failed to import. Invalid file format." a, w) /\
  handleImport (Some NotArray) a w = (Return tt, a, w).
Proof.
  intros Ha. split; [| done].
  unfold handleImport, ui_bind, ui_try, update, call, alert, importEntries.
  by rewrite setItem_refused.
Qed.
End Page.

(** ** The AI helpers and the journey summary *)

Section GeminiFacts.
Context {number : Type}.
Context `{AI : !GenAI} `{TX : !Text} `{NT : !NumberText number} `{DF : !DateFormat}.

Lemma or_else_nonempty s fallback :
  fallback <> EmptyString -> or_else s fallback <> EmptyString.
Proof.
  intros Hf. unfold or_else. destruct s as [t |]; [| done].
  by destruct (String.eqb_spec t EmptyString).
Qed.

Lemma or_else_cases s fallback :
  or_else s fallback = fallback \/
  (s = Some (or_else s fallback) /\ or_else s fallback <> EmptyString).
Proof.
  unfold or_else. destruct s as [t |]; [| by left].
  destruct (String.eqb_spec t EmptyString); [by left | by right].
Qed.

(** [s || fallback], case by case. *)
Lemma or_else_spec s fallback :
  match s with
  | Some t =>
      (t <> EmptyString -> or_else s fallback = t) /\
      (t = EmptyString -> or_else s fallback = fallback)
  | None => or_else s fallback = fallback
  end.
Proof.
  unfold or_else. destruct s as [t |]; [| done].
  by destruct (String.eqb_spec t EmptyString).
Qed.

Lemma generateTravelSummary_cases (entries : list (JournalEntry number)) :
  let '(story, requests) := generateTravelSummary entries in
  story <> EmptyString /\
  (entries = [] -> story = "No entries selected." /\ requests = []) /\
  (entries <> [] ->
   requests = [mkGenRequest TEXT_MODEL (Prompt (summary_prompt entries)) None] /\
   match generateContent (mkGenRequest TEXT_MODEL (Prompt (summary_prompt entries)) None) with
   | None => story = "An error occurred."
   | Some response =>
       match response_text response with
       | Some t =>
           (t <> EmptyString -> story = t) /\
           (t = EmptyString -> story = "Could not generate summary.")
       | None => story = "Could not generate summary."
       end
   end).
Proof.
  unfold generateTravelSummary. destruct entries as [| e l]; [done |].
  set (req := mkGenRequest _ _ _).
  destruct (generateContent req) as [response |]; [| done].
  split; [by apply or_else_nonempty | split; [done |]].
  intros _. split; [done |].
  apply (or_else_spec (response_text response)).
Qed.

(** X19. The travel summary is never the empty text. For no entries it is
    a fixed text and no request is sent; otherwise one request is sent, and
    the summary is the text of the model's answer when it has one that is
    not empty, one fixed text when it has none, another when the call
    fails. *)
Theorem generateTravelSummary_total (entries : list (JournalEntry number)) :
  let '(story, requests) := generateTravelSummary entries in
  story <> EmptyString /\
  (entries = [] -> story = "No entries selected." /\ requests = []) /\
  (entries <> [] ->
   requests = [mkGenRequest TEXT_MODEL (Prompt (summary_prompt entries)) None] /\
   match generateContent (mkGenRequest TEXT_MODEL (Prompt (summary_prompt entries)) None) with
   | None => story = "An error occurred."
   | Some response =>
       match response_text response with
       | Some t =>
           (t <> EmptyString -> story = t) /\
           (t = EmptyString -> story = "Could not generate summary.")
       | None => story = "Could not generate summary."
       end
   end).
Proof.
  pose proof (generateTravelSummary_cases entries) as H.
  destruct (generateTravelSummary entries) as [story requests].
  destruct H as (Hne & Hnil & Hsome). split; [exact Hne | split; [exact Hnil | exact Hsome]].
Qed.

(** X20. Polishing a note never loses it: a blank note comes back as it
    is and no request is sent; otherwise the result is the note itself, or
    the trimmed answer of the model when that is not empty. *)
Theorem enhanceEntryNote_keeps_note (rawNote category : string) :
  let '(polished, requests) := enhanceEntryNote rawNote category in
  (trim rawNote = EmptyString -> polished = rawNote /\ requests = []) /\
  (polished = rawNote \/
   polished <> EmptyString /\
   exists response t,
     generateContent (mkGenRequest TEXT_MODEL (Prompt (enhance_prompt rawNote category)) None)
       = Some response /\
     response_text response = Some t /\ polished = trim t).
Proof.
  unfold enhanceEntryNote.
  destruct (String.eqb_spec (trim rawNote) EmptyString) as [Hblank | Hnb]; [by split; [| left] |].
  set (req := mkGenRequest _ _ _).
  destruct (generateContent req) as [response |]; [| by split; [| left]].
  split; [done |].
  destruct (or_else_cases (option_map trim (response_text response)) rawNote)
    as [-> | [Hs Hne]]; [by left |].
  right. split; [done |]. exists response.
  destruct (response_text response) as [t |]; [| done].
  exists t. simpl in Hs. injection Hs as Hs. done.
Qed.

(** X22. The place insight is never the empty text and costs exactly one
    request: it is the trimmed text of the model's answer when that is not
    empty, one fixed text when the answer has no text or only blanks,
    another when the call fails. *)
Theorem getPlaceContext_never_blank (la lo : number) :
  let '(insight, requests) := getPlaceContext la lo in
  insight <> EmptyString /\
  requests = [mkGenRequest TEXT_MODEL (Prompt (place_prompt la lo)) None] /\
  match generateContent (mkGenRequest TEXT_MODEL (Prompt (place_prompt la lo)) None) with
  | None => insight = "Agent is offline."
  | Some response =>
      match response_text response with
      | Some t =>
          (trim t <> EmptyString -> insight = trim t) /\
          (trim t = EmptyString -> insight = "A beautiful mysterious spot.")
      | None => insight = "A beautiful mysterious spot."
      end
  end.
Proof.
  unfold getPlaceContext. set (req := mkGenRequest _ _ _).
  destruct (generateContent req) as [response |]; [| done].
  split; [by apply or_else_nonempty | split; [done |]].
  pose proof (or_else_spec (option_map trim (response_text response))
                           "A beautiful mysterious spot.") as H.
  by destruct (response_text response) as [t |].
Qed.

Lemma first_image_spec (ps : list Part) :
  match first_image ps with
  | Some url =>
      exists before p after d,
        ps = before ++ p :: after /\
        Forall (fun q => inlineData q = None) before /\
        inlineData p = Some d /\
        url = "data:" +:+ mimeType d +:+ ";base64," +:+ data d
  | None => Forall (fun q => inlineData q = None) ps
  end.
Proof.
  induction ps as [| p ps IH]; [by constructor |]. simpl.
  destruct (inlineData p) as [d |] eqn:Hd.
  - exists [], p, ps, d. repeat split; done.
  - destruct (first_image ps) as [url |].
    + destruct IH as (before & q & after & d & -> & Hb & Hq & ->).
      exists (p :: before), q, after, d. repeat split; try done. by constructor.
    + by constructor.
Qed.

(** X21. A blank note paints nothing and sends no request. A painting,
    when there is one, is the data URL of the first part with inline data
    among the parts of the first candidate. *)
Theorem paintMemory_first_image (note : string) :
  let '(image, requests) := paintMemory note in
  (trim note = EmptyString -> image = None /\ requests = []) /\
  (forall url, image = Some url ->
     exists response ps before p after d,
       generateContent (mkGenRequest IMAGE_MODEL (TextParts [paint_prompt note]) (Some "1:1"))
         = Some response /\
       first_parts response = Some ps /\
       ps = before ++ p :: after /\
       Forall (fun q => inlineData q = None) before /\
       inlineData p = Some d /\
       url = "data:" +:+ mimeType d +:+ ";base64," +:+ data d).
Proof.
  unfold paintMemory.
  destruct (String.eqb_spec (trim note) EmptyString) as [Hblank | Hnb]; [done |].
  set (req := mkGenRequest _ _ _).
  destruct (generateContent req) as [response |]; [| done].
  destruct (first_parts response) as [ps |] eqn:Hps; [| done].
  split; [done |]. intros url Hurl.
  pose proof (first_image_spec ps) as H. rewrite Hurl in H.
  destruct H as (before & p & after & d & H1 & H2 & H3 & H4).
  exists response, ps, before, p, after, d. repeat split; done.
Qed.

Lemma range_filter_spec (range : DateRange) (entries : list (JournalEntry number)) e :
  In e (range_filter range entries) <->
  In e entries /\
  exists s f t,
    getTime (range_start range) = Some s /\
    getTime (range_end range) = Some f /\
    getTime (timestamp e) = Some t /\
    s <= t <= f + 86400000.
Proof.
  unfold range_filter. rewrite filter_In. unfold within.
  destruct (getTime (range_start range)) as [s |],
           (getTime (range_end range)) as [f |],
           (getTime (timestamp e)) as [t |]; simpl;
    try (split; [intros [_ [=]] | intros [_ (? & ? & ? & ? & ? & ? & ?)]; done]).
  rewrite andb_true_iff, !Z.leb_le. split.
  - intros [Hin Hr]. split; [done |]. by exists s, f, t.
  - intros [Hin (s' & f' & t' & [= <-] & [= <-] & [= <-] & Hr)]. done.
Qed.

(** The entries [range_filter] keeps, with the test written out. *)
Lemma range_filter_selected (range : DateRange) (entries : list (JournalEntry number)) :
  range_filter range entries =
  List.filter
    (fun e =>
       match getTime (range_start range), getTime (range_end range),
             getTime (timestamp e) with
       | Some s, Some f, Some t => ((s <=? t) && (t <=? f + 86400000))%Z
       | _, _, _ => false
       end) entries.
Proof.
  unfold range_filter, within. apply List.filter_ext. intros e.
  by destruct (getTime (range_start range)), (getTime (range_end range)),
              (getTime (timestamp e)).
Qed.

(** X23. The summary of the page is the summary of exactly the entries
    whose time lies between the start of the range and one day past its
    end, bounds included, in the order of the page; an entry, or a bound,
    whose date cannot be read selects nothing. With no entry selected the
    story is a fixed text and no request is sent; otherwise the one request
    carries the prompt built from the selected entries, and the story is
    the model's text, or the fixed text of the case. The story is never
    empty and the generating flag ends down. *)
Theorem handleGenerateSummary_range (range : DateRange)
    (entries : list (JournalEntry number)) (j : Journey) :
  let selected :=
    List.filter
      (fun e =>
         match getTime (range_start range), getTime (range_end range),
               getTime (timestamp e) with
         | Some s, Some f, Some t => ((s <=? t) && (t <=? f + 86400000))%Z
         | _, _, _ => false
         end) entries in
  let request := mkGenRequest TEXT_MODEL (Prompt (summary_prompt selected)) None in
  let '(j', requests) := handleGenerateSummary range entries j in
  isGenerating j' = false /\
  (exists story, travelStory j' = Some story /\ story <> EmptyString) /\
  (forall e, In e selected <->
     In e entries /\
     exists s f t,
       getTime (range_start range) = Some s /\
       getTime (range_end range) = Some f /\
       getTime (timestamp e) = Some t /\
       s <= t <= f + 86400000) /\
  (getTime (range_start range) = None \/ getTime (range_end range) = None ->
   selected = []) /\
  (selected = [] ->
   travelStory j' = Some "No entries selected." /\ requests = []) /\
  (selected <> [] ->
   requests = [request] /\
   match generateContent request with
   | None => travelStory j' = Some "An error occurred."
   | Some response =>
       match response_text response with
       | Some t =>
           (t <> EmptyString -> travelStory j' = Some t) /\
           (t = EmptyString -> travelStory j' = Some "Could not generate summary.")
       | None => travelStory j' = Some "Could not generate summary."
       end
   end).
Proof.
  intros selected request. unfold handleGenerateSummary.
  assert (Hsel : range_filter range entries = selected)
    by apply range_filter_selected.
  assert (Hin : forall e, In e selected <->
     In e entries /\
     exists s f t,
       getTime (range_start range) = Some s /\
       getTime (range_end range) = Some f /\
       getTime (timestamp e) = Some t /\
       s <= t <= f + 86400000).
  { intros e. rewrite <- Hsel. apply range_filter_spec. }
  rewrite Hsel.
  pose proof (generateTravelSummary_cases selected) as H. fold request in H.
  destruct (generateTravelSummary selected) as [story requests].
  destruct H as (Hne & Hempty & Hsome). simpl.
  split; [done |]. split; [by exists story |]. split; [exact Hin |].
  split; [| split].
  - intros Hnan. destruct selected as [| e l] eqn:Hf; [done |].
    assert (He : In e (e :: l)) by by left.
    apply Hin in He. destruct He as (_ & s & f & t & Hs & Hfin & _).
    destruct Hnan; congruence.
  - intros Hnil. destruct (Hempty Hnil) as [-> ->]. done.
  - intros Hsome'. destruct (Hsome Hsome') as [-> Hstory]. split; [done |].
    destruct (generateContent request) as [response |]; [| by rewrite Hstory].
    destruct (response_text response) as [t |]; [| by rewrite Hstory].
    destruct Hstory as [H1 H2]. split; intros Ht; [by rewrite H1 | by rewrite H2].
Qed.
End GeminiFacts.

(** ** The form and the marker *)

Section Panel.
Context {number : Type} {R : Type}.
Context `{Rm : !Remote R} `{WS : !WebStorage} `{DF : !DateFormat}.
Context `{JEs : !Json (list (JournalEntry number))}.
Context `{JE : !Json (JournalEntry number)}.
Context `{JN : !Json (NewEntry number)}.

Lemma checkConnection_trace (w : World R) :
  exists b w' probe,
    checkConnection w = (Return b, w') /\
    trace w' = trace w ++ probe /\
    (probe = [Sent GET_ping] \/ probe = [Sent GET_ping; Aborted GET_ping]) /\
    remote w' = (serve GET_ping (remote w)).2 /\
    localStorage w' = localStorage w.
Proof.
  unfold checkConnection, try_catch, bind, fetch.
  change (mkRequest GET (BASE_URL +:+ "/ping") None) with GET_ping.
  destruct (serve GET_ping (remote w)) as [[| t | t resp] r']; simpl;
    try destruct (t <? PROBE_TIMEOUT_MS)%N; simpl;
    eexists _, _, _; (split; [reflexivity |]); simpl;
    (split; [reflexivity |]); (split; [by (left + right) | done]).
Qed.

Ltac page_step :=
  unfold form_has_marker, handleFormSubmit, handleDeleteEntry, handleImport,
    pollConnection, initApp, handleMapClick, handleEntrySelect, closePanel,
    cancelForm, ui_bind, ui_finally, ui_try, update, alert, call, ui_ret.

(** X24. The form is open exactly while a marker is on the map, and then no
    entry is selected: every handler of the page keeps this, however its
    call to the gateway ends. So the form is never shown without the marker
    a submission needs. *)
Theorem form_marker_invariant (a : App number) (w : World R) data confirmed i file coords :
  form_has_marker a ->
  (let '(_, a', _) := handleMapClick (R := R) coords a w in form_has_marker a') /\
  (let '(_, a', _) := handleEntrySelect (R := R) i a w in form_has_marker a') /\
  (let '(_, a', _) := closePanel (R := R) a w in form_has_marker a') /\
  (let '(_, a', _) := cancelForm (R := R) a w in form_has_marker a') /\
  (let '(_, a', _) := handleFormSubmit data a w in form_has_marker a') /\
  (let '(_, a', _) := handleDeleteEntry confirmed i a w in form_has_marker a') /\
  (let '(_, a', _) := handleImport file a w in form_has_marker a') /\
  (let '(_, a', _) := initApp a w in form_has_marker a') /\
  (let '(_, a', _) := pollConnection a w in form_has_marker a').
Proof.
  intros [Hform Hsel].
  assert (Hnone : ~ is_Some (@None (Coordinates number))) by (by intros [? ?]).
  split; [| split; [| split; [| split; [| split; [| split; [| split; [| split]]]]]]].
  - page_step; simpl. split; [split; [by eexists | done] | done].
  - page_step; simpl. split; [split; [done | by intros ?%Hnone] | done].
  - page_step; simpl. split; [split; [done | by intros ?%Hnone] | done].
  - page_step; simpl. split; [split; [done | by intros ?%Hnone] | done].
  - page_step. destruct (tempMarker a) as [marker |] eqn:Hm; simpl; [| by rewrite Hm].
    destruct (createEntry _ _) as [[x | e |] w']; simpl; rewrite ?Hm.
    + split; [split; [done | by intros ?%Hnone] | done].
    + done.
    + done.
  - page_step. destruct confirmed; simpl; [| done].
    destruct (deleteEntry _ _) as [[[] | e |] w']; simpl; [| done | done].
    destruct (decide (selectedEntryId a = Some i)); simpl; [| done].
    split; [done | done].
  - page_step. destruct file as [[| | xs] |]; simpl; try done.
    destruct (importEntries _ _) as [[[] | e |] w']; simpl; done.
  - page_step.
    destruct (checkConnection_trace w) as (b & w1 & ? & -> & _). simpl.
    destruct (getEntries w1) as [[xs | e |] w']; simpl; done.
  - page_step.
    destruct (checkConnection_trace w) as (b & w1 & ? & -> & _). by simpl.
Qed.

(** X25. The first load sends the probe and then the list request,
    whatever the probe found: the answer of the probe only sets the
    indicator. A poll sends the probe alone, and touches neither the list
    nor the store. *)
Theorem initApp_requests (a : App number) (w : World R) :
  exists online w1 probe,
    checkConnection w = (Return online, w1) /\
    (probe = [Sent GET_ping] \/ probe = [Sent GET_ping; Aborted GET_ping]) /\
    (let '(_, a', w') := initApp a w in
     isBackendOnline a' = Some online /\
     trace w' = trace w ++ probe ++ [Sent GET_entries]) /\
    (let '(_, a', w') := pollConnection a w in
     isBackendOnline a' = Some online /\
     trace w' = trace w ++ probe /\
     entries a' = entries a /\ localStorage w' = localStorage w).
Proof.
  destruct (checkConnection_trace w) as (online & w1 & probe & Hrun & Htr & Hprobe & _ & Hst).
  exists online, w1, probe. split; [done | split; [done | split]].
  - page_step. rewrite Hrun. simpl.
    destruct (after_request_facts _ _ _ (getEntries_shape w1)) as (Ht & _).
    destruct (getEntries w1) as [[xs | e |] w']; simpl in *;
      by rewrite Ht, Htr, <- app_assoc.
  - page_step. rewrite Hrun. by simpl.
Qed.

End Panel.

(** ** The entry form *)

Section FormFacts.
Context {number File : Type}.
Context `{AI : !GenAI} `{TX : !Text} `{NT : !NumberText number} `{FS : !Files File}.

Lemma first_image_nonempty (ps : list Part) url :
  first_image ps = Some url -> url <> EmptyString.
Proof.
  induction ps as [| p ps IH]; [done |]. simpl.
  destruct (inlineData p) as [d |]; [| done].
  intros [= <-]. done.
Qed.

Lemma paintMemory_nonempty (note : string) url :
  (paintMemory note).1 = Some url -> url <> EmptyString.
Proof.
  unfold paintMemory. destruct (String.eqb _ _); [done |].
  destruct (generateContent _) as [response |]; [| done].
  destruct (first_parts response) as [ps |]; [| done].
  apply first_image_nonempty.
Qed.

(** X26. Painting keeps the note. With a blank note it only shows a
    message and sends nothing. Otherwise, when the model gives a painting
    the preview shows it and the chosen file is dropped, so that a
    submission hands over the painting, until another file is chosen; when
    it gives none, a message is shown and the preview and the chosen file
    are kept. *)
Theorem handlePaint_outcomes (f : EntryForm.Form File) :
  let '(f', requests) := EntryForm.handlePaint f in
  EntryForm.note f' = EntryForm.note f /\
  (trim (EntryForm.note f) = EmptyString ->
   requests = [] /\
   f' = EntryForm.alert "Please write a note first to inspire the AI." f) /\
  (trim (EntryForm.note f) <> EmptyString ->
   EntryForm.isPainting f' = false /\
   requests = (paintMemory (EntryForm.note f)).2 /\
   match (paintMemory (EntryForm.note f)).1 with
   | Some url =>
       EntryForm.previewUrl f' = Some url /\ EntryForm.photo f' = None /\
       EntryForm.alerts f' = EntryForm.alerts f /\
       EntryForm.finalPhotoUrl f' = Some (Some url) /\
       (forall file, EntryForm.finalPhotoUrl (EntryForm.handleFileChange (Some file) f')
                     = option_map Some (readAsDataURL file))
   | None =>
       EntryForm.alerts f' = EntryForm.alerts f ++
         ["AI failed to paint this memory. Try a different description."] /\
       EntryForm.previewUrl f' = EntryForm.previewUrl f /\
       EntryForm.photo f' = EntryForm.photo f
   end).
Proof.
  unfold EntryForm.handlePaint.
  destruct (String.eqb_spec (trim (EntryForm.note f)) EmptyString) as [Hb | Hb].
  - split; [done | split; [done | done]].
  - pose proof (paintMemory_nonempty (EntryForm.note f)) as Hne.
    destruct (paintMemory (EntryForm.note f)) as [[url |] requests]; simpl in *.
    + specialize (Hne url eq_refl).
      destruct (String.eqb_spec url EmptyString) as [-> | _]; [done |].
      split; [done | split; [done |]]. intros _. repeat split.
    + split; [done | split; [done |]]. intros _. repeat split.
Qed.

End FormFacts.

Section FormOnPageFacts.
Context {number R File : Type}.
Context `{Rm : !Remote R} `{WS : !WebStorage} `{DF : !DateFormat} `{FS : !Files File}.
Context `{JEs : !Json (list (JournalEntry number))}.
Context `{JE : !Json (JournalEntry number)}.
Context `{JN : !Json (NewEntry number)}.

(** What the page makes of the form's data for the marker [m]. *)
Lemma handleFormSubmit_marker (data : FormData) (a : App number) (w : World R) m :
  tempMarker a = Some m ->
  let payload :=
    mkNew (lat m) (lng m) (form_date data) (toLocaleString (form_date data))
          (form_note data) (form_category data) (form_photoUrl data) in
  handleFormSubmit data a w =
    match createEntry payload w with
    | (Return saved, w') =>
        (Return tt,
         setIsSyncing false
           (setTempMarker None
              (setIsFormOpen false
                 (setEntries (fun prev => prev ++ [saved]) (setIsSyncing true a)))), w')
    | (Throw _, w') =>
        (Return tt,
         setIsSyncing false
           (shown "Failed to save to cloud, saved locally instead."
                  (setIsSyncing true a)), w')
    | (Pending, w') => (Pending, setIsSyncing true a, w')
    end.
Proof.
  intros Hm payload. unfold handleFormSubmit. rewrite Hm.
  unfold ui_bind, ui_finally, ui_try, update, alert, call, ui_ret. simpl.
  fold payload. by destruct (createEntry payload w) as [[saved | e |] w'].
Qed.

(** X27. From the form to the mirror, with the remote failing, the mirror
    readable and Web Storage taking the write: saving the form for the
    marker on the map ends with the form and the page idle, the form closed
    and the marker gone, no message shown, one request sent, and one entry
    added to the list of the page and written to the mirror, which holds it
    wherever the new collection is read back from its text: the entry
    minted locally from the fields of the form, its photo the chosen file
    as a data URL or else the preview. *)
Theorem saveLog_offline (f : EntryForm.Form File) (a : App number) (w : World R)
    m url s r' xs :
  tempMarker a = Some m ->
  EntryForm.finalPhotoUrl f = Some url ->
  let payload :=
    mkNew (lat m) (lng m) (EntryForm.date f) (toLocaleString (EntryForm.date f))
          (EntryForm.note f) (EntryForm.category f) url in
  let e := minted payload (clock w + Z.of_N (latency s)) in
  serve (POST_entry payload) (remote w) = (s, r') ->
  request_fails (JournalEntry number) s ->
  mirror_holds (localStorage w) xs ->
  admits (localStorage w) STORAGE_KEY (stringify (xs ++ [e])) = true ->
  json_safe (xs ++ [e]) ->
  exists f' a' w',
    saveLog f a w = (Return tt, f', (a', w')) /\
    EntryForm.isProcessing f' = false /\
    entries a' = entries a ++ [e] /\
    isFormOpen a' = false /\ tempMarker a' = None /\ isSyncing a' = false /\
    alerts a' = alerts a /\
    mirror_holds (localStorage w') (xs ++ [e]) /\
    trace w' = trace w ++ [Sent (POST_entry payload)].
Proof.
  intros Hm Hurl payload e Hs Hf Hx Ha Hsafe.
  unfold saveLog, EntryForm.handleSubmit, onSubmit. rewrite Hurl. simpl.
  rewrite (handleFormSubmit_marker _ a w m Hm). simpl. fold payload.
  rewrite (createEntry_offline_run w payload s r' xs Hs Hf Hx Ha). fold e.
  eexists _, _, _. split; [reflexivity |]. simpl.
  repeat split; try done. by apply mirror_holds_stored.
Qed.

(** X28. Saving the form on the page never throws. When it ends the form
    is idle again. It stays on "Saving..." only if the chosen file cannot
    be read, and then the page is never asked and nothing is sent, or if the
    request of the page stays pending, and then the store is as it was. *)
Theorem saveLog_never_throws (f : EntryForm.Form File) (a : App number) (w : World R) :
  match saveLog f a w with
  | (Return _, f', _) => EntryForm.isProcessing f' = false
  | (Throw _, _, _) => False
  | (Pending, f', (a', w')) =>
      EntryForm.isProcessing f' = true /\
      (EntryForm.finalPhotoUrl f = None /\ a' = a /\ w' = w \/
       is_Some (tempMarker a) /\ isSyncing a' = true /\ localStorage w' = localStorage w)
  end.
Proof.
  unfold saveLog, EntryForm.handleSubmit, onSubmit.
  destruct (EntryForm.finalPhotoUrl f) as [url |]; simpl; [| by split; [| left]].
  destruct (tempMarker a) as [m |] eqn:Hm.
  - rewrite (handleFormSubmit_marker _ a w m Hm). simpl.
    match goal with |- context [createEntry ?p w] => set (payload := p) end.
    pose proof (createEntry_settled w payload) as Hset.
    destruct (createEntry payload w) as [[saved | e |] w']; simpl; try done.
    split; [done | right]. split; [by eexists | split; [done |]].
    apply Hset.
  - unfold handleFormSubmit. rewrite Hm. by simpl.
Qed.

End FormOnPageFacts.

(** ** More concrete runs *)

Section MoreRuns.
Import Ref Demo Visit.

Ltac run := vm_compute; reflexivity.
Ltac safe := split; [run | vm_compute; discriminate].
Ltac holds xs :=
  apply (mirror_text _ (stringify xs) xs); [run | vm_compute; discriminate | run].

(** The store also keeps a theme; the remote answers every request. *)
Lemma other_keys_untouched_witness :
  let w := world (<["theme" := "dark"]> (holding [park]))
                 [success 40 (stringify [cafe])] in
  localStorage (checkConnection w).2 !! "theme" = Some "dark" /\
  localStorage (getEntries (WS := unlimited) w).2 !! "theme" = Some "dark" /\
  localStorage (createEntry (WS := unlimited) spot w).2 !! "theme" = Some "dark" /\
  localStorage (deleteEntry (WS := unlimited) "1" w).2 !! "theme" = Some "dark" /\
  localStorage (importEntries (WS := unlimited) [twin] w).2 !! "theme" = Some "dark".
Proof.
  intros w.
  destruct (other_keys_untouched (WS := unlimited) w spot "1" [twin] "theme")
    as (H1 & H2 & H3 & H4 & H5); [vm_compute; discriminate |].
  rewrite H1, H2, H3, H4, H5. repeat split; run.
Defined.

(** A remote that never answers. *)
Lemma gateway_waits_forever_witness :
  let w := world (holding [park]) [Never] in
  (getEntries (WS := unlimited) w).1 = Pending /\
  (createEntry (WS := unlimited) spot w).1 = Pending /\
  (deleteEntry (WS := unlimited) "1" w).1 = Pending.
Proof.
  intros w.
  destruct (gateway_waits_forever (WS := unlimited) w spot "1")
    as (H1 & H2 & H3 & _); [intros req; reflexivity |].
  split; [exact H1 | split; [exact H2 | exact H3]].
Defined.


(** The remote lists three entries, which a store of 300 characters cannot
    take; the mirror holds [cafe]. *)
Lemma stale_list_when_store_refuses_witness :
  let w := world (holding [cafe]) [success 40 (stringify [park; cafe; twin])] in
  getEntries (WS := quota 300) w = (Return [cafe], sent GET_entries 40 [] w) /\
  localStorage (sent GET_entries 40 [] w) = holding [cafe].
Proof.
  intros w.
  apply (stale_list_when_store_refuses (WS := quota 300) w 40
           (mkResponse true (stringify [park; cafe; twin])) []
           [park; cafe; twin] [cafe]);
    [run | run | run | run | holds [cafe]].
Defined.

(** Id 1 is deleted with the remote confirming, then again with the remote
    away. *)
Lemma deleteEntry_twice_witness :
  let w := world (holding [park; cafe]) [success 30 "{}"] in
  let w1 := (deleteEntry (WS := unlimited) "1" w).2 in
  (deleteEntry (WS := unlimited) "1" w1).1 = Return tt /\
  localStorage (deleteEntry (WS := unlimited) "1" w1).2 = holding [cafe].
Proof.
  intros w w1.
  destruct (deleteEntry_twice (WS := unlimited) w "1" (success 30 "{}") []
                              [park; cafe])
    with (s2 := Rejects 0) (r2 := @nil Settle) as (Hrun & Hsame);
    [run | done | holds [park; cafe] | run | safe | run | done | run |].
  split; [exact Hrun | exact (eq_trans Hsame eq_refl)].
Defined.


(** With the remote away [spot] is created, then deleted again by the id it
    got; the mirror held [park; cafe]. *)
Lemma create_then_delete_witness :
  let w := world (holding [park; cafe]) [Rejects 3; success 30 "{}"] in
  let e := minted spot (start + 3) in
  let w1 := (createEntry (WS := unlimited) spot w).2 in
  (createEntry (WS := unlimited) spot w).1 = Return e /\
  (deleteEntry (WS := unlimited) (id e) w1).1 = Return tt /\
  mirror_holds (localStorage (deleteEntry (WS := unlimited) (id e) w1).2) [park; cafe].
Proof.
  intros w e w1.
  apply (create_then_delete (WS := unlimited) w spot (Rejects 3)
           [success 30 "{}"] [park; cafe])
    with (s2 := success 30 "{}") (r2 := @nil Settle);
    [run | constructor | holds [park; cafe] | run | safe | safe
     | vm_compute; intros H; repeat (apply elem_of_cons in H as [H | H]; [discriminate |]);
       by apply elem_of_nil in H
     | run | done | run].
Defined.

(** Two entries created with the remote away, the second request failing
    at once. *)
Lemma same_millisecond_same_id_witness :
  let w := world (holding [park]) [Rejects 3; Rejects 0] in
  let e1 := minted spot (start + 3) in
  let e2 := with_id undated "local-1700000000003" in
  let w1 := (createEntry (WS := unlimited) spot w).2 in
  (createEntry (WS := unlimited) spot w).1 = Return e1 /\
  (createEntry (WS := unlimited) undated w1).1 = Return e2 /\
  mirror_holds (localStorage (createEntry (WS := unlimited) undated w1).2) [park; e1; e2].
Proof.
  intros w e1 e2 w1.
  apply (same_millisecond_same_id (WS := unlimited) w spot undated (Rejects 3)
           [Rejects 0] [park])
    with (s2 := Rejects 0) (r2 := @nil Settle);
    [run | constructor | holds [park] | run | safe | run | constructor | run | run | safe].
Defined.


(** The remote is away. Over a mirror that is not JSON the creation throws
    a syntax error; over an empty mirror in a store of 100 characters it
    throws the error of the store. *)
Lemma createEntry_offline_errors_witness :
  createEntry (WS := unlimited) spot (world broken offline) =
    (Throw SyntaxError, sent (POST_entry spot) 0 [] (world broken offline)) /\
  createEntry (WS := quota 100) spot (world ∅ offline) =
    (Throw QuotaExceededError, sent (POST_entry spot) 0 [] (world ∅ offline)).
Proof.
  split.
  - destruct (createEntry_offline_errors (WS := unlimited) (world broken offline)
                spot (Rejects 0) []) as (Hsyntax & _); [run | constructor |].
    apply Hsyntax. exists "{". split; [run | split; [discriminate | run]].
  - destruct (createEntry_offline_errors (WS := quota 100) (world ∅ offline)
                spot (Rejects 0) []) as (_ & Hquota & _); [run | constructor |].
    apply (Hquota []); [by apply mirror_absent | run].
Defined.

(** The remote confirms the deletion. Over a mirror that is not JSON the
    call throws a syntax error; over a mirror of three entries in a store
    of 100 characters it throws the error of the store. *)
Lemma deleteEntry_errors_witness :
  let w := world (holding [park; cafe; twin]) [success 30 "{}"] in
  deleteEntry (WS := unlimited) "1" (world broken [success 30 "{}"]) =
    (Throw SyntaxError, sent (DELETE_entry "1") 30 [] (world broken [success 30 "{}"])) /\
  deleteEntry (WS := quota 100) "1" w =
    (Throw QuotaExceededError, sent (DELETE_entry "1") 30 [] w).
Proof.
  intros w. split.
  - destruct (deleteEntry_errors (WS := unlimited) (world broken [success 30 "{}"])
                "1" (success 30 "{}") []) as (Hsyntax & _); [run | done |].
    apply Hsyntax. exists "{". split; [run | split; [discriminate | run]].
  - destruct (deleteEntry_errors (WS := quota 100) w "1" (success 30 "{}") [])
      as (_ & Hquota & _); [run | done |].
    apply (Hquota [park; cafe; twin]); [holds [park; cafe; twin] | run].
Defined.



(** The remote lists [cafe] over a mirror holding [park]; deleting id 1
    from that mirror with the same remote answering. *)
Lemma returns_match_mirror_witness :
  let w := world (holding [park]) [success 40 (stringify [cafe])] in
  mirror_holds (localStorage (getEntries (WS := unlimited) w).2) [cafe] /\
  (exists xs, mirror_holds (localStorage w) xs /\
     mirror_holds (localStorage (deleteEntry (WS := unlimited) "1" w).2)
                  (filter (fun e : JournalEntry Z => id e <> "1") xs)).
Proof.
  intros w.
  destruct (returns_match_mirror (WS := unlimited) RefFacts.entries_json_safe w spot "1")
    as (Hlist & _ & Hdel).
  split; [apply Hlist; run | apply Hdel; run].
Defined.

(** The page shows [park; cafe], which the mirror holds, with a marker on
    the map; the remote is away. *)
Lemma page_in_sync_witness :
  let a := pinned [park; cafe] in
  let w := world (holding [park; cafe]) offline in
  in_sync (handleFormSubmit (WS := unlimited) form a w).1.2
          (handleFormSubmit (WS := unlimited) form a w).2 /\
  in_sync (handleDeleteEntry (WS := unlimited) true "1" a w).1.2
          (handleDeleteEntry (WS := unlimited) true "1" a w).2 /\
  in_sync (handleImport (WS := unlimited) (Some (EntryArray [twin])) a w).1.2
          (handleImport (WS := unlimited) (Some (EntryArray [twin])) a w).2.
Proof.
  intros a w.
  destruct (page_in_sync (WS := unlimited) RefFacts.entries_json_safe a w form true "1"
              (Some (EntryArray [twin])) (mkCoordinates 35 139))
    as (Hs & Hd & Hi & _); [holds [park; cafe] |].
  destruct (handleFormSubmit form a w) as [[? ?] ?].
  destruct (handleDeleteEntry true "1" a w) as [[? ?] ?].
  destruct (handleImport (Some (EntryArray [twin])) a w) as [[? ?] ?].
  split; [exact Hs | split; [exact Hd | exact Hi]].
Defined.

(** The first load with a remote that answers the probe and lists
    [park; cafe], over an empty store. *)
Lemma initApp_loads_witness :
  let w := world ∅ [success 5 "ok"; success 40 (stringify [park; cafe])] in
  let r := initApp (WS := unlimited) initial w in
  isLoading r.1.2 = false /\ in_sync r.1.2 r.2.
Proof.
  intros w r. subst r.
  pose proof (initApp_loads (WS := unlimited) RefFacts.entries_json_safe initial w) as H.
  assert (Ho : (initApp (WS := unlimited) initial w).1.1 = Return tt) by run.
  assert (Hw : localStorage (initApp (WS := unlimited) initial w).2
               = holding [park; cafe]) by run.
  destruct (initApp initial w) as [[o a'] w']. simpl in Ho, Hw |- *. subst o.
  destruct H as [Hload [Hsync | [(s & Hs & _ & Hp) _]]]; [done |].
  rewrite Hw in Hs. vm_compute in Hs. injection Hs as <-.
  vm_compute in Hp. discriminate.
Defined.


(** The detail panel shows [park]; the deletion of id 1 is confirmed and
    the remote is away: [park] and its twin leave the list and the panel
    closes. *)
Lemma delete_updates_view_witness :
  let a := viewing "1" [park; cafe; twin] in
  let w := world (holding [park; cafe; twin]) offline in
  let r := handleDeleteEntry (WS := unlimited) true "1" a w in
  entries r.1.2 = [cafe] /\ selectedEntry r.1.2 = None /\ alerts r.1.2 = [].
Proof.
  intros a w r.
  destruct (delete_updates_view (WS := unlimited) "1" a w r.1.2 r.2)
    as [(Hal & Hen & Hsel & _) | (Hal & _)]; [run | | ].
  - split; [rewrite Hen; run | split; [by apply Hsel | exact Hal]].
  - vm_compute in Hal. discriminate.
Defined.

(** The form is submitted for the marker at (35, 139), over a mirror that is
    not JSON and with the remote away: the page says the entry was saved
    locally, and the store is as it was. *)
Lemma submit_outcomes_witness :
  let a := pinned [park] in
  let w := world broken offline in
  let r := handleFormSubmit (WS := unlimited) form a w in
  alerts r.1.2 = ["Failed to save to cloud, saved locally instead."] /\
  entries r.1.2 = [park] /\ localStorage r.2 = broken.
Proof.
  intros a w r.
  destruct (submit_outcomes (WS := unlimited) form a w r.1.2 r.2)
    as [(saved & Hen & _) | (Hal & Hen & Hst & _)]; [by eexists | run | | ].
  - apply (f_equal length) in Hen. vm_compute in Hen. discriminate.
  - split; [exact Hal | split; [exact Hen | exact Hst]].
Defined.

(** A file holding [park; cafe] is imported into an empty store of 100
    characters. *)
Lemma import_refused_reported_invalid_witness :
  let a := page [] in
  let w := world ∅ offline in
  handleImport (WS := quota 100) (Some (EntryArray [park; cafe])) a w =
    (Return tt, shown "Failed to import. Invalid file format." a, w).
Proof.
  intros a w.
  destruct (import_refused_reported_invalid (WS := quota 100) [park; cafe] a w)
    as (Hrefused & _); [run | exact Hrefused].
Defined.


(** A click on the map of the page as it starts, then the form is
    cancelled. *)
Lemma form_marker_invariant_witness :
  let w := world ∅ offline in
  form_has_marker (handleMapClick (mkCoordinates 35 139) initial w).1.2 /\
  form_has_marker (cancelForm (pinned [park]) w).1.2.
Proof.
  intros w. split.
  - destruct (form_marker_invariant (WS := unlimited) initial w form true "1" None
                (mkCoordinates 35 139)) as (Hclick & _);
      [split; [split; [discriminate | by intros [? ?]] | discriminate] |].
    by destruct (handleMapClick (mkCoordinates 35 139) initial w) as [[? ?] ?].
  - destruct (form_marker_invariant (WS := unlimited) (pinned [park]) w form true "1"
                None (mkCoordinates 35 139)) as (_ & _ & _ & Hcancel & _);
      [split; [split; [by eexists | done] | done] |].
    by destruct (cancelForm (pinned [park]) w) as [[? ?] ?].
Defined.

(** The form is saved for the marker at (35, 139) with a photo chosen and
    the remote away; the mirror holds [park]. *)
Lemma saveLog_offline_witness :
  let w := world (holding [park]) offline in
  let e := mkEntry "local-1700000000000" 35 139 "2024-05-04T09:00:00.000Z"
                   "May 4, 2024, 9:00 AM" "New spot" Culture
                   (Some "data:image/png;base64,shrine.png") in
  exists f' a' w',
    saveLog (WS := unlimited) draft (pinned [park]) w = (Return tt, f', (a', w')) /\
    entries a' = [park; e] /\
    mirror_holds (localStorage w') [park; e].
Proof.
  intros w e.
  destruct (saveLog_offline (WS := unlimited) draft (pinned [park]) w
              (mkCoordinates 35 139) (Some "data:image/png;base64,shrine.png")
              (Rejects 0) [] [park])
    as (f' & a' & w' & Hrun & _ & Hen & _ & _ & _ & _ & Hm & _);
    [run | run | run | constructor | holds [park] | run | safe |].
  exists f', a', w'. split; [exact Hrun | split; [exact Hen | exact Hm]].
Defined.

End MoreRuns.
